(** * CustomDS: the AA-tree [Map]

    A shallow embedding of [Map<Key, T, Compare>] (the AA-tree map of the
    repository) and the verification of its specification.

    Nodes live in a store indexed by addresses; [nullptr] is [None].  Every
    member function is a state transformer over the store and the fields of
    the map object.  A dereference of [nullptr] or of a released node has no
    defined result.  Loops take a fuel argument: a loop that runs out of fuel
    has no result either. *)

From Stdlib Require Import ZArith Lia Bool.
From stdpp Require Import gmap list sorting.

Open Scope Z_scope.

(** ** Machine integers and addresses *)

(** [std::size_t] is a 64-bit unsigned integer. *)
Definition size_type_modulus : Z := 2 ^ 64.
Definition wrap (x : Z) : Z := x mod size_type_modulus.

Abbreviation ptr := positive (only parsing).

Definition ptr_eqb (a b : option ptr) : bool := bool_decide (a = b).

(** ** The data model *)

Section Data.

Context {Key T : Type}.

(** [struct Node]: [value] points to a pair owned by the node alone, so the
    pair is stored in the node; exchanging two [value] pointers exchanges the
    pairs. *)
Record Node := mkNode {
  value : Key * T;
  left : option ptr;
  right : option ptr;
  parent : option ptr;
  level : Z
}.

(** The private fields of [Map]; an iterator is the node pointer it wraps. *)
Record Map := mkMap {
  root_ : option ptr;
  b_iter_ : option ptr;
  e_iter_ : option ptr;
  size_ : Z
}.

Record State := mkState {
  heap : gmap ptr Node;
  self : Map
}.

End Data.

(** The template parameters of [Map]: [comparator_] is [Compare()],
    [key_eq] is [operator==] on keys, and [alloc] is the allocator behind
    [new], which picks the address of the next node. *)
Class MapParams (Key T : Type) := {
  comparator_ : Key → Key → bool;
  key_eq : Key → Key → bool;
  alloc : gmap ptr (@Node Key T) → ptr
}.

Section MapModel.

Context {Key T : Type} `{!MapParams Key T}.

Implicit Types (h : gmap ptr (@Node Key T)) (s : @State Key T).

(** ** The state-and-failure monad *)

Definition M (A : Type) : Type := @State Key T → option (A * @State Key T).

Definition ret {A} (a : A) : M A := λ s, Some (a, s).
Definition bind {A B} (m : M A) (f : A → M B) : M B :=
  λ s, match m s with Some (a, s') => f a s' | None => None end.
Definition fail {A} : M A := λ _, None.

Notation "'do' x <- m ; k" := (bind m (λ x, k))
  (at level 10, x name, m at level 100, k at level 200, only parsing).
Notation "'do' ' pat <- m ; k" := (bind m (λ x, match x with pat => k end))
  (at level 10, pat pattern, m at level 100, k at level 200, only parsing).
Notation "m ;; k" := (bind m (λ _, k))
  (at level 100, k at level 200, right associativity, only parsing).

Definition load (p : ptr) : M (@Node Key T) :=
  λ s, match heap s !! p with Some n => Some (n, s) | None => None end.
Definition store (p : ptr) (n : @Node Key T) : M unit :=
  λ s, Some (tt, mkState (<[p := n]> (heap s)) (self s)).
Definition release (p : ptr) : M unit :=
  λ s, match heap s !! p with
       | Some _ => Some (tt, mkState (delete p (heap s)) (self s))
       | None => None
       end.
Definition new_Node (n : @Node Key T) : M ptr :=
  λ s, let p := alloc (heap s) in
       Some (p, mkState (<[p := n]> (heap s)) (self s)).
Definition get_self : M (@Map) := λ s, Some (self s, s).
Definition put_self (m : @Map) : M unit := λ s, Some (tt, mkState (heap s) m).

Definition get_value (p : ptr) : M (Key * T) := do n <- load p; ret (value n).
Definition get_left (p : ptr) : M (option ptr) := do n <- load p; ret (left n).
Definition get_right (p : ptr) : M (option ptr) := do n <- load p; ret (right n).
Definition get_parent (p : ptr) : M (option ptr) := do n <- load p; ret (parent n).
Definition get_level (p : ptr) : M Z := do n <- load p; ret (level n).

Definition set_value (p : ptr) (v : Key * T) : M unit :=
  do n <- load p; store p (mkNode v (left n) (right n) (parent n) (level n)).
Definition set_left (p : ptr) (v : option ptr) : M unit :=
  do n <- load p; store p (mkNode (value n) v (right n) (parent n) (level n)).
Definition set_right (p : ptr) (v : option ptr) : M unit :=
  do n <- load p; store p (mkNode (value n) (left n) v (parent n) (level n)).
Definition set_parent (p : ptr) (v : option ptr) : M unit :=
  do n <- load p; store p (mkNode (value n) (left n) (right n) v (level n)).
Definition set_level (p : ptr) (v : Z) : M unit :=
  do n <- load p; store p (mkNode (value n) (left n) (right n) (parent n) v).

Definition get_root : M (option ptr) := do m <- get_self; ret (root_ m).
Definition get_b_iter : M (option ptr) := do m <- get_self; ret (b_iter_ m).
Definition get_size : M Z := do m <- get_self; ret (size_ m).
Definition set_root (v : option ptr) : M unit :=
  do m <- get_self; put_self (mkMap v (b_iter_ m) (e_iter_ m) (size_ m)).
Definition set_b_iter (v : option ptr) : M unit :=
  do m <- get_self; put_self (mkMap (root_ m) v (e_iter_ m) (size_ m)).
Definition set_size (v : Z) : M unit :=
  do m <- get_self; put_self (mkMap (root_ m) (b_iter_ m) (e_iter_ m) v).

(** A [const] or [static] member only reads the store. *)
Definition reading {A} (f : gmap ptr (@Node Key T) → option A) : M A :=
  λ s, match f (heap s) with Some a => Some (a, s) | None => None end.

(** ** Lookup: [findNode], [findParent] *)

Definition equivalent (a b : Key) : bool :=
  negb (comparator_ a b) && negb (comparator_ b a).

Fixpoint findNode_loop (fuel : nat) h (search_key : Key)
    (node : option ptr) : option (option ptr) :=
  match node with
  | None => Some None
  | Some p =>
    match fuel with
    | O => None
    | S fuel' =>
      n ← h !! p;
      let key := fst (value n) in
      if negb (comparator_ key search_key) && negb (comparator_ search_key key)
      then Some (Some p)
      else if comparator_ search_key key
           then findNode_loop fuel' h search_key (left n)
           else findNode_loop fuel' h search_key (right n)
    end
  end.

Definition findNode (fuel : nat) (search_key : Key) : M (option ptr) :=
  do root <- get_root;
  reading (λ h, findNode_loop fuel h search_key root).

(** The loop of [findParent] carries both [parent] and [node]. *)
Fixpoint findParent_loop (fuel : nat) h (search_key : Key)
    (parent_ node : option ptr) : option (option ptr * option ptr) :=
  match node with
  | None => Some (parent_, None)
  | Some p =>
    match fuel with
    | O => None
    | S fuel' =>
      n ← h !! p;
      let key := fst (value n) in
      if negb (comparator_ key search_key) && negb (comparator_ search_key key)
      then Some (Some p, Some p)
      else if comparator_ search_key key
           then findParent_loop fuel' h search_key (Some p) (left n)
           else findParent_loop fuel' h search_key (Some p) (right n)
    end
  end.

Definition findParent (fuel : nat) (search_key : Key) : M (option ptr) :=
  do root <- get_root;
  do '(parent_, node) <- reading (λ h, findParent_loop fuel h search_key None root);
  do sz <- get_size;
  if bool_decide (node ≠ None) || (sz =? 0) then ret node else ret parent_.

(** ** Traversal: [beginNode], [next], [prev] *)

Fixpoint leftmost (fuel : nat) h (node : ptr) : option ptr :=
  match fuel with
  | O => None
  | S fuel' =>
    n ← h !! node;
    match left n with
    | Some l => leftmost fuel' h l
    | None => Some node
    end
  end.

Fixpoint rightmost (fuel : nat) h (node : ptr) : option ptr :=
  match fuel with
  | O => None
  | S fuel' =>
    n ← h !! node;
    match right n with
    | Some r => rightmost fuel' h r
    | None => Some node
    end
  end.

Definition beginNode (fuel : nat) h (node : option ptr)
    : option (option ptr) :=
  match node with
  | None => Some None
  | Some p => Some <$> leftmost fuel h p
  end.

(** [while (parent != nullptr && parent->right == node)] *)
Fixpoint climb_right (fuel : nat) h (node : ptr)
    (parent_ : option ptr) : option (option ptr) :=
  match parent_ with
  | None => Some None
  | Some pp =>
    match fuel with
    | O => None
    | S fuel' =>
      pn ← h !! pp;
      if ptr_eqb (right pn) (Some node)
      then climb_right fuel' h pp (parent pn)
      else Some (Some pp)
    end
  end.

Fixpoint climb_left (fuel : nat) h (node : ptr)
    (parent_ : option ptr) : option (option ptr) :=
  match parent_ with
  | None => Some None
  | Some pp =>
    match fuel with
    | O => None
    | S fuel' =>
      pn ← h !! pp;
      if ptr_eqb (left pn) (Some node)
      then climb_left fuel' h pp (parent pn)
      else Some (Some pp)
    end
  end.

Definition next (fuel : nat) h (node : option ptr)
    : option (option ptr) :=
  p ← node;
  n ← h !! p;
  match right n with
  | Some r => Some <$> leftmost fuel h r
  | None => climb_right fuel h p (parent n)
  end.

Definition prev (fuel : nat) h (node : option ptr)
    : option (option ptr) :=
  p ← node;
  n ← h !! p;
  match left n with
  | Some l => Some <$> rightmost fuel h l
  | None => climb_left fuel h p (parent n)
  end.

(** ** The balancing engine: [skew], [split] *)

Definition skew (node : ptr) : M ptr :=
  do l <- get_left node;
  match l with
  | None => ret node
  | Some left_node =>
    do lv <- get_level node;
    do llv <- get_level left_node;
    if negb (lv =? llv) then ret node else
    do lr <- get_right left_node;
    set_left node lr;;
    do lr <- get_right left_node;
    match lr with
    | Some q => set_parent q (Some node)
    | None => ret tt
    end;;
    set_right left_node (Some node);;
    do np <- get_parent node;
    set_parent left_node np;;
    do np <- get_parent node;
    match np with
    | Some pp =>
      do ppl <- get_left pp;
      if ptr_eqb ppl (Some node)
      then set_left pp (Some left_node)
      else set_right pp (Some left_node)
    | None => ret tt
    end;;
    set_parent node (Some left_node);;
    do root <- get_root;
    (if ptr_eqb root (Some node) then set_root (Some left_node) else ret tt);;
    ret left_node
  end.

Definition split (node : ptr) : M ptr :=
  do r <- get_right node;
  match r with
  | None => ret node
  | Some right_node =>
    do rr <- get_right right_node;
    match rr with
    | None => ret node
    | Some rr_node =>
      do lv <- get_level node;
      do rrlv <- get_level rr_node;
      if negb (lv =? rrlv) then ret node else
      do rl <- get_left right_node;
      set_right node rl;;
      do rl <- get_left right_node;
      match rl with
      | Some q => set_parent q (Some node)
      | None => ret tt
      end;;
      set_left right_node (Some node);;
      do np <- get_parent node;
      set_parent right_node np;;
      do np <- get_parent node;
      match np with
      | Some pp =>
        do ppl <- get_left pp;
        if ptr_eqb ppl (Some node)
        then set_left pp (Some right_node)
        else set_right pp (Some right_node)
      | None => ret tt
      end;;
      set_parent node (Some right_node);;
      do root <- get_root;
      (if ptr_eqb root (Some node) then set_root (Some right_node) else ret tt);;
      do rlv <- get_level right_node;
      set_level right_node (wrap (rlv + 1));;
      ret right_node
    end
  end.

(** ** Insertion *)

(** [over limit k]: the walk has seen [limit] unchanged nodes in a row and
    stops; without a limit it never does. *)
Definition over (limit : option Z) (k : Z) : bool :=
  match limit with Some n => negb (k <? n) | None => false end.

(** The upward walk of [insert].  The source stops after three unchanged
    nodes in a row ([unchanged_nodes < 3], the limit [Some 3]); with the
    limit [None] the walk always continues to the root. *)
Fixpoint insert_walk (limit : option Z) (fuel : nat)
    (rebalance_node : option ptr) (unchanged_nodes : Z) : M unit :=
  match rebalance_node with
  | None => ret tt
  | Some rb =>
    if over limit unchanged_nodes then ret tt else
    match fuel with
    | O => fail
    | S fuel' =>
      do s1 <- skew rb;
      do is_tree_changed <-
        (if negb (ptr_eqb (Some rb) (Some s1)) then ret true
         else do s2 <- split rb; ret (negb (ptr_eqb (Some rb) (Some s2))));
      let unchanged_nodes' :=
        if is_tree_changed then 0 else unchanged_nodes + 1 in
      do up <- get_parent rb;
      insert_walk limit fuel' up unchanged_nodes'
    end
  end.

Definition insert_with (limit : option Z) (fuel : nat) (v : Key * T)
    : M (option ptr * bool) :=
  do parent_ <- findParent fuel (fst v);
  do hit <- match parent_ with
        | None => ret false
        | Some p => do pv <- get_value p; ret (key_eq (fst pv) (fst v))
        end;
  if hit then ret (parent_, false) else
  do new_node <- new_Node (mkNode v None None parent_ 1);
  do sz <- get_size;
  set_size (wrap (sz + 1));;
  match parent_ with
  | None =>
    set_root (Some new_node);;
    do root <- get_root;
    set_b_iter root
  | Some p =>
    do b <- get_b_iter;
    do bv <- match b with Some bp => get_value bp | None => fail end;
    (if comparator_ (fst v) (fst bv) then set_b_iter (Some new_node)
     else ret tt);;
    do pv <- get_value p;
    do rebalance_node <-
      (if comparator_ (fst v) (fst pv)
       then set_left p (Some new_node);; ret (Some p)
       else set_right p (Some new_node);; get_parent p);
    insert_walk limit fuel rebalance_node 0
  end;;
  ret (Some new_node, true).

(** [insert] as the source has it, and the insertion of the specification
    whose walk always continues to the root. *)
Definition insert : nat → Key * T → M (option ptr * bool) :=
  insert_with (Some 3).

Definition insert_to_root : nat → Key * T → M (option ptr * bool) :=
  insert_with None.

(** ** Deletion *)

Definition delete_Node (p : ptr) : M unit :=
  do l <- get_left p;
  do r <- get_right p;
  match l, r with
  | None, None => release p
  | _, _ => fail
  end.

Definition trivialNodeErase (fuel : nat) (node_to_erase : ptr)
    (child : option ptr) : M (option ptr) :=
  match child with
  | Some c => do np <- get_parent node_to_erase; set_parent c np
  | None => ret tt
  end;;
  do root <- get_root;
  do parent_ <-
    (if negb (ptr_eqb root (Some node_to_erase)) then
       do np <- get_parent node_to_erase;
       match np with
       | None => fail
       | Some pp =>
         do ppl <- get_left pp;
         (if ptr_eqb ppl (Some node_to_erase) then set_left pp child
          else set_right pp child);;
         ret (Some pp)
       end
     else set_root child;; ret None);
  do b <- get_b_iter;
  (if ptr_eqb b (Some node_to_erase) then
     do b' <- reading (λ h, next fuel h b);
     set_b_iter b'
   else ret tt);;
  do sz <- get_size;
  set_size (wrap (sz - 1));;
  set_left node_to_erase None;;
  set_right node_to_erase None;;
  set_parent node_to_erase None;;
  delete_Node node_to_erase;;
  ret parent_.

Definition decreaseNodeLevel (node : ptr) : M unit :=
  do l <- get_left node;
  do lv <- get_level node;
  do left_diff <- match l with
              | Some lp => do llv <- get_level lp; ret (wrap (lv - llv))
              | None => ret lv
              end;
  do r <- get_right node;
  do right_diff <- match r with
               | Some rp => do rlv <- get_level rp; ret (wrap (lv - rlv))
               | None => ret lv
               end;
  if (1 <? left_diff) || (1 <? right_diff) then
    do r <- get_right node;
    match r with
    | Some rp =>
      do rlv <- get_level rp;
      do lv <- get_level node;
      if rlv =? lv then set_level rp (wrap (rlv - 1)) else ret tt
    | None => ret tt
    end;;
    do lv <- get_level node;
    set_level node (wrap (lv - 1))
  else ret tt.

(** [if (rb->right != nullptr) { skew(rb->right);
         if (rb->right->right != nullptr) skew(rb->right->right); }] *)
Definition skew_below (rb : ptr) : M unit :=
  do r <- get_right rb;
  match r with
  | Some rp =>
    skew rp;;
    do r <- get_right rb;
    match r with
    | Some rp =>
      do rr <- get_right rp;
      match rr with
      | Some rrp => skew rrp;; ret tt
      | None => ret tt
      end
    | None => fail
    end
  | None => ret tt
  end.

(** [if (rb->right != nullptr) split(rb->right);] *)
Definition split_below (rb : ptr) : M unit :=
  do r <- get_right rb;
  match r with
  | Some rp => split rp;; ret tt
  | None => ret tt
  end.

(** One round of the [while] loop of [erase]; the result is the next
    [rebalance_node] and [is_level_changed]. *)
Definition erase_round (rebalance_node : ptr) : M (option ptr * bool) :=
  do init_level <- get_level rebalance_node;
  decreaseNodeLevel rebalance_node;;
  do lv <- get_level rebalance_node;
  let is_level_changed := negb (init_level =? lv) in
  do rb <-
    (if is_level_changed then
       do rb <- skew rebalance_node;
       skew_below rb;;
       do rb <- split rb;
       split_below rb;;
       ret rb
     else ret rebalance_node);
  do up <- get_parent rb;
  ret (up, is_level_changed).

Fixpoint erase_walk (fuel : nat) (rebalance_node : option ptr)
    (is_level_changed : bool) : M unit :=
  match rebalance_node with
  | None => ret tt
  | Some rb =>
    if negb is_level_changed then ret tt else
    match fuel with
    | O => fail
    | S fuel' =>
      do '(up, changed) <- erase_round rb;
      erase_walk fuel' up changed
    end
  end.

(** The last branch of [erase]: [current_node] has two children.  Its
    in-order successor is taken out of the tree and released; the result is
    the [rebalance_node] to start the walk from. *)
Definition eraseTwoChildren (fuel : nat) (current_node : ptr)
    : M (option ptr) :=
  do nx <- reading (λ h, next fuel h (Some current_node));
  match nx with
  | None => fail
  | Some next_node =>
    do right_child <- get_right next_node;
    do rebalance_node <- get_parent next_node;
    match right_child with
    | Some rc => set_parent rc rebalance_node
    | None => ret tt
    end;;
    match rebalance_node with
    | None => fail
    | Some rb =>
      do rbl <- get_left rb;
      (if ptr_eqb rbl (Some next_node) then set_left rb right_child
       else set_right rb right_child);;
      (* std::swap(current_node->value, next_node->value) *)
      do cv <- get_value current_node;
      do nv <- get_value next_node;
      set_value current_node nv;;
      set_value next_node cv;;
      (* current_node->value->second = std::move(next_node->value->second) *)
      do cv <- get_value current_node;
      do nv <- get_value next_node;
      set_value current_node (fst cv, snd nv);;
      do sz <- get_size;
      set_size (wrap (sz - 1));;
      set_left next_node None;;
      set_right next_node None;;
      set_parent next_node None;;
      delete_Node next_node;;
      ret (Some rb)
    end
  end.

Definition erase (fuel : nat) (erased_key : Key) : M unit :=
  do root <- get_root;
  match root with
  | None => ret tt
  | Some _ =>
    do current <- findNode fuel erased_key;
    match current with
    | None => ret tt
    | Some current_node =>
      do l <- get_left current_node;
      do r <- get_right current_node;
      do rebalance_node <-
        match l, r with
        | None, None => trivialNodeErase fuel current_node None
        | Some _, None => trivialNodeErase fuel current_node l
        | None, Some _ => trivialNodeErase fuel current_node r
        | Some _, Some _ => eraseTwoChildren fuel current_node
        end;
      erase_walk fuel rebalance_node true
    end
  end.

(** ** Observers *)

Definition begin_ : M (option ptr) := get_b_iter.
Definition end_ : M (option ptr) := do m <- get_self; ret (e_iter_ m).
Definition find (fuel : nat) (search_key : Key) : M (option ptr) :=
  findNode fuel search_key.
Definition contains (fuel : nat) (key : Key) : M bool :=
  do p <- findNode fuel key; ret (bool_decide (p ≠ None)).
Definition getSize : M Z := get_size.
Definition empty : M bool := do sz <- get_size; ret (sz =? 0).

(** [operator*] of an iterator. *)
Definition deref (it : option ptr) : M (Key * T) :=
  match it with Some p => get_value p | None => fail end.

(** ** Construction, copy and move *)

(** [Map()] *)
Definition Map_new : Map := mkMap None None None 0.

(** [new Node] from the node [other]: the node is allocated, its members
    are initialised from [other] and its children are copied, the left one
    first. *)
Fixpoint Node_copy (fuel : nat) (other : ptr) : M ptr :=
  match fuel with
  | O => fail
  | S fuel' =>
    do o <- load other;
    do this <- new_Node (mkNode (value o) None None None (level o));
    match left o with
    | Some ol =>
      do l <- Node_copy fuel' ol;
      set_left this (Some l);;
      set_parent l (Some this)
    | None => ret tt
    end;;
    match right o with
    | Some or =>
      do r <- Node_copy fuel' or;
      set_right this (Some r);;
      set_parent r (Some this)
    | None => ret tt
    end;;
    ret this
  end.

(** [Map(const Map& other)]: the object under construction is [self]. *)
Definition Map_copy (fuel : nat) (other : Map) : M unit :=
  do root <- match root_ other with
             | None => ret None
             | Some p => do q <- Node_copy fuel p; ret (Some q)
             end;
  do b <- reading (λ h, beginNode fuel h root);
  put_self (mkMap root b None (size_ other)).

(** [Map(Map&& other)]: the result is what is left of [other]. *)
Definition Map_move (other : Map) : M Map :=
  put_self (mkMap (root_ other) (b_iter_ other) None (size_ other));;
  ret (mkMap None None (e_iter_ other) 0).

(** ** Iteration *)

(** [for (it = first; it != last; ++it)], collecting [*it]. *)
Fixpoint iterate_from (fuel : nat) h (it last : option ptr)
    : option (list (Key * T)) :=
  if ptr_eqb it last then Some [] else
  match fuel with
  | O => None
  | S fuel' =>
    p ← it;
    n ← h !! p;
    nx ← next fuel' h it;
    rest ← iterate_from fuel' h nx last;
    Some (value n :: rest)
  end.

Definition iterate (fuel : nat) : M (list (Key * T)) :=
  do b <- begin_;
  do e <- end_;
  reading (λ h, iterate_from fuel h b e).

(** ** Programs *)

(** A client that owns one map: it inserts and erases, and may go on with
    a copy of its map or with the map moved to a new object. *)
Inductive op :=
  | Insert (v : Key * T)
  | Erase (k : Key)
  | Copy
  | Move.

Definition step (fuel : nat) (o : op) : M unit :=
  match o with
  | Insert v => insert fuel v;; ret tt
  | Erase k => erase fuel k
  | Copy => do other <- get_self; Map_copy fuel other
  | Move => do other <- get_self; Map_move other;; ret tt
  end.

Fixpoint run (fuel : nat) (ops : list op) : M unit :=
  match ops with
  | [] => ret tt
  | o :: ops' => step fuel o;; run fuel ops'
  end.

End MapModel.

(** ** The tree a store represents *)

Section Abstract.

Context {Key T : Type} `{!MapParams Key T}.

Implicit Types (h : gmap ptr (@Node Key T)) (s : @State Key T).

(** A binary tree whose nodes carry their address, pair and level. *)
Inductive tree : Type :=
  | E
  | N (l : tree) (p : ptr) (kv : Key * T) (lv : Z) (r : tree).

Definition rootp (t : tree) : option ptr :=
  match t with E => None | N _ p _ _ _ => Some p end.

(** A missing child counts as level 0. *)
Definition lvl (t : tree) : Z :=
  match t with E => 0 | N _ _ _ lv _ => lv end.

Definition right_of (t : tree) : tree :=
  match t with E => E | N _ _ _ _ r => r end.

Definition left_of (t : tree) : tree :=
  match t with E => E | N l _ _ _ _ => l end.

Fixpoint inorder (t : tree) : list (ptr * (Key * T)) :=
  match t with
  | E => []
  | N l p kv _ r => inorder l ++ (p, kv) :: inorder r
  end.

Fixpoint ptrs (t : tree) : list ptr :=
  match t with
  | E => []
  | N l p _ _ r => p :: ptrs l ++ ptrs r
  end.

Fixpoint nodes (t : tree) : nat :=
  match t with
  | E => O
  | N l _ _ _ r => S (nodes l + nodes r)
  end.

Fixpoint height (t : tree) : nat :=
  match t with
  | E => O
  | N l _ _ _ r => S (Nat.max (height l) (height r))
  end.

(** [Rep h par t]: the store [h] holds the nodes of [t], linked as in [t],
    the root's [parent] field being [par]. *)
Fixpoint Rep h (par : option ptr) (t : tree) : Prop :=
  match t with
  | E => True
  | N l p kv lv r =>
    h !! p = Some (mkNode kv (rootp l) (rootp r) par lv)
    ∧ Rep h (Some p) l ∧ Rep h (Some p) r
  end.

(** A tree with a hole: the path from the hole up to the root, innermost
    frame first.  [FL] is a node whose left child is the hole, [FR] a node
    whose right child is the hole. *)
Inductive frame : Type :=
  | FL (p : ptr) (kv : Key * T) (lv : Z) (r : tree)
  | FR (l : tree) (p : ptr) (kv : Key * T) (lv : Z).

Definition fptr (f : frame) : ptr :=
  match f with FL p _ _ _ => p | FR _ p _ _ => p end.

Definition fill1 (f : frame) (t : tree) : tree :=
  match f with
  | FL p kv lv r => N t p kv lv r
  | FR l p kv lv => N l p kv lv t
  end.

Fixpoint plug (c : list frame) (t : tree) : tree :=
  match c with
  | [] => t
  | f :: c' => plug c' (fill1 f t)
  end.

Definition cpar (c : list frame) : option ptr :=
  match c with [] => None | f :: _ => Some (fptr f) end.

Definition fsib (f : frame) : tree :=
  match f with FL _ _ _ r => r | FR l _ _ _ => l end.

Definition fcell (f : frame) (hole par : option ptr) : @Node Key T :=
  match f with
  | FL p kv lv r => mkNode kv hole (rootp r) par lv
  | FR l p kv lv => mkNode kv (rootp l) hole par lv
  end.

Fixpoint cptrs (c : list frame) : list ptr :=
  match c with
  | [] => []
  | f :: c' => fptr f :: ptrs (fsib f) ++ cptrs c'
  end.

(** [RepC h c hole]: the store holds the frames of [c], the innermost one
    pointing to [hole] on the side of the hole. *)
Fixpoint RepC h (c : list frame) (hole : option ptr) : Prop :=
  match c with
  | [] => True
  | f :: c' =>
    h !! fptr f = Some (fcell f hole (cpar c'))
    ∧ Rep h (Some (fptr f)) (fsib f)
    ∧ RepC h c' (Some (fptr f))
  end.

(** The same for a path inside a subtree whose root has the parent [top]. *)
Definition cpar_in (top : option ptr) (c : list frame) : option ptr :=
  match c with [] => top | f :: _ => Some (fptr f) end.

Fixpoint RepC_in h (top : option ptr) (c : list frame) (hole : option ptr)
    : Prop :=
  match c with
  | [] => True
  | f :: c' =>
    h !! fptr f = Some (fcell f hole (cpar_in top c'))
    ∧ Rep h (Some (fptr f)) (fsib f)
    ∧ RepC_in h top c' (Some (fptr f))
  end.

(** [Repr s t]: the map object of [s] holds the tree [t]. *)
Definition Repr s (t : tree) : Prop :=
  NoDup (ptrs t) ∧ Rep (heap s) None t ∧ root_ (self s) = rootp t.

(** ** The rotations on trees *)

Definition skew_t (t : tree) : tree :=
  match t with
  | N (N a pl kl ll b) p kv lv c =>
    if lv =? ll then N a pl kl ll (N b p kv lv c) else t
  | _ => t
  end.

Definition split_t (t : tree) : tree :=
  match t with
  | N a p kv lv (N b pr kr lr (N c prr krr lrr d)) =>
    if lv =? lrr
    then N (N a p kv lv b) pr kr (wrap (lr + 1)) (N c prr krr lrr d)
    else t
  | _ => t
  end.

(** Whether the rotation is performed at the root of [t]. *)
Definition skews (t : tree) : bool :=
  match t with N (N _ _ _ ll _) _ _ lv _ => lv =? ll | _ => false end.

Definition splits (t : tree) : bool :=
  match t with
  | N _ _ _ lv (N _ _ _ _ (N _ _ _ lrr _)) => lv =? lrr
  | _ => false
  end.

(** ** Search on trees *)

(** The descent of [findNode] and [findParent]: the path to the node whose
    key is equivalent to [k], or to the empty place where [k] belongs. *)
Fixpoint descend (k : Key) (c : list frame) (t : tree) : list frame * tree :=
  match t with
  | E => (c, E)
  | N l p kv lv r =>
    if negb (comparator_ (fst kv) k) && negb (comparator_ k (fst kv))
    then (c, t)
    else if comparator_ k (fst kv)
         then descend k (FL p kv lv r :: c) l
         else descend k (FR l p kv lv :: c) r
  end.

(** The path to the leftmost node of [t]. *)
Fixpoint min_split (c : list frame) (t : tree) : list frame * tree :=
  match t with
  | E => (c, E)
  | N l p kv lv r =>
    match l with
    | E => (c, t)
    | N _ _ _ _ _ => min_split (FL p kv lv r :: c) l
    end
  end.

Definition is_left_frame (f : frame) : Prop :=
  match f with FL _ _ _ _ => True | FR _ _ _ _ => False end.

(** The elements before and after the hole of a context. *)
Fixpoint cbefore (c : list frame) : list (ptr * (Key * T)) :=
  match c with
  | [] => []
  | FL _ _ _ _ :: c' => cbefore c'
  | FR l p kv _ :: c' => cbefore c' ++ inorder l ++ [(p, kv)]
  end.

Fixpoint cafter (c : list frame) : list (ptr * (Key * T)) :=
  match c with
  | [] => []
  | FL p kv _ r :: c' => (p, kv) :: inorder r ++ cafter c'
  | FR _ _ _ _ :: c' => cafter c'
  end.

(** ** Insertion on trees *)

(** The upward walk of [insert] from the subtree [t] under the path [c],
    after [k] unchanged nodes. *)
Fixpoint ins_walk_t (limit : option Z) (fuel : nat) (c : list frame)
    (t : tree) (k : Z) : option tree :=
  if over limit k then Some (plug c t) else
  match fuel with
  | O => None
  | S fuel' =>
    if skews t then ins_walk_t limit fuel' c (skew_t t) 0
    else if splits t then ins_walk_t limit fuel' c (split_t t) 0
    else match c with
         | [] => Some t
         | f :: c' => ins_walk_t limit fuel' c' (fill1 f t) (k + 1)
         end
  end.

Definition ins_up (limit : option Z) (fuel : nat) (c : list frame)
    (t : tree) (k : Z) : option tree :=
  match c with
  | [] => Some t
  | f :: c' => ins_walk_t limit fuel c' (fill1 f t) k
  end.

(** Attach the new leaf [x] at the hole of [c] and rebalance. *)
Definition attach_t (limit : option Z) (fuel : nat) (c : list frame)
    (x : tree) : option tree :=
  match c with
  | [] => Some x
  | FL p kv lv r :: c' => ins_walk_t limit fuel c' (N x p kv lv r) 0
  | FR l p kv lv :: c' => ins_up limit fuel c' (N l p kv lv x) 0
  end.

Definition insert_t (limit : option Z) (fuel : nat) (q : ptr) (v : Key * T)
    (t : tree) : option tree :=
  match descend (fst v) [] t with
  | (c, E) => attach_t limit fuel c (N E q v 1 E)
  | (_, N _ _ _ _ _) => Some t
  end.

(** ** Deletion on trees *)

Definition dec_t (t : tree) : tree :=
  match t with
  | E => E
  | N l p kv lv r =>
    let left_diff := match l with E => lv | _ => wrap (lv - lvl l) end in
    let right_diff := match r with E => lv | _ => wrap (lv - lvl r) end in
    if (1 <? left_diff) || (1 <? right_diff) then
      N l p kv (wrap (lv - 1))
        match r with
        | E => E
        | N rl pr kr lr rr =>
          if lr =? lv then N rl pr kr (wrap (lr - 1)) rr else r
        end
    else t
  end.

Definition on_right (f : tree → tree) (t : tree) : tree :=
  match t with E => E | N l p kv lv r => N l p kv lv (f r) end.

(** The rotations of one round of the walk of [erase]. *)
Definition fix_t (t : tree) : tree :=
  on_right split_t
    (split_t (on_right (on_right skew_t) (on_right skew_t (skew_t t)))).

(** The upward walk of [erase] from the parent of the subtree [u]. *)
Fixpoint erase_up (c : list frame) (u : tree) : tree :=
  match c with
  | [] => u
  | f :: c' =>
    let t0 := fill1 f u in
    let t1 := dec_t t0 in
    if lvl t1 =? lvl t0 then plug c' t0 else erase_up c' (fix_t t1)
  end.

Definition erase_t (k : Key) (t : tree) : tree :=
  match descend k [] t with
  | (_, E) => t
  | (c, N l p kv lv r) =>
    match l, r with
    | E, _ => erase_up c r
    | _, E => erase_up c l
    | _, _ =>
      match min_split [] r with
      | (cr, N _ q kq lq rq) =>
        erase_up (cr ++ FR l p (fst kq, snd kv) lv :: c) rq
      | (_, E) => t
      end
    end
  end.

(** ** Invariants *)

(** What the verification assumes of the template parameters: the
    comparator is a strict order, [operator==] on keys agrees with the
    equivalence of the comparator, and [new] returns an unused address. *)
Class MapParamsOk : Prop := {
  cmp_irrefl : ∀ a : Key, comparator_ a a = false;
  cmp_trans : ∀ a b c : Key,
    comparator_ a b = true → comparator_ b c = true → comparator_ a c = true;
  key_eq_equiv : ∀ a b : Key, key_eq a b = equivalent a b;
  alloc_fresh : ∀ h, h !! alloc h = None
}.

(** The frames of a search path for [k]: [k] is below a node left on its
    right hand, above a node left on its left hand. *)
Definition frame_side_ok (k : Key) (f : frame) : Prop :=
  match f with
  | FL _ kv _ _ => comparator_ k (fst kv) = true
  | FR _ _ kv _ => comparator_ (fst kv) k = true
  end.

Definition path_ok (k : Key) (c : list frame) : Prop :=
  Forall (frame_side_ok k) c.

(** The address of the first node in order. *)
Definition minp (t : tree) : option ptr := fst <$> head (inorder t).

(** The comparator orders the keys of an in-order list strictly. *)
Definition lt_key (a b : ptr * (Key * T)) : Prop :=
  comparator_ (fst (snd a)) (fst (snd b)) = true.

Definition bst (t : tree) : Prop := StronglySorted lt_key (inorder t).

(** The AA invariant: the left child is one level below its parent; the
    right child is one level below, or on the level of its parent with its
    own right child one level below. *)
Definition right_ok (lv : Z) (r : tree) : Prop :=
  lvl r = lv - 1 ∨ (lvl r = lv ∧ lvl (right_of r) = lv - 1).

Fixpoint aa (t : tree) : Prop :=
  match t with
  | E => True
  | N l _ _ lv r => aa l ∧ aa r ∧ lvl l = lv - 1 ∧ right_ok lv r
  end.

(** [ctx_ok c hl hr]: a subtree of level [hl] whose right child has level
    [hr] fits the hole of [c]. *)
Fixpoint ctx_ok (c : list frame) (hl hr : Z) : Prop :=
  match c with
  | [] => True
  | FL _ _ lv r :: c' =>
    hl = lv - 1 ∧ aa r ∧ right_ok lv r ∧ ctx_ok c' lv (lvl r)
  | FR l _ _ lv :: c' =>
    aa l ∧ lvl l = lv - 1 ∧ (hl = lv - 1 ∨ (hl = lv ∧ hr = lv - 1))
    ∧ ctx_ok c' lv hl
  end.





(** The violations that can be pending at the subtree [t] under [c] during
    the walk of [insert]. *)
Definition pend_left c t : Prop :=
  ∃ a pl kl b p kv lv r,
    t = N (N a pl kl lv b) p kv lv r ∧ aa a ∧ aa b ∧ aa r
    ∧ lvl a = lv - 1 ∧ lvl b = lv - 1 ∧ right_ok lv r ∧ ctx_ok c lv (lvl r).

Definition pend_double c t : Prop :=
  ∃ a p kv lv b q kq rr,
    t = N a p kv lv (N b q kq lv rr) ∧ aa a ∧ aa b ∧ aa rr
    ∧ lvl a = lv - 1 ∧ lvl b = lv - 1 ∧ lvl rr = lv ∧ ctx_ok c lv lv.

Definition pend_raised c t : Prop :=
  aa t ∧ 0 < lvl t ∧ lvl (right_of t) = lvl t - 1
  ∧ ctx_ok c (lvl t - 1) (lvl t - 1).

Definition pend_right c t : Prop :=
  aa t ∧ 0 < lvl t ∧ lvl (right_of t) = lvl t ∧ ctx_ok c (lvl t) (lvl t - 1).

Definition pend (fuel : nat) (k : Z) c t : Prop :=
  (aa (plug c t) ∧ (length c < fuel)%nat)
  ∨ (k ≤ 1 ∧ pend_left c t ∧ (3 * length c + 3 ≤ fuel)%nat)
  ∨ (k ≤ 2 ∧ pend_double c t ∧ (3 * length c + 2 ≤ fuel)%nat)
  ∨ (k ≤ 0 ∧ pend_raised c t ∧ (3 * length c + 1 ≤ fuel)%nat)
  ∨ (k ≤ 1 ∧ pend_right c t ∧ (3 * length c + 1 ≤ fuel)%nat).

(** What the walk of [erase] expects of a subtree [u] that replaces [o]:
    [u] satisfies the invariant, on the level of [o] (and then with a
    horizontal right link only if [o] had one) or one level below. *)
Definition post (o u : tree) : Prop :=
  aa u
  ∧ ((lvl u = lvl o ∧ (lvl (right_of o) ≠ lvl o → lvl (right_of u) ≠ lvl u))
     ∨ lvl u = lvl o - 1).

Definition same_fields (m m' : Map) : Prop :=
  b_iter_ m' = b_iter_ m ∧ e_iter_ m' = e_iter_ m ∧ size_ m' = size_ m.

(** The tree without its addresses: shape, pairs and levels. *)
Fixpoint shape (t : tree) : tree :=
  match t with
  | E => E
  | N l _ kv lv r => N (shape l) 1%positive kv lv (shape r)
  end.

(** The pairs of a map in ascending order, and the strict order of their
    keys. *)
Definition pairs (t : tree) : list (Key * T) := (inorder t).*2.

Definition lt_pair (a b : Key * T) : Prop :=
  comparator_ (fst a) (fst b) = true.

(** The invariant of a map object: the store holds a search tree that
    satisfies the level rules, [b_iter_] is its first node, [size_] is the
    number of its nodes and [e_iter_] is the null iterator. *)
Definition Inv s (t : tree) : Prop :=
  Repr s t ∧ bst t ∧ aa t
  ∧ b_iter_ (self s) = minp t
  ∧ size_ (self s) = Z.of_nat (nodes t)
  ∧ e_iter_ (self s) = None.

End Abstract.

Arguments tree : clear implicits.
Arguments frame : clear implicits.

(** * The properties of the specification *)

Section SpecWords.

Context {Key T : Type} `{!MapParams Key T}.

Implicit Types (t l r : tree Key T).


(** The level recomputation of the walk of [erase], on integers without
    bound: the level of the node drops when one of its children is more
    than one level below it, an absent child being on level 0, and a right
    child that was on the level of the node drops with it. *)
Definition level_drops t : bool :=
  match t with
  | E => false
  | N l _ _ lv r => (1 <? lv - lvl l) || (1 <? lv - lvl r)
  end.

Definition lower_level t : tree Key T :=
  match t with
  | E => E
  | N l p kv lv r =>
    N l p kv (lv - 1)
      match r with
      | E => E
      | N rl pr kr lr rr => if lr =? lv then N rl pr kr (lr - 1) rr else r
      end
  end.

Definition recompute_level t : tree Key T :=
  if level_drops t then lower_level t else t.

(** The recomputation with the condition and the test of the right child
    read the other way: the level drops when both children are more than
    one level below, and the right child follows when it is on the reduced
    level. *)
Definition level_drops_both t : bool :=
  match t with
  | E => false
  | N l _ _ lv r => (1 <? lv - lvl l) && (1 <? lv - lvl r)
  end.

Definition lower_level_after t : tree Key T :=
  match t with
  | E => E
  | N l p kv lv r =>
    N l p kv (lv - 1)
      match r with
      | E => E
      | N rl pr kr lr rr =>
        if lr =? lv - 1 then N rl pr kr (lr - 1) rr else r
      end
  end.

Definition recompute_level_both t : tree Key T :=
  if level_drops_both t then lower_level_after t else t.

(** The levels of a node and its children are in the range in which the
    unsigned differences of [decreaseNodeLevel] do not wrap. *)
Definition levels_fit t : Prop :=
  match t with
  | E => True
  | N l _ _ lv r =>
    0 < lv < size_type_modulus ∧ 0 ≤ lvl l ≤ lv ∧ 0 ≤ lvl r ≤ lv
  end.

(** [find] followed by [operator*]. *)
Definition lookup_pair (fuel : nat) (k : Key) : M (Key * T) :=
  bind (find fuel k) deref.

End SpecWords.

(** * Instances *)

(** An allocator that returns an address that is not in use. *)
Definition first_free (h : gmap positive (@Node Z Z)) : positive :=
  fresh (dom h).

(** [Map<int, int, std::less<int>>] *)
Definition less_int : MapParams Z Z :=
  {| comparator_ := Z.ltb; key_eq := Z.eqb; alloc := first_free |}.

(** [Map<int, int, Tens>] where [Tens] compares the tens of two numbers:
    a strict weak ordering under which 20 and 21 are equivalent. *)
Definition less_tens : MapParams Z Z :=
  {| comparator_ := λ a b, a / 10 <? b / 10;
     key_eq := Z.eqb;
     alloc := first_free |}.

(** The map [Map()] in an empty store. *)
Definition new_map : @State Z Z := mkState ∅ Map_new.

(** A map with the one pair [(5, 50)]. *)
Definition one_tree : tree Z Z := N E 1%positive (5, 50) 1 E.

Definition one_map : @State Z Z :=
  mkState {[ 1%positive := mkNode (5, 50) None None None 1 ]}
          (mkMap (Some 1%positive) (Some 1%positive) None 1).


(** Three nodes on one level in a row, as [insert] leaves them before the
    [split]. *)
Definition chain_tree : tree Z Z :=
  N E 1%positive (1, 10) 1
    (N E 2%positive (2, 20) 1 (N E 3%positive (3, 30) 1 E)).

Definition chain_map : @State Z Z :=
  mkState
    {[ 1%positive := mkNode (1, 10) None (Some 2%positive) None 1;
       2%positive := mkNode (2, 20) None (Some 3%positive) (Some 1%positive) 1;
       3%positive := mkNode (3, 30) None None (Some 2%positive) 1 ]}
    (mkMap (Some 1%positive) (Some 1%positive) None 3).

(** The keys 1 to 5 inserted in this order, and the map after the node of
    key 1 is taken out by [erase], before the walk. *)
Definition one_to_five : list (@op Z Z) :=
  [Insert (1, 10); Insert (2, 20); Insert (3, 30); Insert (4, 40);
   Insert (5, 50)].

Definition spliced_tree : tree Z Z :=
  N E 2%positive (2, 20) 2
    (N (N E 3%positive (3, 30) 1 E) 4%positive (4, 40) 2
       (N E 5%positive (5, 50) 1 E)).

Definition spliced_map : @State Z Z :=
  mkState
    {[ 2%positive := mkNode (2, 20) None (Some 4%positive) None 2;
       3%positive := mkNode (3, 30) None None (Some 4%positive) 1;
       4%positive := mkNode (4, 40) (Some 3%positive) (Some 5%positive)
                       (Some 2%positive) 2;
       5%positive := mkNode (5, 50) None None (Some 4%positive) 1 ]}
    (mkMap (Some 2%positive) (Some 2%positive) None 4).

(** [erase] up to the walk, for a node without children. *)
Definition splice_leaf `{!MapParams Key T} (fuel : nat) (k : Key)
    : M (option ptr) :=
  bind (findNode fuel k)
    (λ n, match n with
          | Some p => trivialNodeErase fuel p None
          | None => fail
          end).

(** The map of the keys 2, 1 and 3, whose root, the node of key 2, has two
    children; and the map after [erase(2)]. *)
Definition two_one_three : list (@op Z Z) :=
  [Insert (2, 20); Insert (1, 10); Insert (3, 30)].

Definition state_after (P : MapParams Z Z) (fuel : nat) (ops : list (@op Z Z))
    (s : @State Z Z) : @State Z Z :=
  match @run Z Z P fuel ops s with
  | Some (_, s') => s'
  | None => s
  end.

Definition map_213 : @State Z Z :=
  Eval vm_compute in state_after less_int 20 two_one_three new_map.

Definition map_213_erased : @State Z Z :=
  Eval vm_compute in state_after less_int 20 [Erase 2] map_213.

(** The map of the keys 10, 20 and 30 under [less_tens], and the map after
    [insert] of the pair [(21, 9)]. *)
Definition ten_twenty_thirty : list (@op Z Z) :=
  [Insert (10, 1); Insert (20, 2); Insert (30, 3)].

Definition map_tens : @State Z Z :=
  Eval vm_compute in state_after less_tens 20 ten_twenty_thirty new_map.

Definition map_tens_inserted : @State Z Z :=
  Eval vm_compute in state_after less_tens 20 [Insert (21, 9)] map_tens.

(** * Destruction and assignment *)

Section Lifecycle.

Context {Key T : Type} `{!MapParams Key T}.

Implicit Types (h : gmap ptr (@Node Key T)) (s : @State Key T).

Notation "'do' x <- m ; k" := (bind m (λ x, k))
  (at level 10, x name, m at level 100, k at level 200, only parsing).
Notation "m ;; k" := (bind m (λ _, k))
  (at level 100, k at level 200, right associativity, only parsing).

(** [delete node] for a node that may have children: [~Node()] deletes the
    pair, then the left and the right child, and the node is released. *)
Fixpoint Node_delete (fuel : nat) (node : ptr) : @M Key T unit :=
  match fuel with
  | O => fail
  | S fuel' =>
    do n <- load node;
    match left n return @M Key T unit with
    | Some l => Node_delete fuel' l
    | None => ret tt
    end;;
    match right n return @M Key T unit with
    | Some r => Node_delete fuel' r
    | None => ret tt
    end;;
    release node
  end.

(** [delete root_] *)
Definition delete_root (fuel : nat) : @M Key T unit :=
  do root <- get_root;
  match root with
  | Some p => Node_delete fuel p
  | None => ret tt
  end.

(** [~Map()] *)
Definition Map_destroy (fuel : nat) : @M Key T unit :=
  delete_root fuel;;
  set_root None;;
  set_b_iter None;;
  set_size 0.


(** [operator=(Map&& other)] for [this != &other]: the result is what is
    left of [other]. *)
Definition Map_move_assign (other : Map) : @M Key T Map :=
  set_root (root_ other);;
  set_b_iter (b_iter_ other);;
  set_size (size_ other);;
  ret (mkMap None None (e_iter_ other) 0).

(** [operator--] of an iterator, and the loop that walks back from a node
    to the first one, collecting the pairs. *)
Fixpoint iterate_back (fuel : nat) h (it : option ptr)
    : option (list (Key * T)) :=
  match it with
  | None => Some []
  | Some p =>
    match fuel with
    | O => None
    | S fuel' =>
      n ← h !! p;
      pv ← prev fuel' h it;
      rest ← iterate_back fuel' h pv;
      Some (value n :: rest)
    end
  end.

(** The keys of a map in ascending order. *)
Definition keys (t : tree Key T) : list Key := (pairs t).*1.

(** No two keys of the list are equivalent. *)
Fixpoint distinct_keys (ks : list Key) : Prop :=
  match ks with
  | [] => True
  | k :: ks' => Forall (λ x, equivalent x k = false) ks' ∧ distinct_keys ks'
  end.

End Lifecycle.

(** * More instances *)

(** The tree of [map_213]. *)
Definition tree_213 : tree Z Z :=
  N (N E 2%positive (1, 10) 1 E) 1%positive (2, 20) 2
    (N E 3%positive (3, 30) 1 E).

(** Two map objects in one store: [pair_map] holds the pair [(7, 70)], and
    the fields of [one_map] those of a map that holds [(5, 50)]. *)
Definition seven_tree : tree Z Z := N E 2%positive (7, 70) 1 E.

Definition pair_map : @State Z Z :=
  mkState {[ 1%positive := mkNode (5, 50) None None None 1;
             2%positive := mkNode (7, 70) None None None 1 ]}
          (mkMap (Some 2%positive) (Some 2%positive) None 1).

(** * Trees: the rotations and the walk of [insert] *)

Lemma wrap_small x : 0 ≤ x < size_type_modulus → wrap x = x.
Proof. intros. unfold wrap. by apply Z.mod_small. Qed.

Ltac kcheck :=
  cbn [ins_walk_t over];
  match goal with
  | |- context [?k <? 3] => replace (k <? 3) with true by (symmetry; apply Z.ltb_lt; lia)
  end; cbn [negb].

Section TreeLemmas.

Context {Key T : Type} `{!MapParams Key T}.

Implicit Types (t l r a b rr : tree Key T) (c : list (frame Key T)).

Lemma inorder_plug c t : inorder (plug c t) = cbefore c ++ inorder t ++ cafter c.
Proof.
  revert t. induction c as [|f c IH]; intros t; simpl.
  - by rewrite app_nil_r.
  - rewrite IH. destruct f; simpl; by rewrite <- ?app_assoc.
Qed.

Lemma nodes_inorder t : nodes t = length (inorder t).
Proof.
  induction t as [|l IHl p kv lv r IHr]; simpl; [done|].
  rewrite length_app. simpl. lia.
Qed.

Lemma height_le_nodes t : (height t ≤ nodes t)%nat.
Proof. induction t as [|l IHl p kv lv r IHr]; simpl; lia. Qed.

Lemma descend_length k c t c' t' :
  descend k c t = (c', t') → (length c' + height t' ≤ length c + height t)%nat.
Proof.
  revert c. induction t as [|l IHl p kv lv r IHr]; intros c; simpl.
  - intros [= <- <-]. simpl. lia.
  - destruct (_ && _); [intros [= <- <-]; simpl; lia|].
    destruct (comparator_ k (fst kv)); intros Hd.
    + apply IHl in Hd. simpl in Hd. lia.
    + apply IHr in Hd. simpl in Hd. lia.
Qed.

Lemma height_plug_le c t : (height t ≤ height (plug c t))%nat.
Proof.
  revert t. induction c as [|f c IH]; intros t; simpl; [done|].
  etrans; [|apply IH]. destruct f; simpl; lia.
Qed.

Lemma length_plug_le c t : (length c + height t ≤ height (plug c t))%nat.
Proof.
  revert t. induction c as [|f c IH]; intros t; simpl; [done|].
  etrans; [|apply IH]. destruct f; simpl; lia.
Qed.

Lemma plug_app c1 c2 t : plug (c1 ++ c2) t = plug c2 (plug c1 t).
Proof. revert t. induction c1 as [|f c1 IH]; intros t; simpl; [done|]. apply IH. Qed.

Lemma cbefore_app c1 c2 : cbefore (c1 ++ c2) = cbefore c2 ++ cbefore c1.
Proof.
  induction c1 as [|[p kv lv r|l p kv lv] c1 IH]; simpl.
  - by rewrite app_nil_r.
  - done.
  - by rewrite IH, <- !app_assoc.
Qed.

Lemma cafter_app c1 c2 : cafter (c1 ++ c2) = cafter c1 ++ cafter c2.
Proof.
  induction c1 as [|[p kv lv r|l p kv lv] c1 IH]; simpl; [done| |done].
  by rewrite IH, <- !app_assoc.
Qed.

Lemma inorder_skew t : inorder (skew_t t) = inorder t.
Proof.
  destruct t as [|[|a pl kl ll b] p kv lv r]; simpl; try done.
  destruct (lv =? ll); simpl; [|done]. by rewrite <- app_assoc.
Qed.

Lemma inorder_split t : inorder (split_t t) = inorder t.
Proof.
  destruct t as [|a p kv lv [|b pr kr lr [|cc prr krr lrr d]]]; simpl; try done.
  destruct (lv =? lrr); simpl; [|done]. by rewrite <- app_assoc.
Qed.

Lemma skew_t_id t : skews t = false → skew_t t = t.
Proof.
  destruct t as [|[|a pl kl ll b] p kv lv r]; simpl; try done. by intros ->.
Qed.

Lemma split_t_id t : splits t = false → split_t t = t.
Proof.
  destruct t as [|a p kv lv [|b pr kr lr [|cc prr krr lrr d]]]; simpl; try done.
  by intros ->.
Qed.

Lemma aa_lvl_nonneg t : aa t → 0 ≤ lvl t.
Proof.
  induction t as [|l IHl p kv lv r IHr]; simpl; [lia|].
  intros (Hl & _ & Hlv & _). specialize (IHl Hl). lia.
Qed.

Lemma aa_lvl_pos l p kv lv r : aa (N l p kv lv r) → 0 < lv.
Proof. simpl. intros (Hl & _ & Hlv & _). apply aa_lvl_nonneg in Hl. lia. Qed.

Lemma aa_lvl_le t : aa t → lvl t ≤ Z.of_nat (length (inorder t)).
Proof.
  induction t as [|l IHl p kv lv r IHr]; simpl; [lia|].
  intros (Hl & _ & Hlv & _). specialize (IHl Hl).
  rewrite length_app. simpl. lia.
Qed.


Lemma aa_no_skew t : aa t → skews t = false.
Proof.
  destruct t as [|[|a pl kl ll b] p kv lv r]; simpl; try done.
  intros (_ & _ & Hlv & _). apply Z.eqb_neq. lia.
Qed.

Lemma aa_no_split t : aa t → splits t = false.
Proof.
  destruct t as [|a p kv lv [|b pr kr lr [|cc prr krr lrr d]]]; simpl; try done.
  unfold right_ok. simpl. intros (_ & (_ & _ & _ & Hrr) & _ & Hr).
  apply Z.eqb_neq. lia.
Qed.

Lemma aa_plug c t : aa (plug c t) ↔ aa t ∧ ctx_ok c (lvl t) (lvl (right_of t)).
Proof.
  revert t. induction c as [|f c IH]; intros t; simpl; [tauto|].
  rewrite IH. destruct f; simpl; unfold right_ok; simpl; intuition lia.
Qed.

(** A walk over a tree that satisfies the invariant changes nothing. *)
Lemma ins_walk_valid limit fuel c t k :
  aa (plug c t) → (length c < fuel)%nat →
  ins_walk_t limit fuel c t k = Some (plug c t).
Proof.
  revert c t k. induction fuel as [|fuel IH]; intros c t k Haa Hf; [lia|].
  simpl. destruct (over limit k); [done|].
  pose proof (proj1 (aa_plug c t) Haa) as [Ht _].
  rewrite (aa_no_skew t Ht), (aa_no_split t Ht).
  destruct c as [|f c]; [done|]. simpl in *. apply IH; [done|lia].
Qed.

Lemma ins_walk_limit_irrel fuel c t k k' :
  ins_walk_t None fuel c t k = ins_walk_t None fuel c t k'.
Proof.
  revert c t k k'. induction fuel as [|fuel IH]; intros c t k k'; simpl; [done|].
  destruct (skews t); [done|]. destruct (splits t); [done|].
  destruct c; [done|]. apply IH.
Qed.

Lemma inorder_plug_congr c t t' :
  inorder t = inorder t' → inorder (plug c t) = inorder (plug c t').
Proof. intros H. rewrite !inorder_plug. by rewrite H. Qed.

Lemma skews_false l p kv lv r : lvl l ≠ lv → skews (N l p kv lv r) = false.
Proof. destruct l; simpl; [done|]. intros. apply Z.eqb_neq. lia. Qed.

Lemma splits_true a p kv lv b q kq lq rr :
  lvl rr = lv → 0 < lv →
  splits (N a p kv lv (N b q kq lq rr)) = true
  ∧ split_t (N a p kv lv (N b q kq lq rr)) = N (N a p kv lv b) q kq (wrap (lq + 1)) rr.
Proof.
  destruct rr; simpl; [lia|]. intros -> _. by rewrite Z.eqb_refl.
Qed.

Lemma ins_walk_pend fuel : ∀ c t k,
  Z.of_nat (length (inorder (plug c t))) + 1 < size_type_modulus →
  0 ≤ k → pend fuel k c t →
  ∃ R, ins_walk_t (Some 3) fuel c t k = Some R
     ∧ ins_walk_t None fuel c t k = Some R
     ∧ aa R ∧ inorder R = inorder (plug c t).
Proof.
  induction fuel as [|fuel IH]; intros c t k Hsz Hk Hp.
  { destruct Hp as [[_ ?]|[(_&_&?)|[(_&_&?)|[(_&_&?)|(_&_&?)]]]]; lia. }
  destruct Hp as [[Haa Hf]|[(Hk1&HP&Hf)|[(Hk1&HP&Hf)|[(Hk1&HP&Hf)|(Hk1&HP&Hf)]]]].
  - exists (plug c t). rewrite (ins_walk_valid (Some 3)), (ins_walk_valid None) by done. done.
  - (* a horizontal left link: skew *)
    destruct HP as (a&pl&kl&b&p&kv&lv&r&->&Ha&Hb&Hr&Hla&Hlb&Hro&Hc).
    kcheck. cbn [skews skew_t]. rewrite Z.eqb_refl.
    destruct (IH c (N a pl kl lv (N b p kv lv r)) 0) as (R&H1&H2&H3&H4); try lia.
    { erewrite inorder_plug_congr; [exact Hsz|]. simpl. by rewrite <- !app_assoc. }
    { pose proof (aa_lvl_nonneg _ Ha).
      destruct Hro as [Hro|[Hro Hrr]].
      - right; right; right; right. split; [lia|]. split; [|lia].
        unfold pend_right. simpl. unfold right_ok. simpl. rewrite Hro in Hc.
        repeat split; try done; try lia.
      - right; right; left. split; [lia|]. split; [|lia].
        exists a, pl, kl, lv, b, p, kv, r. rewrite Hro in Hc. done. }
    exists R. repeat split; try done. rewrite H4. apply inorder_plug_congr; simpl; by rewrite <- ?app_assoc.
  - (* two horizontal right links: split *)
    destruct HP as (a&p&kv&lv&b&q&kq&rr&->&Ha&Hb&Hrr&Hla&Hlb&Hlrr&Hc).
    pose proof (aa_lvl_nonneg _ Ha).
    kcheck. rewrite skews_false by lia.
    destruct (splits_true a p kv lv b q kq lv rr) as [-> ->]; [done|lia|].
    assert (wrap (lv + 1) = lv + 1) as ->.
    { apply wrap_small. pose proof (aa_lvl_le _ Hb).
      rewrite inorder_plug in Hsz. simpl in Hsz. rewrite !length_app in Hsz.
      simpl in Hsz. rewrite !length_app in Hsz. simpl in *. lia. }
    destruct (IH c (N (N a p kv lv b) q kq (lv + 1) rr) 0) as (R&H1&H2&H3&H4); try lia.
    { erewrite inorder_plug_congr; [exact Hsz|]. simpl. by rewrite <- ?app_assoc. }
    { right; right; right; left. split; [lia|]. split; [|lia].
      unfold pend_raised. simpl. unfold right_ok. simpl.
      replace (lv + 1 - 1) with lv by lia.
      repeat split; try done; try lia. }
    exists R. repeat split; try done. rewrite H4. apply inorder_plug_congr; simpl; by rewrite <- ?app_assoc.
  - (* a raised root: nothing to do here, go up *)
    destruct HP as (Ht&Hpos&Hr&Hc).
    kcheck. rewrite (aa_no_skew t Ht), (aa_no_split t Ht).
    destruct c as [|f c]; [by exists t|].
    destruct (IH c (fill1 f t) (k + 1)) as (R&H1&H2&H3&H4); try lia; [done| |by exists R].
    simpl in Hf.
    destruct f as [fp fkv flv fr|fl fp fkv flv]; simpl in Hc.
    + destruct Hc as (Hlv&Hfr&Hro&Hc).
      right; left. split; [lia|]. split; [|lia].
      destruct t as [|a p kv lv b]; simpl in *; [lia|].
      destruct Ht as (Ha&Hb&Hla&_).
      exists a, p, kv, b, fp, fkv, flv, fr. replace flv with lv by lia.
      repeat split; try done; try lia. all: by replace lv with flv by lia.
    + destruct Hc as (Hfl&Hlfl&Hh&Hc).
      right; right; right; right. split; [lia|]. split; [|lia].
      unfold pend_right. simpl. unfold right_ok.
      assert (flv = lvl t) as -> by lia.
      repeat split; try done; try lia.
  - (* a new horizontal right link: nothing to do here, go up *)
    destruct HP as (Ht&Hpos&Hr&Hc).
    kcheck. rewrite (aa_no_skew t Ht), (aa_no_split t Ht).
    destruct c as [|f c]; [by exists t|].
    destruct (IH c (fill1 f t) (k + 1)) as (R&H1&H2&H3&H4); try lia; [done| |by exists R].
    simpl in Hf.
    destruct f as [fp fkv flv fr|fl fp fkv flv]; simpl in Hc.
    + destruct Hc as (Hlv&Hfr&Hro&Hc).
      left. split; [|lia]. apply aa_plug. simpl. unfold right_ok in *.
      repeat split; try done; try lia.
    + destruct Hc as (Hfl&Hlfl&[Hh|Hh]&Hc).
      * left. split; [|lia]. apply aa_plug. simpl. unfold right_ok in *.
        repeat split; try done; try lia.
      * right; right; left. split; [lia|]. split; [|lia].
        destruct t as [|a p kv lv b]; simpl in *; [lia|].
        destruct Ht as (Ha&Hb&Hla&_).
        exists fl, fp, fkv, flv, a, p, kv, b. replace lv with flv in * by lia.
        repeat split; try done; try lia.
Qed.

End TreeLemmas.

Ltac lvl_facts :=
  repeat match goal with
  | H : aa ?t |- _ =>
    lazymatch t with
    | N _ _ _ _ _ => cbn [aa] in H; destruct H as (? & ? & ? & ?)
    | E => clear H
    | _ => lazymatch goal with
           | _ : 0 ≤ lvl t |- _ => fail
           | _ => pose proof (aa_lvl_nonneg t H)
           end
    end
  end.

Ltac no_if x :=
  lazymatch x with
  | context [if _ then _ else _] => fail
  | _ => idtac
  end.

Ltac decide_cmp :=
  match goal with
  | |- context [wrap ?x] => rewrite (wrap_small x) by lia
  | |- context [?a <? ?b] =>
    no_if a; no_if b;
    first [ replace (a <? b) with true by (symmetry; apply Z.ltb_lt; lia)
          | replace (a <? b) with false by (symmetry; apply Z.ltb_ge; lia) ]
  | |- context [?a =? ?b] =>
    no_if a; no_if b;
    first [ replace (a =? b) with true by (symmetry; apply Z.eqb_eq; lia)
          | replace (a =? b) with false by (symmetry; apply Z.eqb_neq; lia) ]
  end.

Ltac split_case :=
  match goal with
  | |- context [match ?t with E => _ | N _ _ _ _ _ => _ end] =>
    is_var t; destruct t
  | |- context [?a <? ?b] => no_if a; no_if b; destruct (Z.ltb_spec a b)
  | |- context [?a =? ?b] => no_if a; no_if b; destruct (Z.eqb_spec a b)
  end.

Ltac tree_crush :=
  repeat (cbn in *; unfold fix_t, on_right, skew_t, split_t, dec_t;
          cbn in *; destruct_and?; lvl_facts; unfold right_ok in *;
          first [ lia | decide_cmp | split_case ]).

Ltac tree_done :=
  cbn in *; unfold right_ok in *; cbn in *; destruct_and?;
  repeat split; try assumption; try lia.

(** * Trees: the walk of [erase] keeps the invariant *)

Section EraseWalk.
Context {Key T : Type} `{!MapParams Key T}.
Implicit Types (t l r a b rr o u : tree Key T) (c : list (frame Key T)).

(** One round of the walk, at the parent of a subtree that was replaced. *)
Lemma round_post f o u :
  aa (fill1 f o) → post o u → 0 < lvl o →
  lvl (fill1 f o) + 1 < size_type_modulus →
  if lvl (dec_t (fill1 f u)) =? lvl (fill1 f u)
  then post (fill1 f o) (fill1 f u) ∧ lvl (fill1 f u) = lvl (fill1 f o)
  else post (fill1 f o) (fix_t (dec_t (fill1 f u))).
Proof.
  intros Hold (Hu & Hpost) Hpos Hb.
  destruct f as [p kv lv r|l p kv lv]; cbn [fill1] in *.
  - cbn [aa] in Hold. destruct Hold as (Ho & Hr & Hlo & Hro).
    unfold right_ok in *. pose proof (aa_lvl_nonneg _ Hu). pose proof (aa_lvl_nonneg _ Hr).
    cbn [lvl] in Hb.
    destruct Hpost as [[Hsame Hsingle]|Hdrop].
    + (* same level: nothing changes *)
      unfold post. tree_crush; tree_done.
    + (* the left child dropped *)
      unfold post. tree_crush; tree_done.
  - cbn [aa] in Hold. destruct Hold as (Hl & Ho & Hll & Hro).
    unfold right_ok in *. pose proof (aa_lvl_nonneg _ Hu). pose proof (aa_lvl_nonneg _ Hl).
    cbn [lvl] in Hb.
    destruct Hpost as [[Hsame Hsingle]|Hdrop].
    + unfold post. tree_crush; tree_done.
    + unfold post. tree_crush; tree_done.
Qed.
Lemma ctx_ok_cons f c o :
  aa o → ctx_ok (f :: c) (lvl o) (lvl (right_of o)) →
  aa (fill1 f o)
  ∧ ctx_ok c (lvl (fill1 f o)) (lvl (right_of (fill1 f o))).
Proof.
  intros Ho Hc. apply (aa_plug c (fill1 f o)).
  change (aa (plug (f :: c) o)). by apply aa_plug.
Qed.

Lemma ctx_ok_post c o u :
  post o u → lvl u = lvl o →
  ctx_ok c (lvl o) (lvl (right_of o)) → ctx_ok c (lvl u) (lvl (right_of u)).
Proof.
  intros (Hu & Hp) Hl. rewrite Hl. destruct c as [|[p kv lv r|l p kv lv] c]; simpl; try done.
  intros (Hal & Hll & Hh & Hc). repeat split; try done.
  destruct Hh as [Hh|[Hh Hr]]; [by left|]. right. split; [done|].
  destruct u as [|ul up ukv ulv ur]; simpl in *; [lia|].
  unfold right_ok in *. destruct Hp as [[_ Hs]|?]; lia.
Qed.

Lemma inorder_dec t : inorder (dec_t t) = inorder t.
Proof.
  destruct t as [|l p kv lv r]; simpl; [done|].
  destruct (_ || _); simpl; [|done].
  destruct r as [|rl pr kr lr rr]; simpl; [done|]. by destruct (lr =? lv).
Qed.

Lemma inorder_on_right g t :
  (∀ t', inorder (g t') = inorder t') → inorder (on_right g t) = inorder t.
Proof. intros Hg. destruct t; simpl; [done|]. by rewrite Hg. Qed.

Lemma inorder_fix t : inorder (fix_t t) = inorder t.
Proof.
  unfold fix_t.
  rewrite (inorder_on_right split_t) by apply inorder_split.
  rewrite inorder_split.
  rewrite (inorder_on_right (on_right skew_t))
    by (intros; apply inorder_on_right, inorder_skew).
  rewrite (inorder_on_right skew_t) by apply inorder_skew.
  apply inorder_skew.
Qed.

Lemma inorder_erase_up c u : inorder (erase_up c u) = inorder (plug c u).
Proof.
  revert u. induction c as [|f c IH]; intros u; simpl; [done|].
  destruct (_ =? _); [done|]. rewrite IH.
  apply inorder_plug_congr. by rewrite inorder_fix, inorder_dec.
Qed.

Lemma aa_bound c t :
  aa t → Z.of_nat (length (inorder (plug c t))) + 1 < size_type_modulus →
  lvl t + 1 < size_type_modulus.
Proof.
  intros Ht Hsz. apply aa_lvl_le in Ht. rewrite inorder_plug in Hsz.
  rewrite !length_app in Hsz. lia.
Qed.

(** The walk of [erase] restores the invariant. *)
Lemma erase_up_aa c : ∀ o u,
  aa o → 0 < lvl o → post o u → ctx_ok c (lvl o) (lvl (right_of o)) →
  Z.of_nat (length (inorder (plug c o))) + 1 < size_type_modulus →
  aa (erase_up c u).
Proof.
  induction c as [|f c IH]; intros o u Ho Hpos Hp Hc Hsz; simpl.
  { apply Hp. }
  destruct (ctx_ok_cons f c o Ho Hc) as [Hold Hc'].
  simpl in Hsz. pose proof (aa_bound c _ Hold Hsz) as Hb.
  pose proof (round_post f o u Hold Hp Hpos Hb) as Hround.
  destruct (lvl (dec_t (fill1 f u)) =? lvl (fill1 f u)).
  - destruct Hround as [Hp' Hl]. apply aa_plug. split; [apply Hp'|].
    by apply (ctx_ok_post c (fill1 f o)).
  - apply (IH (fill1 f o)); try done.
    destruct f; simpl in *; destruct Hold as (Ha & _ & Hl & _);
      apply aa_lvl_nonneg in Ha; unfold right_ok in *; lia.
Qed.

End EraseWalk.

(** * Trees: search and order *)

Section Order.

Context {Key T : Type} `{!MapParams Key T} `{!MapParamsOk}.

Implicit Types (t l r a b : tree Key T) (c : list (frame Key T)).
Implicit Types (k : Key) (x y : ptr * (Key * T)).

Lemma equivalent_refl k : equivalent k k = true.
Proof. unfold equivalent. by rewrite cmp_irrefl. Qed.

Lemma lt_key_trans x y z : lt_key x y → lt_key y z → lt_key x z.
Proof. unfold lt_key. apply cmp_trans. Qed.

Lemma lt_key_not_equiv x y :
  lt_key x y → equivalent (fst (snd x)) (fst (snd y)) = false.
Proof. unfold lt_key, equivalent. by intros ->. Qed.

Lemma lt_key_not_equiv_r x y :
  lt_key x y → equivalent (fst (snd y)) (fst (snd x)) = false.
Proof.
  unfold lt_key, equivalent. intros ->. simpl. apply andb_false_r.
Qed.

Lemma cmp_asym (a b : Key) : comparator_ a b = true → comparator_ b a = false.
Proof.
  intros Hab. destruct (comparator_ b a) eqn:Hba; [|done].
  by rewrite <- (cmp_irrefl a), (cmp_trans a b a).
Qed.

Lemma descend_plug k c t c' t' :
  descend k c t = (c', t') → plug c' t' = plug c t.
Proof.
  revert c. induction t as [|l IHl p kv lv r IHr]; intros c; simpl.
  - by intros [= <- <-].
  - destruct (_ && _); [by intros [= <- <-]|].
    destruct (comparator_ k (fst kv)); intros Hd.
    + by rewrite (IHl _ Hd).
    + by rewrite (IHr _ Hd).
Qed.

Lemma descend_path k c t c' t' :
  descend k c t = (c', t') → path_ok k c → path_ok k c'.
Proof.
  revert c. induction t as [|l IHl p kv lv r IHr]; intros c; simpl.
  - by intros [= <- <-].
  - destruct (comparator_ (fst kv) k) eqn:H1, (comparator_ k (fst kv)) eqn:H2;
      simpl; try by intros [= <- <-].
    + intros Hd Hc. apply (IHl _ Hd). by constructor.
    + intros Hd Hc. apply (IHr _ Hd). by constructor.
    + intros Hd Hc. apply (IHl _ Hd). by constructor.
Qed.

Lemma descend_found k c t c' l p kv lv r :
  descend k c t = (c', N l p kv lv r) → equivalent (fst kv) k = true.
Proof.
  revert c. induction t as [|l0 IHl p0 kv0 lv0 r0 IHr]; intros c; simpl; [done|].
  destruct (_ && _) eqn:He; [by intros [= <- <- <- <- <- <-]|].
  destruct (comparator_ k (fst kv0)); eauto.
Qed.

Lemma descend_app k c t c' t' :
  descend k c t = (c', t') → ∃ d, c' = d ++ c ∧ descend k [] t = (d, t').
Proof.
  revert c c' t'. induction t as [|l IHl p kv lv r IHr]; intros c c' t'; simpl.
  - intros [= <- <-]. by exists [].
  - destruct (_ && _); [intros [= <- <-]; by exists []|].
    destruct (comparator_ k (fst kv)); intros Hd.
    + destruct (IHl _ _ _ Hd) as (d & -> & Hd').
      destruct (descend k [FL p kv lv r] l) as [d2 t2] eqn:Hd2.
      destruct (IHl _ _ _ Hd2) as (d3 & -> & Hd3).
      rewrite Hd' in Hd3. injection Hd3 as <- <-.
      exists (d ++ [FL p kv lv r]). by rewrite <- app_assoc.
    + destruct (IHr _ _ _ Hd) as (d & -> & Hd').
      destruct (descend k [FR l p kv lv] r) as [d2 t2] eqn:Hd2.
      destruct (IHr _ _ _ Hd2) as (d3 & -> & Hd3).
      rewrite Hd' in Hd3. injection Hd3 as <- <-.
      exists (d ++ [FR l p kv lv]). by rewrite <- app_assoc.
Qed.

(** On a search path for [k] in a search tree, what lies before the hole is
    below [k] and what lies after it is above. *)
Lemma path_before k c t x :
  path_ok k c → bst (plug c t) → x ∈ cbefore c → comparator_ (fst (snd x)) k = true.
Proof.
  revert t. induction c as [|f c IH]; intros t Hc Hb; simpl; [set_solver|].
  apply Forall_cons in Hc. destruct Hc as [Hf Hc]. simpl in Hb.
  destruct f as [p kv lv r|l p kv lv]; simpl; [by apply (IH _ Hc Hb)|].
  rewrite !elem_of_app, list_elem_of_singleton. intros [Hx|[Hx| ->]].
  - by apply (IH _ Hc Hb).
  - unfold bst in Hb. rewrite inorder_plug in Hb. simpl in Hb.
    apply StronglySorted_app_1_r, StronglySorted_app_1_l in Hb.
    apply (cmp_trans _ (fst kv)); [|done].
    apply (StronglySorted_app_1_elem_of _ _ _ x (p, kv)) in Hb; set_solver.
  - done.
Qed.

Lemma path_after k c t x :
  path_ok k c → bst (plug c t) → x ∈ cafter c → comparator_ k (fst (snd x)) = true.
Proof.
  revert t. induction c as [|f c IH]; intros t Hc Hb; simpl; [set_solver|].
  apply Forall_cons in Hc. destruct Hc as [Hf Hc]. simpl in Hb.
  destruct f as [p kv lv r|l p kv lv]; simpl; [|by apply (IH _ Hc Hb)].
  rewrite elem_of_cons, !elem_of_app. intros [->|[Hx|Hx]].
  - done.
  - unfold bst in Hb. rewrite inorder_plug in Hb. simpl in Hb.
    apply StronglySorted_app_1_r, StronglySorted_app_1_l in Hb.
    apply (cmp_trans _ (fst kv)); [done|].
    apply StronglySorted_app_1_r, StronglySorted_cons in Hb.
    destruct Hb as [Hb _]. rewrite Forall_forall in Hb. by apply Hb.
  - by apply (IH _ Hc Hb).
Qed.

Lemma bst_plug_hole c t :
  bst (plug c t) → StronglySorted lt_key (cbefore c ++ cafter c).
Proof.
  unfold bst. rewrite inorder_plug, !StronglySorted_app. set_solver.
Qed.

(** A new key placed at the end of its search path keeps the order. *)
Lemma bst_attach k c q (v : Key * T) lv :
  fst v = k → path_ok k c → bst (plug c E) → bst (plug c (N E q v lv E)).
Proof.
  intros Hk Hc Hb. unfold bst in *. rewrite inorder_plug in *. simpl in *.
  rewrite StronglySorted_app in Hb. destruct Hb as (H1 & H2 & H3).
  rewrite StronglySorted_app, StronglySorted_cons, Forall_forall.
  repeat split; try done.
  - intros x1 x2 Hx1. rewrite elem_of_cons. intros [->|Hx2]; [|by apply H1].
    unfold lt_key. simpl. rewrite Hk.
    by apply (path_before k c E); [|unfold bst; rewrite inorder_plug; simpl;
      rewrite StronglySorted_app|].
  - intros x Hx. unfold lt_key. simpl. rewrite Hk.
    by apply (path_after k c E); [|unfold bst; rewrite inorder_plug; simpl;
      rewrite StronglySorted_app|].
Qed.

Lemma path_not_equiv k c f :
  path_ok k c → f ∈ c →
  equivalent (fst (match f with FL _ kv _ _ => kv | FR _ _ kv _ => kv end)) k = false.
Proof.
  intros Hc Hf. unfold path_ok in Hc. rewrite Forall_forall in Hc.
  specialize (Hc f Hf). unfold equivalent. destruct f; simpl in *.
  - rewrite Hc. apply andb_false_r.
  - by rewrite Hc.
Qed.

(** The cached minimum after attaching a new key. *)
Lemma minp_attach k c q (v : Key * T) lv pm kvm :
  fst v = k → path_ok k c → bst (plug c E) →
  head (inorder (plug c E)) = Some (pm, kvm) →
  minp (plug c (N E q v lv E)) =
    if comparator_ k (fst kvm) then Some q else Some pm.
Proof.
  intros Hk Hc Hb Hm. unfold minp. rewrite inorder_plug in *. simpl in *.
  destruct (cbefore c) as [|x pre] eqn:Hpre; simpl in *.
  - destruct (cafter c) as [|y post] eqn:Hpost; [done|]. simpl in Hm.
    injection Hm as ->.
    assert (comparator_ k (fst kvm) = true) as ->; [|done].
    apply (path_after k c E (pm, kvm)); try done. rewrite Hpost. set_solver.
  - injection Hm as ->.
    assert (comparator_ (fst kvm) k = true) as Hlt.
    { apply (path_before k c E (pm, kvm)); try done. rewrite Hpre. set_solver. }
    by rewrite (cmp_asym _ _ Hlt).
Qed.

End Order.

Section Minimum.

Context {Key T : Type} `{!MapParams Key T}.

Implicit Types (t l r a b : tree Key T) (c : list (frame Key T)).

Lemma ptrs_inorder t : ptrs t ≡ₚ (inorder t).*1.
Proof.
  induction t as [|l IHl p kv lv r IHr]; simpl; [done|].
  rewrite fmap_app. simpl. rewrite IHl, IHr. solve_Permutation.
Qed.

(** The first node in order is the focus of a path exactly if nothing lies
    before it. *)
Lemma minp_focus c l p kv lv r :
  NoDup (ptrs (plug c (N l p kv lv r))) →
  minp (plug c (N l p kv lv r)) = Some p → cbefore c = [] ∧ l = E.
Proof.
  rewrite ptrs_inorder. unfold minp.
  assert (inorder (plug c (N l p kv lv r)) =
          (cbefore c ++ inorder l) ++ (p, kv) :: inorder r ++ cafter c) as ->.
  { rewrite inorder_plug. simpl. by rewrite <- !app_assoc. }
  destruct (cbefore c ++ inorder l) as [|[q kq] pre] eqn:Hpre; simpl.
  - intros _ _. apply app_eq_nil in Hpre. destruct Hpre as [? Hl].
    split; [done|]. destruct l as [|ll]; [done|]. simpl in Hl.
    by destruct (inorder ll).
  - intros Hnd [= ->]. exfalso. rewrite fmap_app in Hnd. simpl in Hnd.
    apply NoDup_cons in Hnd. set_solver.
Qed.

Lemma minp_not_focus c l p kv lv r x :
  minp (plug c (N l p kv lv r)) ≠ Some p →
  head (cbefore c ++ inorder l ++ x) = head (inorder (plug c (N l p kv lv r)))
  ∧ cbefore c ++ inorder l ≠ [].
Proof.
  unfold minp. rewrite inorder_plug. simpl.
  destruct (cbefore c) as [|y pre]; simpl; [|done].
  destruct (inorder l) as [|y pre]; simpl; done.
Qed.

Lemma min_split_spec c0 t cr u :
  min_split c0 t = (cr, u) → t ≠ E →
  ∃ d q kq lq rq,
    cr = d ++ c0 ∧ u = N E q kq lq rq ∧ plug d u = t
    ∧ Forall is_left_frame d.
Proof.
  revert c0. induction t as [|l IHl p kv lv r _]; intros c0 Hm Hne; [done|].
  simpl in Hm. destruct l as [|ll pl kl lvl0 lr].
  - injection Hm as <- <-. by exists [], p, kv, lv, r.
  - destruct (IHl _ Hm ltac:(done)) as (d & q & kq & lq & rq & -> & -> & Hpl & Hfl).
    exists (d ++ [FL p kv lv r]), q, kq, lq, rq. split_and!.
    + by rewrite <- app_assoc.
    + done.
    + rewrite plug_app. simpl. by rewrite Hpl.
    + apply Forall_app. split; [done|]. by repeat constructor.
Qed.

Lemma cbefore_left_frames (d : list (frame Key T)) :
  Forall is_left_frame d → cbefore d = [].
Proof.
  induction 1 as [|[] d Hf _ IH]; simpl; done.
Qed.

Lemma minp_left_frames (d : list (frame Key T)) q kq lq rq :
  Forall is_left_frame d → minp (plug d (N E q kq lq rq)) = Some q.
Proof.
  intros Hd. unfold minp. rewrite inorder_plug, (cbefore_left_frames d Hd). done.
Qed.

End Minimum.

(** * Trees: insertion and deletion keep the invariants *)

Section TreeOps.

Context {Key T : Type} `{!MapParams Key T}.

Implicit Types (t l r R o u : tree Key T) (c d : list (frame Key T)).

Lemma aa_leaf q (v : Key * T) : aa (N E q v 1 E).
Proof. simpl. unfold right_ok. simpl. repeat split; lia. Qed.

Lemma aa_level_one l p (kv : Key * T) lv : aa (N l p kv lv E) → lv = 1 ∧ l = E.
Proof.
  simpl. unfold right_ok. simpl. intros (Hl & _ & Hll & Hr).
  assert (lv = 1) as -> by lia. split; [done|].
  destruct l as [|a pa ka la b]; [done|].
  pose proof (aa_lvl_pos _ _ _ _ _ Hl). simpl in *. lia.
Qed.

Lemma aa_no_left p (kv : Key * T) lv r : aa (N E p kv lv r) → lv = 1.
Proof. simpl. lia. Qed.

(** The walk of [insert] from a new leaf restores the invariant, and stops
    where the walk to the root would not change anything any more. *)
Lemma attach_aa fuel c q (v : Key * T) :
  aa (plug c E) →
  Z.of_nat (length (inorder (plug c E))) + 2 < size_type_modulus →
  (3 * length c + 3 ≤ fuel)%nat →
  ∃ R, attach_t (Some 3) fuel c (N E q v 1 E) = Some R
     ∧ attach_t None fuel c (N E q v 1 E) = Some R
     ∧ aa R ∧ inorder R = inorder (plug c (N E q v 1 E)).
Proof.
  intros Haa Hsz Hf.
  assert (Z.of_nat (length (inorder (plug c (N E q v 1 E)))) + 1
          < size_type_modulus) as Hsz'.
  { rewrite inorder_plug in *. rewrite !length_app in *. simpl in *. lia. }
  destruct c as [|[p kv lv r|l p kv lv] c]; simpl in *.
  - exists (N E q v 1 E). split_and!; try done. apply aa_leaf.
  - apply aa_plug in Haa. destruct Haa as [Ht Hc].
    pose proof (aa_no_left _ _ _ _ Ht) as ->.
    apply ins_walk_pend; [done|lia|].
    right; left. split; [lia|]. split; [|lia].
    simpl in Ht, Hc. destruct Ht as (_ & Hr & _ & Hro).
    exists E, q, v, E, p, kv, 1, r. split_and!; try done.
  - apply aa_plug in Haa. destruct Haa as [Ht Hc].
    destruct (aa_level_one _ _ _ _ Ht) as [-> ->]. simpl in Hc.
    set (t := N E p kv 1 (N E q v 1 E)).
    assert (aa t) as Ht'.
    { simpl. unfold right_ok. simpl. split_and!; try done; lia. }
    destruct c as [|f c]; simpl.
    { exists t. by split_and!. }
    apply ins_walk_pend; [done|lia|]. simpl in Hf.
    destruct f as [fp fkv flv fr|fl fp fkv flv]; simpl in Hc.
    + destruct Hc as (Hlv & Hfr & Hro & Hc).
      left. split; [|lia]. apply aa_plug. simpl. unfold right_ok in *. simpl.
      split_and!; try done; lia.
    + destruct Hc as (Hfl & Hlfl & [Hh|Hh] & Hc).
      * left. split; [|lia]. apply aa_plug. simpl. unfold right_ok in *. simpl.
        split_and!; try done; lia.
      * right; right; left. split; [lia|]. split; [|lia].
        exists fl, fp, fkv, flv, E, p, kv, (N E q v 1 E).
        assert (flv = 1) as -> by lia. simpl.
        split_and!; try done; try lia. unfold right_ok. simpl. lia.
Qed.





(** The walk of [erase] from the place of the node taken out restores the
    invariant. *)
Lemma erase_t_aa k t :
  aa t → Z.of_nat (length (inorder t)) + 1 < size_type_modulus →
  aa (erase_t k t).
Proof.
  intros Haa Hsz. unfold erase_t.
  destruct (descend k [] t) as [c u] eqn:Hd.
  pose proof (descend_plug _ _ _ _ _ Hd) as Hpl. simpl in Hpl. subst t.
  destruct u as [|l p kv lv r]; [done|].
  pose proof Haa as Haa0. apply aa_plug in Haa. destruct Haa as [Ht Hc].
  destruct l as [|ll pl kl lvl0 lr].
  - pose proof (aa_no_left _ _ _ _ Ht) as ->.
    apply (erase_up_aa c (N E p kv 1 r)); try done.
    simpl in Ht. destruct Ht as (_ & Hr & _ & Hro). split; [done|].
    unfold right_ok in Hro. simpl. lia.
  - destruct r as [|rl pr kr lvr rr].
    { destruct (aa_level_one _ _ _ _ Ht) as [_ [=]]. }
    destruct (min_split [] (N rl pr kr lvr rr)) as [cr uq] eqn:Hms.
    destruct (min_split_spec _ _ _ _ Hms ltac:(done))
      as (d & q & kq & lq & rq & -> & -> & Hpd & Hfl).
    rewrite app_nil_r.
    assert (aa (plug (d ++ FR (N ll pl kl lvl0 lr) p (kq.1, kv.2) lv :: c)
                  (N E q kq lq rq))) as Hall.
    { rewrite plug_app. simpl. rewrite Hpd. apply aa_plug. split; [|done].
      simpl in *. tauto. }
    apply aa_plug in Hall. destruct Hall as [Ho Hco].
    pose proof (aa_no_left _ _ _ _ Ho) as ->.
    apply (erase_up_aa _ (N E q kq 1 rq)); try done.
    + simpl in Ho. destruct Ho as (_ & Hr & _ & Hro). split; [done|].
      unfold right_ok in Hro. simpl. lia.
    + rewrite plug_app. simpl. rewrite Hpd. clear -Hsz.
      rewrite inorder_plug in *. simpl in *.
      rewrite !length_app in *. simpl in *. rewrite !length_app in *.
      simpl in *. lia.
Qed.

(** What [erase] takes out of the in-order sequence: the pair of the node
    found; when that node has two children, the pair of its successor is
    replaced by the successor's key with the mapped value of the node
    found. *)
Lemma erase_t_inorder k t c l p kv lv r :
  descend k [] t = (c, N l p kv lv r) →
  ∃ A B, inorder t = A ++ (p, kv) :: B
    ∧ ((inorder (erase_t k t) = A ++ B ∧ (l = E ∨ r = E))
       ∨ (∃ q kq B', B = (q, kq) :: B' ∧ l ≠ E ∧ r ≠ E
            ∧ inorder (erase_t k t) = A ++ (p, (kq.1, kv.2)) :: B')).
Proof.
  intros Hd. unfold erase_t. rewrite Hd.
  pose proof (descend_plug _ _ _ _ _ Hd) as Hpl. simpl in Hpl. subst t.
  rewrite inorder_plug. simpl.
  exists (cbefore c ++ inorder l), (inorder r ++ cafter c).
  split; [by rewrite <- !app_assoc|].
  destruct l as [|ll pl kl lvl0 lr].
  { left. rewrite inorder_erase_up, inorder_plug. simpl.
    split; [by rewrite app_nil_r|by left]. }
  destruct r as [|rl pr kr lvr rr].
  { left. rewrite inorder_erase_up, inorder_plug. simpl.
    split; [by rewrite <- !app_assoc|by right]. }
  right.
  destruct (min_split [] (N rl pr kr lvr rr)) as [cr uq] eqn:Hms.
  destruct (min_split_spec _ _ _ _ Hms ltac:(done))
    as (d & q & kq & lq & rq & -> & -> & Hpd & Hfl).
  rewrite app_nil_r, <- Hpd.
  exists q, kq, (inorder rq ++ cafter d ++ cafter c).
  rewrite inorder_erase_up, !inorder_plug, cbefore_app, cafter_app.
  rewrite (cbefore_left_frames d Hfl). simpl.
  split_and!; [by rewrite <- !app_assoc|done|by rewrite Hpd|].
  by rewrite app_nil_r, <- !app_assoc.
Qed.

Lemma erase_t_absent k t c :
  descend k [] t = (c, E) → erase_t k t = t.
Proof. intros Hd. unfold erase_t. by rewrite Hd. Qed.

Lemma sorted_remove (A B : list (ptr * (Key * T))) x :
  StronglySorted lt_key (A ++ x :: B) → StronglySorted lt_key (A ++ B).
Proof.
  rewrite !StronglySorted_app, StronglySorted_cons.
  intros (H1 & H2 & H3 & H4). split_and!; try done.
  intros x1 x2 Hx1 Hx2. apply H1; [done|]. set_solver.
Qed.

Lemma sorted_merge (A B : list (ptr * (Key * T))) x y y' :
  StronglySorted lt_key (A ++ x :: y :: B) → y'.2.1 = y.2.1 →
  StronglySorted lt_key (A ++ y' :: B).
Proof.
  intros Hs Hk. apply sorted_remove in Hs. revert Hs.
  rewrite !StronglySorted_app, !StronglySorted_cons, !Forall_forall.
  intros (H1 & H2 & H3 & H4). split_and!; try done.
  - intros x1 x2 Hx1 Hx2. apply elem_of_cons in Hx2 as [->|Hx2].
    + unfold lt_key. rewrite Hk. apply (H1 x1 y); set_solver.
    + apply H1; set_solver.
  - intros z Hz. unfold lt_key. rewrite Hk. by apply H3.
Qed.

Lemma erase_t_bst k t : bst t → bst (erase_t k t).
Proof.
  intros Hb. destruct (descend k [] t) as [c u] eqn:Hd.
  destruct u as [|l p kv lv r]; [by rewrite (erase_t_absent k t c)|].
  destruct (erase_t_inorder _ _ _ _ _ _ _ _ Hd)
    as (A & B & Ht & [[He _]|(q & kq & B' & -> & _ & _ & He)]);
    unfold bst in *; rewrite He; rewrite Ht in Hb.
  - by eapply sorted_remove.
  - by eapply sorted_merge.
Qed.

Lemma erase_t_length k t :
  length (inorder (erase_t k t)) =
    match (descend k [] t).2 with
    | E => length (inorder t)
    | N _ _ _ _ _ => Nat.pred (length (inorder t))
    end.
Proof.
  destruct (descend k [] t) as [c u] eqn:Hd. simpl.
  destruct u as [|l p kv lv r]; [by rewrite (erase_t_absent k t c)|].
  destruct (erase_t_inorder _ _ _ _ _ _ _ _ Hd)
    as (A & B & Ht & [[He _]|(q & kq & B' & -> & _ & _ & He)]);
    rewrite He, Ht, !length_app; simpl; lia.
Qed.

End TreeOps.

Section SearchOps.

Context {Key T : Type} `{!MapParams Key T} `{!MapParamsOk}.

Implicit Types (t l r R o u : tree Key T) (c d : list (frame Key T)).

(** The search for a key of the tree ends at the node of that key. *)
Lemma descend_finds t : ∀ c0 q (kv : Key * T),
  bst t → (q, kv) ∈ inorder t →
  ∃ c l lv r, descend (fst kv) c0 t = (c, N l q kv lv r).
Proof.
  induction t as [|l IHl p kvp lv r IHr]; intros c0 q kv Hb Hin; simpl in *.
  { by apply elem_of_nil in Hin. }
  unfold bst in Hb. simpl in Hb.
  apply StronglySorted_app in Hb. destruct Hb as (H1 & H2 & H3).
  apply StronglySorted_cons in H3. destruct H3 as [H3 H4].
  rewrite Forall_forall in H3.
  apply elem_of_app in Hin. destruct Hin as [Hin|Hin].
  - assert (comparator_ (fst kv) (fst kvp) = true) as Hlt.
    { apply (H1 (q, kv) (p, kvp)); [done|]. set_solver. }
    rewrite Hlt, andb_false_r. by apply IHl.
  - apply elem_of_cons in Hin. destruct Hin as [[= -> ->]|Hin].
    + rewrite cmp_irrefl. simpl. by exists c0, l, lv, r.
    + assert (comparator_ (fst kvp) (fst kv) = true) as Hlt.
      { by apply (H3 (q, kv)). }
      rewrite Hlt. simpl. rewrite (cmp_asym _ _ Hlt). by apply IHr.
Qed.

(** The search for a key that no key of the tree is equivalent to ends at
    an empty place. *)
Lemma descend_absent k t : ∀ c0,
  (∀ x, x ∈ inorder t → equivalent (fst (snd x)) k = false) →
  (descend k c0 t).2 = E.
Proof.
  induction t as [|l IHl p kvp lv r IHr]; intros c0 Hne; simpl; [done|].
  pose proof (Hne (p, kvp) ltac:(set_solver)) as Hp. unfold equivalent in Hp.
  simpl in Hp. rewrite Hp.
  destruct (comparator_ k (fst kvp)); [apply IHl|apply IHr];
    intros x Hx; apply Hne; set_solver.
Qed.


(** Insertion of a new key on trees. *)
Lemma insert_t_new fuel q (v : Key * T) t c :
  aa t → bst t → descend (fst v) [] t = (c, E) →
  Z.of_nat (nodes t) + 2 < size_type_modulus →
  (3 * nodes t + 3 ≤ fuel)%nat →
  ∃ R, attach_t (Some 3) fuel c (N E q v 1 E) = Some R
     ∧ attach_t None fuel c (N E q v 1 E) = Some R
     ∧ aa R ∧ bst R
     ∧ inorder R = cbefore c ++ (q, v) :: cafter c
     ∧ inorder t = cbefore c ++ cafter c.
Proof.
  intros Haa Hb Hd Hsz Hf.
  pose proof (descend_plug _ _ _ _ _ Hd) as Hpl. simpl in Hpl. subst t.
  pose proof (descend_path _ _ _ _ _ Hd ltac:(constructor)) as Hpath.
  pose proof (length_plug_le c (E : tree Key T)) as Hlen.
  pose proof (height_le_nodes (plug c E)) as Hhn.
  rewrite nodes_inorder in Hsz.
  destruct (attach_aa fuel c q v Haa Hsz ltac:(lia)) as (R & H1 & H2 & H3 & H4).
  exists R. split_and!; try done.
  - unfold bst. rewrite H4. by apply (bst_attach (fst v)).
  - by rewrite H4, inorder_plug.
  - by rewrite inorder_plug.
Qed.

End SearchOps.

(** * Reasoning about stores *)

Lemma disj_cons_r {A} (l l' : list A) (y : A) :
  (∀ x, x ∈ l → x ∉ y :: l') → y ∉ l ∧ (∀ x, x ∈ l → x ∉ l').
Proof. set_solver. Qed.

Lemma disj_app_r {A} (l l1 l2 : list A) :
  (∀ x, x ∈ l → x ∉ l1 ++ l2) →
  (∀ x, x ∈ l → x ∉ l1) ∧ (∀ x, x ∈ l → x ∉ l2).
Proof. set_solver. Qed.

(** Break [NoDup] of a list of addresses into atomic facts. *)
Ltac nodup_norm H :=
  repeat (progress (simpl in H; rewrite <- ?app_assoc, ?app_nil_r in H)).

Ltac nodup_split :=
  repeat match goal with
  | H : NoDup [] |- _ => clear H
  | H : _ ∉ [] |- _ => clear H
  | H : ∀ x, x ∈ _ → x ∉ [] |- _ => clear H
  | H : NoDup (_ :: _) |- _ => apply NoDup_cons in H; destruct H
  | H : NoDup (_ ++ _) |- _ => apply NoDup_app in H; destruct H as (? & ? & ?)
  | H : _ ∉ _ :: _ |- _ => apply not_elem_of_cons in H; destruct H
  | H : _ ∉ _ ++ _ |- _ => apply not_elem_of_app in H; destruct H
  | H : ∀ x, x ∈ _ → x ∉ _ :: _ |- _ => apply disj_cons_r in H; destruct H
  | H : ∀ x, x ∈ _ → x ∉ _ ++ _ |- _ => apply disj_app_r in H; destruct H
  end.

Ltac hlookup :=
  cbn [heap self];
  repeat first [ rewrite lookup_insert_eq | rewrite lookup_insert_ne by congruence
               | rewrite lookup_delete_ne by congruence ];
  first [ reflexivity | eassumption ].

Section HeapLemmas.

Context {Key T : Type} `{!MapParams Key T}.

Implicit Types (h : gmap ptr (@Node Key T)) (s : @State Key T).
Implicit Types (t l r : tree Key T) (c : list (frame Key T)).

Lemma Rep_insert_ne h par t q n :
  q ∉ ptrs t → Rep h par t → Rep (<[q := n]> h) par t.
Proof.
  revert par. induction t as [|l IHl p kv lv r IHr]; intros par Hq; simpl; [done|].
  simpl in Hq. rewrite not_elem_of_cons, not_elem_of_app in Hq.
  destruct Hq as (Hne & Hl & Hr). intros (Hp & HRl & HRr).
  rewrite lookup_insert_ne by done. auto.
Qed.

Lemma Rep_delete_ne h par t q :
  q ∉ ptrs t → Rep h par t → Rep (delete q h) par t.
Proof.
  revert par. induction t as [|l IHl p kv lv r IHr]; intros par Hq; simpl; [done|].
  simpl in Hq. rewrite not_elem_of_cons, not_elem_of_app in Hq.
  destruct Hq as (Hne & Hl & Hr). intros (Hp & HRl & HRr).
  rewrite lookup_delete_ne by done. auto.
Qed.

Lemma RepC_insert_ne h c hole q n :
  q ∉ cptrs c → RepC h c hole → RepC (<[q := n]> h) c hole.
Proof.
  revert hole. induction c as [|f c IH]; intros hole Hq; simpl; [done|].
  simpl in Hq. rewrite not_elem_of_cons, not_elem_of_app in Hq.
  destruct Hq as (Hne & Hl & Hr). intros (Hp & HRl & HRr).
  rewrite lookup_insert_ne by done. auto using Rep_insert_ne.
Qed.

Lemma RepC_delete_ne h c hole q :
  q ∉ cptrs c → RepC h c hole → RepC (delete q h) c hole.
Proof.
  revert hole. induction c as [|f c IH]; intros hole Hq; simpl; [done|].
  simpl in Hq. rewrite not_elem_of_cons, not_elem_of_app in Hq.
  destruct Hq as (Hne & Hl & Hr). intros (Hp & HRl & HRr).
  rewrite lookup_delete_ne by done. auto using Rep_delete_ne.
Qed.

Lemma RepC_in_insert_ne h top c hole q n :
  q ∉ cptrs c → RepC_in h top c hole → RepC_in (<[q := n]> h) top c hole.
Proof.
  revert hole. induction c as [|f c IH]; intros hole Hq; simpl; [done|].
  simpl in Hq. rewrite not_elem_of_cons, not_elem_of_app in Hq.
  destruct Hq as (Hne & Hl & Hr). intros (Hp & HRl & HRr).
  rewrite lookup_insert_ne by done. auto using Rep_insert_ne.
Qed.

Lemma RepC_in_delete_ne h top c hole q :
  q ∉ cptrs c → RepC_in h top c hole → RepC_in (delete q h) top c hole.
Proof.
  revert hole. induction c as [|f c IH]; intros hole Hq; simpl; [done|].
  simpl in Hq. rewrite not_elem_of_cons, not_elem_of_app in Hq.
  destruct Hq as (Hne & Hl & Hr). intros (Hp & HRl & HRr).
  rewrite lookup_delete_ne by done. auto using Rep_delete_ne.
Qed.

Lemma Rep_plug_in h top c t :
  Rep h top (plug c t) ↔ Rep h (cpar_in top c) t ∧ RepC_in h top c (rootp t).
Proof.
  revert t. induction c as [|f c IH]; intros t; simpl; [tauto|].
  rewrite IH. destruct f; simpl; tauto.
Qed.

Lemma Rep_plug h c t :
  Rep h None (plug c t) ↔ Rep h (cpar c) t ∧ RepC h c (rootp t).
Proof.
  revert t. induction c as [|f c IH]; intros t; simpl; [tauto|].
  rewrite IH. destruct f; simpl; tauto.
Qed.

Lemma ptrs_plug c t : ptrs (plug c t) ≡ₚ ptrs t ++ cptrs c.
Proof.
  revert t. induction c as [|f c IH]; intros t; simpl.
  - by rewrite app_nil_r.
  - rewrite IH. destruct f; simpl; solve_Permutation.
Qed.

Lemma rootp_plug_cons f c t : rootp (plug (f :: c) t) = rootp (plug c (fill1 f E)).
Proof.
  simpl. revert f t. induction c as [|g c IH]; intros f t; simpl.
  - by destruct f.
  - rewrite (IH g (fill1 f t)), (IH g (fill1 f E)). done.
Qed.

Lemma ptrs_skew t : ptrs (skew_t t) ≡ₚ ptrs t.
Proof.
  destruct t as [|[|a pl kl ll b] p kv lv r]; simpl; try done.
  destruct (lv =? ll); simpl; [|done]. solve_Permutation.
Qed.

Lemma ptrs_split t : ptrs (split_t t) ≡ₚ ptrs t.
Proof.
  destruct t as [|a p kv lv [|b pr kr lr [|cc prr krr lrr d]]]; simpl; try done.
  destruct (lv =? lrr); simpl; [|done]. solve_Permutation.
Qed.

Lemma NoDup_plug_congr c t t' :
  ptrs t' ≡ₚ ptrs t → NoDup (ptrs (plug c t)) → NoDup (ptrs (plug c t')).
Proof. rewrite !ptrs_plug. by intros ->. Qed.

Lemma rootp_elem t q : rootp t = Some q → q ∈ ptrs t.
Proof. destruct t; simpl; [done|]. intros [= <-]. set_solver. Qed.

Lemma rootp_ne t q : q ∉ ptrs t → rootp t ≠ Some q.
Proof. intros Hq Hr. by apply Hq, rootp_elem. Qed.

Lemma rootp_plug_elem c t q :
  c ≠ [] → rootp (plug c t) = Some q → q ∈ cptrs c.
Proof.
  revert t. induction c as [|f c IH]; intros t Hc; [done|]. simpl.
  destruct c as [|g c].
  - simpl. destruct f; simpl; intros [= <-]; set_solver.
  - intros Hr. apply IH in Hr; [|done]. set_solver.
Qed.

Lemma rootp_plug_congr c t t' :
  rootp t = rootp t' → rootp (plug c t) = rootp (plug c t').
Proof.
  destruct c as [|f c]; [done|]. intros _.
  by rewrite (rootp_plug_cons f c t), (rootp_plug_cons f c t').
Qed.

Lemma rootp_plug_ne c t q :
  c ≠ [] → q ∉ cptrs c → rootp (plug c t) ≠ Some q.
Proof. intros Hc Hq Hr. by apply Hq, (rootp_plug_elem c t). Qed.

Lemma Rep_lookup h par t q :
  Rep h par t → q ∈ ptrs t → is_Some (h !! q).
Proof.
  revert par. induction t as [|l IHl p kv lv r IHr]; intros par; simpl; [set_solver|].
  intros (Hp & Hl & Hr). rewrite elem_of_cons, elem_of_app.
  intros [->|[Hq|Hq]]; eauto.
Qed.

(** ** Running the monad *)

Lemma bind_ret {A B} (a : A) (k : A → M B) s : bind (ret a) k s = k a s.
Proof. done. Qed.

Lemma bind_bind {A B C} (m : M A) (f : A → M B) (g : B → M C) s :
  bind (bind m f) g s = bind m (λ x, bind (f x) g) s.
Proof. unfold bind. destruct (m s) as [[a s']|]; done. Qed.

Lemma bind_load {B} p n (k : _ → M B) s :
  heap s !! p = Some n → bind (load p) k s = k n s.
Proof. intros H. unfold bind, load. by rewrite H. Qed.

Lemma bind_store {B} p n (k : _ → M B) s :
  bind (store p n) k s = k tt (mkState (<[p := n]> (heap s)) (self s)).
Proof. done. Qed.

Lemma bind_run {A B} (m : M A) (k : A → M B) s a s' :
  m s = Some (a, s') → bind m k s = k a s'.
Proof. intros H. unfold bind. by rewrite H. Qed.

Lemma bind_get_left {B} p n (k : _ → M B) s :
  heap s !! p = Some n → bind (get_left p) k s = k (left n) s.
Proof. intros H. unfold get_left. rewrite bind_bind. by erewrite bind_load. Qed.

Lemma bind_get_right {B} p n (k : _ → M B) s :
  heap s !! p = Some n → bind (get_right p) k s = k (right n) s.
Proof. intros H. unfold get_right. rewrite bind_bind. by erewrite bind_load. Qed.

Lemma bind_get_parent {B} p n (k : _ → M B) s :
  heap s !! p = Some n → bind (get_parent p) k s = k (parent n) s.
Proof. intros H. unfold get_parent. rewrite bind_bind. by erewrite bind_load. Qed.

Lemma bind_get_level {B} p n (k : _ → M B) s :
  heap s !! p = Some n → bind (get_level p) k s = k (level n) s.
Proof. intros H. unfold get_level. rewrite bind_bind. by erewrite bind_load. Qed.

Lemma bind_get_value {B} p n (k : _ → M B) s :
  heap s !! p = Some n → bind (get_value p) k s = k (value n) s.
Proof. intros H. unfold get_value. rewrite bind_bind. by erewrite bind_load. Qed.

Lemma Repr_cell s c l p kv lv r :
  Repr s (plug c (N l p kv lv r)) →
  heap s !! p = Some (mkNode kv (rootp l) (rootp r) (cpar c) lv).
Proof. intros (_ & HR & _). apply Rep_plug in HR. simpl in HR. tauto. Qed.

Lemma bind_reading {A B} (f : gmap ptr (@Node Key T) → option A) a
    (k : _ → M B) s :
  f (heap s) = Some a → bind (reading f) k s = k a s.
Proof. intros H. unfold bind, reading. by rewrite H. Qed.

Lemma bind_release {B} p n (k : _ → M B) s :
  heap s !! p = Some n →
  bind (release p) k s = k tt (mkState (delete p (heap s)) (self s)).
Proof. intros H. unfold bind, release. by rewrite H. Qed.

Lemma bind_new_Node {B} n (k : _ → M B) s :
  bind (new_Node n) k s =
    k (alloc (heap s)) (mkState (<[alloc (heap s) := n]> (heap s)) (self s)).
Proof. done. Qed.

Lemma bind_get_self {B} (k : _ → M B) s : bind get_self k s = k (self s) s.
Proof. done. Qed.

Lemma bind_put_self {B} m (k : _ → M B) s :
  bind (put_self m) k s = k tt (mkState (heap s) m).
Proof. done. Qed.

End HeapLemmas.

Ltac mstep :=
  cbn [heap self root_ b_iter_ e_iter_ size_ value left right parent level
       fst snd negb];
  lazymatch goal with
  | |- bind (bind _ _) _ _ = _ => rewrite bind_bind
  | |- bind (ret _) _ _ = _ => rewrite bind_ret
  | |- bind (load _) _ _ = _ => erewrite bind_load by hlookup
  | |- bind (store _ _) _ _ = _ => rewrite bind_store
  | |- bind get_self _ _ = _ => rewrite bind_get_self
  | |- bind (put_self _) _ _ = _ => rewrite bind_put_self
  | |- bind (new_Node _) _ _ = _ => rewrite bind_new_Node
  | |- bind (release _) _ _ = _ => erewrite bind_release by hlookup
  | |- ret _ _ = _ => reflexivity
  | |- put_self _ _ = _ => reflexivity
  | |- store _ _ _ = _ => reflexivity
  end.

Ltac munfold :=
  unfold get_left, get_right, get_parent, get_level, get_value,
    set_left, set_right, set_parent, set_level, set_value,
    get_root, get_b_iter, get_size, set_root, set_b_iter, set_size.

Ltac decide_ptr :=
  try unfold ptr_eqb;
  first [ rewrite bool_decide_eq_true_2 by congruence
        | rewrite bool_decide_eq_false_2 by (assumption || congruence) ].

Ltac rep_solve_with side :=
  repeat match goal with
  | |- _ ∧ _ => split
  | |- True => exact I
  | |- Rep _ _ E => exact I
  | |- RepC _ [] _ => exact I
  | |- Rep ?h _ _ => is_var h; assumption
  | |- RepC ?h _ _ => is_var h; assumption
  | |- Rep _ _ (plug _ _) =>
      apply Rep_plug_in; cbn [Rep rootp cpar_in RepC_in fptr fsib fcell]
  | |- Rep (<[_:=_]> _) _ (N _ _ _ _ _) => cbn [Rep rootp]
  | |- Rep (<[_:=_]> _) _ _ => apply Rep_insert_ne; [ side | ]
  | |- Rep (delete _ _) _ (N _ _ _ _ _) => cbn [Rep rootp]
  | |- Rep (delete _ _) _ _ => apply Rep_delete_ne; [ side | ]
  | |- RepC (delete _ _) (_ :: _) _ => cbn [RepC fptr fsib fcell cpar rootp]
  | |- RepC (delete _ _) _ _ => apply RepC_delete_ne; [ side | ]
  | |- RepC_in _ _ [] _ => exact I
  | |- RepC_in ?h _ _ _ => is_var h; assumption
  | |- RepC_in (<[_:=_]> _) _ (_ :: _) _ => cbn [RepC_in fptr fsib fcell cpar_in rootp]
  | |- RepC_in (<[_:=_]> _) _ _ _ => apply RepC_in_insert_ne; [ side | ]
  | |- RepC_in (delete _ _) _ (_ :: _) _ => cbn [RepC_in fptr fsib fcell cpar_in rootp]
  | |- RepC_in (delete _ _) _ _ _ => apply RepC_in_delete_ne; [ side | ]
  | |- RepC (<[_:=_]> _) (_ :: _) _ => cbn [RepC fptr fsib fcell cpar rootp]
  | |- RepC (<[_:=_]> _) _ _ => apply RepC_insert_ne; [ side | ]
  | |- _ !! _ = Some _ => solve [ hlookup ]
  end.

Ltac rep_solve := rep_solve_with ltac:(solve [ assumption | set_solver ]).
Ltac rep_frame := rep_solve_with ltac:(assumption).

(** * The rotations on the store are the rotations on the tree *)

Section Rotations.

Context {Key T : Type} `{!MapParams Key T}.

Implicit Types (h : gmap ptr (@Node Key T)) (s : @State Key T).
Implicit Types (t l r : tree Key T) (c : list (frame Key T)).

Lemma skew_Repr c t p s :
  NoDup (ptrs (plug c t)) → Rep (heap s) None (plug c t) →
  root_ (self s) = rootp (plug c t) → rootp t = Some p →
  ∃ p' s', skew p s = Some (p', s') ∧ rootp (skew_t t) = Some p'
    ∧ Rep (heap s') None (plug c (skew_t t))
    ∧ root_ (self s') = rootp (plug c (skew_t t))
    ∧ same_fields (self s) (self s')
    ∧ (if skews t then p' ≠ p else p' = p ∧ s' = s).
Proof.
  intros Hnd HR Hroot Hp. destruct s as [h m]. simpl in *.
  rewrite ptrs_plug in Hnd. apply Rep_plug in HR. destruct HR as [HRt HRc].
  destruct t as [|l p0 kv lv r]; [done|]. simpl in Hp. injection Hp as ->.
  destruct l as [|a pl kl ll b].
  { simpl in *. destruct HRt as (Hcell & _ & Hr).
    eexists _, _. split. { unfold skew. munfold. repeat mstep. }
    repeat split; try done. apply Rep_plug. simpl. done. }
  simpl in HRt. destruct HRt as (Hcp & (Hcl & HRa & HRb) & HRr).
  simpl. destruct (Z.eqb_spec lv ll) as [->|Hne].
  2:{ eexists _, _. split.
      { unfold skew. munfold. repeat mstep.
        rewrite (proj2 (Z.eqb_neq _ _) Hne). simpl. reflexivity. }
      repeat split; try done. apply Rep_plug. simpl. done. }
  assert (c ≠ [] → root_ m ≠ Some p) as Hrne.
  { intros Hc. rewrite Hroot. apply rootp_plug_ne; [done|].
    nodup_norm Hnd. nodup_split. done. }
  destruct b as [|bl pb kb lb br]; destruct c as [|[fp fkv flv fr|fl fp fkv flv] c'];
    try specialize (Hrne ltac:(done)); simpl in *;
    nodup_norm Hnd; nodup_split; destruct_and?.
  all: try (assert (rootp fl ≠ Some p) by (apply rootp_ne; assumption)).
  all: eexists _, _; split;
    [ unfold skew; munfold; repeat mstep; rewrite Z.eqb_refl; simpl;
      repeat first [ mstep | decide_ptr ]
    | ].
  all: cbn [heap self root_ b_iter_ e_iter_ size_ skew_t].
  all: rewrite ?Z.eqb_refl.
  all: try rewrite Rep_plug; cbn [plug fill1 cpar rootp].
  all: unfold same_fields; rep_solve; try done.
  all: try (rewrite Hroot; by apply rootp_plug_congr).
Qed.

Lemma split_Repr c t p s :
  NoDup (ptrs (plug c t)) → Rep (heap s) None (plug c t) →
  root_ (self s) = rootp (plug c t) → rootp t = Some p →
  ∃ p' s', split p s = Some (p', s') ∧ rootp (split_t t) = Some p'
    ∧ Rep (heap s') None (plug c (split_t t))
    ∧ root_ (self s') = rootp (plug c (split_t t))
    ∧ same_fields (self s) (self s')
    ∧ (if splits t then p' ≠ p else p' = p ∧ s' = s).
Proof.
  intros Hnd HR Hroot Hp. destruct s as [h m]. simpl in *.
  rewrite ptrs_plug in Hnd. apply Rep_plug in HR. destruct HR as [HRt HRc].
  destruct t as [|a p0 kv lv r]; [done|]. simpl in Hp. injection Hp as ->.
  destruct r as [|b pr kr lr rr].
  { simpl in *. destruct HRt as (Hcell & Ha & _).
    eexists _, _. split. { unfold split. munfold. repeat mstep. }
    repeat split; try done. apply Rep_plug. simpl. done. }
  destruct rr as [|cc prr krr lrr d].
  { simpl in *. destruct HRt as (Hcell & Ha & Hcr & Hb & _).
    eexists _, _. split. { unfold split. munfold. repeat mstep. }
    repeat split; try done. apply Rep_plug. simpl. done. }
  simpl in HRt. destruct HRt as (Hcp & HRa & Hcr & HRb & Hcrr & HRcc & HRd).
  simpl. destruct (Z.eqb_spec lv lrr) as [->|Hne].
  2:{ eexists _, _. split.
      { unfold split. munfold. repeat mstep.
        rewrite (proj2 (Z.eqb_neq _ _) Hne). simpl. reflexivity. }
      repeat split; try done. apply Rep_plug. simpl. done. }
  assert (c ≠ [] → root_ m ≠ Some p) as Hrne.
  { intros Hc. rewrite Hroot. apply rootp_plug_ne; [done|].
    nodup_norm Hnd. nodup_split. done. }
  destruct b as [|bl pb kb lb br]; destruct c as [|[fp fkv flv fr|fl fp fkv flv] c'];
    try specialize (Hrne ltac:(done)); simpl in *;
    nodup_norm Hnd; nodup_split; destruct_and?.
  all: try (assert (rootp fl ≠ Some p) by (apply rootp_ne; assumption)).
  all: eexists _, _; split;
    [ unfold split; munfold; repeat mstep; rewrite Z.eqb_refl; simpl;
      repeat first [ mstep | decide_ptr ]
    | ].
  all: cbn [heap self root_ b_iter_ e_iter_ size_ split_t].
  all: rewrite ?Z.eqb_refl.
  all: try rewrite Rep_plug; cbn [plug fill1 cpar rootp].
  all: unfold same_fields; rep_solve; try done.
  all: try (rewrite Hroot; by apply rootp_plug_congr).
Qed.

(** The same with [Repr], for the use in the walks. *)
Lemma skew_Repr_plug c t p s :
  Repr s (plug c t) → rootp t = Some p →
  ∃ p' s', skew p s = Some (p', s') ∧ rootp (skew_t t) = Some p'
    ∧ Repr s' (plug c (skew_t t)) ∧ same_fields (self s) (self s').
Proof.
  intros (Hnd & HR & Hroot) Hp.
  destruct (skew_Repr c t p s Hnd HR Hroot Hp) as (p'&s'&?&?&?&?&?&_).
  exists p', s'. split_and!; try done. split_and!; try done.
  revert Hnd. apply NoDup_plug_congr, ptrs_skew.
Qed.

Lemma split_Repr_plug c t p s :
  Repr s (plug c t) → rootp t = Some p →
  ∃ p' s', split p s = Some (p', s') ∧ rootp (split_t t) = Some p'
    ∧ Repr s' (plug c (split_t t)) ∧ same_fields (self s) (self s').
Proof.
  intros (Hnd & HR & Hroot) Hp.
  destruct (split_Repr c t p s Hnd HR Hroot Hp) as (p'&s'&?&?&?&?&?&_).
  exists p', s'. split_and!; try done. split_and!; try done.
  revert Hnd. apply NoDup_plug_congr, ptrs_split.
Qed.

End Rotations.

(** * Search and traversal on the store *)

Section Find.

Context {Key T : Type} `{!MapParams Key T}.

Implicit Types (h : gmap ptr (@Node Key T)) (s : @State Key T).
Implicit Types (t l r : tree Key T) (c : list (frame Key T)).

(** [findNode] and [findParent] follow [descend]. *)
Lemma findNode_loop_Rep fuel h k par t c :
  Rep h par t → (height t < fuel)%nat →
  findNode_loop fuel h k (rootp t) = Some (rootp (descend k c t).2).
Proof.
  revert par t c. induction fuel as [|fuel IH]; intros par t c HR Hf; [lia|].
  destruct t as [|l p kv lv r]; simpl; [done|].
  simpl in HR. destruct HR as (Hp & Hl & Hr). rewrite Hp. simpl.
  destruct (_ && _); [done|]. simpl in Hf.
  destruct (comparator_ k (fst kv)); eapply IH; eauto; lia.
Qed.

Lemma findParent_loop_Rep fuel h k t c :
  Rep h (cpar c) t → (height t < fuel)%nat →
  findParent_loop fuel h k (cpar c) (rootp t) =
    Some (match (descend k c t).2 with
          | E => cpar (descend k c t).1
          | N _ p _ _ _ => Some p
          end, rootp (descend k c t).2).
Proof.
  revert t c. induction fuel as [|fuel IH]; intros t c HR Hf; [lia|].
  destruct t as [|l p kv lv r]; simpl; [done|].
  simpl in HR. destruct HR as (Hp & Hl & Hr). rewrite Hp. simpl.
  destruct (_ && _); [done|]. simpl in Hf.
  destruct (comparator_ k (fst kv)).
  - apply (IH l (FL p kv lv r :: c)); [done|lia].
  - apply (IH r (FR l p kv lv :: c)); [done|lia].
Qed.

(** [beginNode] finds the first node in order. *)
Lemma leftmost_Rep fuel h par t p :
  Rep h par t → rootp t = Some p → (height t ≤ fuel)%nat →
  leftmost fuel h p = minp t.
Proof.
  revert par t p. induction fuel as [|fuel IH]; intros par t p HR Hp Hf.
  { destruct t; simpl in *; [done|lia]. }
  destruct t as [|l p0 kv lv r]; [done|]. simpl in Hp. injection Hp as ->.
  simpl in HR. destruct HR as (Hp & Hl & Hr). simpl. rewrite Hp. simpl.
  destruct l as [|ll pl kl lvl0 lr]; [done|]. simpl in Hf. cbn [rootp].
  rewrite (IH (Some p) (N ll pl kl lvl0 lr) pl); [|done|done|simpl; lia].
  unfold minp. simpl. by destruct (inorder ll).
Qed.

Lemma minp_None t : minp t = None ↔ t = E.
Proof.
  unfold minp. destruct t as [|l p kv lv r]; simpl; [done|].
  by destruct (inorder l).
Qed.

(** [next]: climbing from a node that has no right child. *)
Lemma climb_right_Rep fuel h c p :
  RepC h c (Some p) → NoDup (p :: cptrs c) → (length c ≤ fuel)%nat →
  climb_right fuel h p (cpar c) = Some (fst <$> head (cafter c)).
Proof.
  revert c p. induction fuel as [|fuel IH]; intros c p HR Hnd Hf.
  { destruct c; simpl in *; [done|lia]. }
  destruct c as [|f c]; [done|]. simpl in HR, Hf. destruct HR as (Hc & Hs & HR).
  cbn [cpar climb_right]. rewrite Hc. simpl.
  destruct f as [fp fkv flv fr|fl fp fkv flv]; simpl in *.
  - unfold ptr_eqb. rewrite bool_decide_eq_false_2; [done|].
    apply rootp_ne. nodup_norm Hnd. nodup_split. done.
  - unfold ptr_eqb. rewrite bool_decide_eq_true_2 by done.
    apply IH; [done| |lia]. nodup_norm Hnd. nodup_split.
    apply NoDup_cons. split; [set_solver|done].
Qed.

Lemma next_Rep fuel h c l p kv lv r :
  Rep h None (plug c (N l p kv lv r)) → NoDup (ptrs (plug c (N l p kv lv r))) →
  (height r ≤ fuel)%nat → (length c ≤ fuel)%nat →
  next fuel h (Some p) = Some (fst <$> head (inorder r ++ cafter c)).
Proof.
  intros HR Hnd Hf1 Hf2. apply Rep_plug in HR. destruct HR as [(Hp & Hl & Hr) HRc].
  rewrite ptrs_plug in Hnd. simpl. rewrite Hp. simpl.
  destruct r as [|rl pr kr lr rr].
  - simpl. apply climb_right_Rep; [done| |done].
    nodup_norm Hnd. nodup_split. apply NoDup_cons. split; [done|done].
  - simpl. rewrite (leftmost_Rep fuel h (Some p) (N rl pr kr lr rr) pr); try done.
    unfold minp. simpl. by destruct (inorder rl).
Qed.

End Find.

(** * [insert] on the store is [insert_t] on the tree *)

Section InsertRefinement.

Context {Key T : Type} `{!MapParams Key T}.

Implicit Types (h : gmap ptr (@Node Key T)) (s : @State Key T).
Implicit Types (t l r R : tree Key T) (c : list (frame Key T)).

Lemma Rep_parent_of_root h c t p :
  Rep h None (plug c t) → rootp t = Some p →
  ∃ n, h !! p = Some n ∧ parent n = cpar c.
Proof.
  intros HR Hp. apply Rep_plug in HR. destruct HR as [HR _].
  destruct t; simpl in *; [done|]. injection Hp as ->.
  destruct HR as (Hc & _). eauto.
Qed.

Lemma skews_shape t :
  skews t = true →
  ∃ a pl kl b p kv lv r,
    t = N (N a pl kl lv b) p kv lv r
    ∧ skew_t t = N a pl kl lv (N b p kv lv r).
Proof.
  destruct t as [|[|a pl kl ll b] p kv lv r]; simpl; try done.
  intros He. rewrite He. apply Z.eqb_eq in He. subst ll. by eexists _, _, _, _, _, _, _, _.
Qed.

Lemma splits_shape t :
  splits t = true →
  ∃ a p kv lv b pr kr lr rr,
    t = N a p kv lv (N b pr kr lr rr)
    ∧ split_t t = N (N a p kv lv b) pr kr (wrap (lr + 1)) rr.
Proof.
  destruct t as [|a p kv lv [|b pr kr lr [|cc prr krr lrr d]]]; simpl; try done.
  intros He. rewrite He. by eexists _, _, _, _, _, _, _, _, _.
Qed.

Lemma same_fields_refl m : same_fields m m.
Proof. done. Qed.

Lemma same_fields_trans m1 m2 m3 :
  same_fields m1 m2 → same_fields m2 m3 → same_fields m1 m3.
Proof. unfold same_fields. intros (?&?&?) (?&?&?). repeat split; congruence. Qed.

(** The walk of [insert] on the store follows [ins_walk_t]. *)
Lemma insert_walk_Repr limit fuel : ∀ c t p k s R,
  NoDup (ptrs (plug c t)) → Rep (heap s) None (plug c t) →
  root_ (self s) = rootp (plug c t) → rootp t = Some p →
  ins_walk_t limit fuel c t k = Some R →
  ∃ s', insert_walk limit fuel (Some p) k s = Some (tt, s')
    ∧ NoDup (ptrs R) ∧ Rep (heap s') None R ∧ root_ (self s') = rootp R
    ∧ same_fields (self s) (self s').
Proof.
  induction fuel as [|fuel IH]; intros c t p k s R Hnd HR Hroot Hp; simpl.
  { destruct (over limit k); [|done]. intros [= <-]. by exists s. }
  destruct (over limit k); [intros [= <-]; by exists s|].
  destruct (skew_Repr c t p s Hnd HR Hroot Hp) as (p1 & s1 & Hrun1 & Hp1 & HR1 & Hroot1 & Hsf1 & Hch1).
  unfold bind at 1. rewrite Hrun1.
  destruct (skews t) eqn:Hsk.
  - (* skew moved the node down: its parent is the new subtree root *)
    intros Hw. unfold ptr_eqb. rewrite bool_decide_eq_false_2 by congruence.
    simpl. rewrite bind_ret.
    destruct (skews_shape t Hsk) as (a&pl&kl&b&p'&kv&lv&r&->&Hst).
    simpl in Hp. injection Hp as ->. rewrite Hst in *. simpl in Hp1. injection Hp1 as <-.
    assert (heap s1 !! p = Some (mkNode kv (rootp b) (rootp r) (Some pl) lv)) as Hcell.
    { apply Rep_plug in HR1. simpl in HR1. tauto. }
    unfold get_parent. rewrite bind_bind. erewrite bind_load by done. rewrite bind_ret.
    simpl.
    destruct (IH c (N a pl kl lv (N b p kv lv r)) pl 0 s1 R) as (s'&?&?&?&?&?); try done.
    { revert Hnd. apply NoDup_plug_congr. simpl. solve_Permutation. }
    exists s'. split_and!; try done. by apply (same_fields_trans _ (self s1)).
  - destruct Hch1 as [-> ->].
    unfold ptr_eqb at 1. rewrite bool_decide_eq_true_2 by done. simpl.
    destruct (split_Repr c t p s Hnd HR Hroot Hp) as (p2 & s2 & Hrun2 & Hp2 & HR2 & Hroot2 & Hsf2 & Hch2).
    rewrite bind_bind. unfold bind at 1. rewrite Hrun2. rewrite bind_ret.
    destruct (splits t) eqn:Hsp.
    + intros Hw. unfold ptr_eqb. rewrite bool_decide_eq_false_2 by congruence.
      simpl.
      destruct (splits_shape t Hsp) as (a&p'&kv&lv&b&pr&kr&lr&rr&->&Hst).
      simpl in Hp. injection Hp as ->. rewrite Hst in *. simpl in Hp2. injection Hp2 as <-.
      assert (heap s2 !! p = Some (mkNode kv (rootp a) (rootp b) (Some pr) lv)) as Hcell.
      { apply Rep_plug in HR2. simpl in HR2. tauto. }
      unfold get_parent. rewrite bind_bind. erewrite bind_load by done. rewrite bind_ret.
      simpl.
      destruct (IH c (N (N a p kv lv b) pr kr (wrap (lr + 1)) rr) pr 0 s2 R) as (s'&?&?&?&?&?); try done.
      { revert Hnd. apply NoDup_plug_congr. simpl. solve_Permutation. }
      exists s'. split_and!; try done. by apply (same_fields_trans _ (self s2)).
    + destruct Hch2 as [-> ->].
      unfold ptr_eqb. rewrite bool_decide_eq_true_2 by done. simpl.
      destruct (Rep_parent_of_root _ _ _ _ HR Hp) as (n & Hn & Hpar).
      unfold get_parent. rewrite bind_bind. erewrite bind_load by done. rewrite bind_ret.
      rewrite Hpar.
      destruct c as [|f c]; simpl.
      * intros [= <-]. exists s. split_and!; try done. by destruct fuel.
      * intros Hw.
        destruct (IH c (fill1 f t) (fptr f) (k + 1) s R) as (s'&?&?&?&?&?); try done.
        { by destruct f. }
        by exists s'.
Qed.

Lemma Rep_value h par t p kv :
  Rep h par t → (p, kv) ∈ inorder t → ∃ n, h !! p = Some n ∧ value n = kv.
Proof.
  revert par. induction t as [|l IHl p0 kv0 lv r IHr]; intros par; simpl; [set_solver|].
  intros (Hp & Hl & Hr). rewrite elem_of_app, elem_of_cons.
  intros [Hx|[[= -> ->]|Hx]]; eauto.
Qed.

Lemma findParent_Repr fuel k s t :
  Repr s t → size_ (self s) = Z.of_nat (nodes t) → (height t < fuel)%nat →
  findParent fuel k s =
    Some (match (descend k [] t).2 with
          | E => cpar (descend k [] t).1
          | N _ p _ _ _ => Some p
          end, s).
Proof.
  intros (Hnd & HR & Hroot) Hsz Hf. unfold findParent, get_root, get_size.
  rewrite bind_bind, bind_get_self, bind_ret. rewrite Hroot.
  unfold bind at 1. unfold reading.
  rewrite (findParent_loop_Rep fuel (heap s) k t []) by done.
  rewrite bind_bind, bind_get_self, bind_ret.
  destruct (descend k [] t) as [c t'] eqn:Hd. simpl.
  destruct t' as [|l p kv lv r]; simpl; [|done].
  destruct (size_ (self s) =? 0) eqn:Hz; [|done].
  apply Z.eqb_eq in Hz. destruct t; simpl in *; [|lia]. by injection Hd as <-.
Qed.

Lemma insert_walk_None limit fuel k s :
  insert_walk limit fuel None k s = Some (tt, s).
Proof. by destruct fuel. Qed.

Lemma insert_up_Repr limit fuel c t k s R :
  NoDup (ptrs (plug c t)) → Rep (heap s) None (plug c t) →
  root_ (self s) = rootp (plug c t) →
  ins_up limit fuel c t k = Some R →
  ∃ s', insert_walk limit fuel (cpar c) k s = Some (tt, s')
    ∧ NoDup (ptrs R) ∧ Rep (heap s') None R ∧ root_ (self s') = rootp R
    ∧ same_fields (self s) (self s').
Proof.
  intros Hnd HR Hroot. destruct c as [|f c]; simpl.
  - intros [= <-]. exists s. rewrite insert_walk_None. by split_and!.
  - intros Hw. apply (insert_walk_Repr limit fuel c (fill1 f t)); try done.
    by destruct f.
Qed.

Context `{!MapParamsOk}.

(** Inserting a key that is present changes nothing. *)
Lemma insert_with_found limit fuel v s t c l p kv lv r :
  Repr s t → size_ (self s) = Z.of_nat (nodes t) → (height t < fuel)%nat →
  descend (fst v) [] t = (c, N l p kv lv r) →
  insert_with limit fuel v s = Some ((Some p, false), s).
Proof.
  intros Hrep Hsz Hf Hd. unfold insert_with.
  unfold bind at 1. rewrite (findParent_Repr fuel (fst v) s t) by done.
  rewrite Hd. simpl.
  destruct Hrep as (Hnd & HR & Hroot).
  assert ((p, kv) ∈ inorder t) as Hin.
  { pose proof (descend_plug _ _ _ _ _ Hd) as Hpl. simpl in Hpl.
    rewrite <- Hpl, inorder_plug. simpl. set_solver. }
  destruct (Rep_value _ _ _ _ _ HR Hin) as (n & Hn & Hv).
  unfold get_value. rewrite !bind_bind. erewrite bind_load by done.
  rewrite !bind_ret. rewrite Hv, key_eq_equiv.
  by rewrite (descend_found _ _ _ _ _ _ _ _ _ Hd).
Qed.

Lemma alloc_not_in h par t : Rep h par t → alloc h ∉ ptrs t.
Proof.
  intros HR Hin. destruct (Rep_lookup _ _ _ _ HR Hin) as [n Hn].
  by rewrite alloc_fresh in Hn.
Qed.

(** Inserting a new key attaches a leaf and walks up. *)
Lemma insert_with_new limit fuel v s t c R :
  Repr s t → bst t → b_iter_ (self s) = minp t →
  size_ (self s) = Z.of_nat (nodes t) → (height t < fuel)%nat →
  descend (fst v) [] t = (c, E) →
  attach_t limit fuel c (N E (alloc (heap s)) v 1 E) = Some R →
  ∃ s', insert_with limit fuel v s = Some ((Some (alloc (heap s)), true), s')
    ∧ NoDup (ptrs R) ∧ Rep (heap s') None R ∧ root_ (self s') = rootp R
    ∧ b_iter_ (self s') = minp (plug c (N E (alloc (heap s)) v 1 E))
    ∧ size_ (self s') = wrap (size_ (self s) + 1)
    ∧ e_iter_ (self s') = e_iter_ (self s).
Proof.
  intros Hrep Hbst Hb Hsz Hf Hd Hat. unfold insert_with.
  unfold bind at 1. rewrite (findParent_Repr fuel (fst v) s t) by done.
  rewrite Hd. cbn [fst snd].
  pose proof (descend_plug _ _ _ _ _ Hd) as Hpl. simpl in Hpl. subst t.
  pose proof (descend_path _ _ _ _ _ Hd ltac:(constructor)) as Hpath.
  destruct Hrep as (Hnd & HR & Hroot).
  pose proof (alloc_not_in _ _ _ HR) as Hq.
  set (q := alloc (heap s)) in *.
  destruct s as [h m]. cbn [heap self] in *.
  destruct c as [|f c].
  { (* the tree was empty *)
    simpl in *. injection Hat as <-.
    eexists. split.
    { munfold. repeat mstep. }
    cbn. unfold minp. simpl. split_and!; try done.
    - apply NoDup_singleton.
    - by rewrite lookup_insert_eq. }
  (* the parent is the innermost frame *)
  pose proof HR as HR0.
  apply Rep_plug in HR. destruct HR as [_ HRc]. simpl in HRc.
  destruct HRc as (Hfc & HRs & HRc).
  assert (equivalent (fst (match f with FL _ kv _ _ => kv | FR _ _ kv _ => kv end))
            (fst v) = false) as Hne.
  { apply (path_not_equiv _ (f :: c)); [done|set_solver]. }
  assert (∃ pm kvm, head (inorder (plug (f :: c) E)) = Some (pm, kvm)) as (pm & kvm & Hm).
  { rewrite inorder_plug. destruct f; simpl.
    - destruct (cbefore c) as [|[]]; simpl; eauto.
    - destruct (cbefore c ++ inorder l ++ [(p, kv)]) as [|[]] eqn:He; simpl; eauto.
      by destruct (cbefore c), (inorder l). }
  assert ((pm, kvm) ∈ inorder (plug (f :: c) E)) as Hmin.
  { destruct (inorder (plug (f :: c) E)); simpl in *; [done|]. injection Hm as ->. set_solver. }
  destruct (Rep_value _ _ _ _ _ HR0 Hmin) as (nm & Hnm & Hvm).
  assert (q ≠ pm) as Hqm.
  { intros ->. apply Hq. rewrite ptrs_inorder. by apply (list_elem_of_fmap_2 fst _ (pm, kvm)). }
  assert (b_iter_ m = Some pm) as Hbm by (rewrite Hb; unfold minp; by rewrite Hm).
  pose proof (minp_attach (fst v) (f :: c) q v 1 pm kvm eq_refl Hpath Hbst Hm) as Hmin'.
  rewrite ptrs_plug in Hnd, Hq. simpl in Hnd, Hq.
  assert (q ≠ fptr f) as Hqf by set_solver.
  assert (NoDup (ptrs (plug (f :: c) (N E q v 1 E)))) as Hnd'.
  { rewrite ptrs_plug. simpl. apply NoDup_cons. split; [set_solver|done]. }
  assert (rootp (plug (f :: c) (N E q v 1 E)) = root_ m) as Hroot'.
  { by rewrite Hroot, !(rootp_plug_cons f c). }
  subst q.
  destruct f as [fp fkv flv fr|fl fp fkv flv]; simpl in *.
  - (* the new node is a left child *)
    pose proof (Forall_inv Hpath) as Hside. simpl in Hside.
    nodup_norm Hnd. nodup_split.
    match type of Hat with ins_walk_t _ _ _ ?t0 _ = _ =>
      edestruct (insert_walk_Repr limit fuel c t0 fp 0
        (mkState (<[fp := mkNode fkv (Some (alloc h)) (rootp fr) (cpar c) flv]>
                    (<[alloc h := mkNode v None None (Some fp) 1]> h))
                 (mkMap (root_ m) (if comparator_ (fst v) (fst kvm) then Some (alloc h) else b_iter_ m)
                        (e_iter_ m) (wrap (size_ m + 1)))) R)
        as (s' & Hrun & HndR & HRR & HrootR & Hsf) end; try done.
    { cbn [heap]. apply Rep_plug. cbn [cpar rootp Rep]. rep_solve. }
    eexists. split.
    { munfold. repeat mstep. rewrite key_eq_equiv, Hne.
      repeat mstep. rewrite Hbm. repeat mstep. rewrite Hvm.
      destruct (comparator_ (fst v) (fst kvm)); repeat mstep; rewrite Hside;
        repeat mstep; unfold bind; rewrite ?Hbm in Hrun; rewrite Hrun; reflexivity. }
    destruct Hsf as (Hsb & Hse & Hss). cbn in Hsb, Hse, Hss.
    split_and!; try done. rewrite Hsb, Hmin'. by destruct (comparator_ _ _).
  - (* the new node is a right child *)
    pose proof (Forall_inv Hpath) as Hside. simpl in Hside.
    pose proof (cmp_asym _ _ Hside) as Hside'.
    nodup_norm Hnd. nodup_split.
    edestruct (insert_up_Repr limit fuel c (N fl fp fkv flv (N E (alloc h) v 1 E)) 0
        (mkState (<[fp := mkNode fkv (rootp fl) (Some (alloc h)) (cpar c) flv]>
                    (<[alloc h := mkNode v None None (Some fp) 1]> h))
                 (mkMap (root_ m) (if comparator_ (fst v) (fst kvm) then Some (alloc h) else b_iter_ m)
                        (e_iter_ m) (wrap (size_ m + 1)))) R)
        as (s' & Hrun & HndR & HRR & HrootR & Hsf); try done.
    { cbn [heap]. apply Rep_plug. cbn [cpar rootp Rep]. rep_solve. }
    eexists. split.
    { munfold. repeat mstep. rewrite key_eq_equiv, Hne.
      repeat mstep. rewrite Hbm. repeat mstep. rewrite Hvm.
      destruct (comparator_ (fst v) (fst kvm)); repeat mstep; rewrite Hside';
        repeat mstep; unfold bind; rewrite ?Hbm in Hrun; rewrite Hrun; reflexivity. }
    destruct Hsf as (Hsb & Hse & Hss). cbn in Hsb, Hse, Hss.
    split_and!; try done. rewrite Hsb, Hmin'. by destruct (comparator_ _ _).
Qed.

End InsertRefinement.

(** * [erase] on the store is [erase_t] on the tree *)

Section EraseRefinement.

Context {Key T : Type} `{!MapParams Key T}.

Implicit Types (h : gmap ptr (@Node Key T)) (s : @State Key T).
Implicit Types (t l r R u : tree Key T) (c : list (frame Key T)).

Lemma ptrs_dec t : ptrs (dec_t t) = ptrs t.
Proof.
  destruct t as [|l p kv lv r]; simpl; [done|].
  destruct (_ || _); simpl; [|done].
  destruct r as [|rl pr kr lr rr]; simpl; [done|]. by destruct (lr =? lv).
Qed.

Lemma rootp_dec t : rootp (dec_t t) = rootp t.
Proof.
  destruct t as [|l p kv lv r]; simpl; [done|]. by destruct (_ || _).
Qed.

Lemma wrap_pred_ne x : wrap (x - 1) ≠ x.
Proof.
  unfold wrap, size_type_modulus. intros Hx.
  pose proof (Z.div_mod (x - 1) (2 ^ 64) ltac:(lia)) as Hdm. lia.
Qed.

Lemma decreaseNodeLevel_Repr c t p s :
  Repr s (plug c t) → rootp t = Some p →
  ∃ s', decreaseNodeLevel p s = Some (tt, s')
    ∧ Repr s' (plug c (dec_t t)) ∧ self s' = self s
    ∧ (lvl (dec_t t) = lvl t → s' = s).
Proof.
  intros (Hnd & HR & Hroot) Hp. destruct s as [h m]. cbn [heap self] in *.
  destruct t as [|l p0 kv lv r]; [done|]. simpl in Hp. injection Hp as ->.
  rewrite ptrs_plug in Hnd. apply Rep_plug in HR. destruct HR as [HRt HRc].
  assert (∀ h' t', rootp t' = Some p → ptrs t' = ptrs (N l p kv lv r) →
            Rep h' (cpar c) t' → RepC h' c (Some p) →
            Repr (mkState h' m) (plug c t')) as Hsame.
  { intros h' t' Hr Hp HR' HRc'. split_and!; cbn [heap self].
    - by rewrite ptrs_plug, Hp.
    - by apply Rep_plug; rewrite Hr.
    - rewrite Hroot. by apply rootp_plug_congr. }
  destruct l as [|ll pl kl lvl0 lr]; destruct r as [|rl pr kr lvr rr];
    simpl in HRt; destruct_and?; simpl in Hnd; nodup_norm Hnd; nodup_split.
  all: cbn [dec_t lvl].
  all: match goal with |- context [if ?b then _ else _] => destruct b eqn:Hcond end.
  all: try (match goal with |- context [?a =? ?b] => destruct (a =? b) eqn:Heq end).
  all: eexists; split;
    [ unfold decreaseNodeLevel; munfold; repeat mstep; cbn [lvl] in Hcond;
      rewrite ?Hcond; repeat mstep; rewrite ?Heq; repeat mstep
    | ].
  all: cbn [heap self lvl]; split_and!; try done;
    try (intros Hw; by apply wrap_pred_ne in Hw).
  all: apply Hsame; try done; cbn [Rep rootp]; rep_solve.
Qed.

Lemma rootp_N t p : rootp t = Some p → ∃ l kv lv r, t = N l p kv lv r.
Proof. destruct t; simpl; [done|]. intros [= ->]. eauto. Qed.

Lemma skew_below_Repr c t p s :
  Repr s (plug c t) → rootp t = Some p →
  ∃ s', skew_below p s = Some (tt, s')
    ∧ Repr s' (plug c (on_right (on_right skew_t) (on_right skew_t t)))
    ∧ same_fields (self s) (self s').
Proof.
  intros Hrep Hp. destruct (rootp_N _ _ Hp) as (l & kv & lv & r & ->).
  unfold skew_below. erewrite bind_get_right by (by eapply Repr_cell). cbn [right].
  destruct r as [|rl pr kr lr rr]; cbn [rootp].
  { exists s. simpl. by split_and!. }
  destruct (skew_Repr_plug (FR l p kv lv :: c) (N rl pr kr lr rr) pr s Hrep eq_refl)
    as (p3 & s3 & Hrun3 & Hp3 & Hrep3 & Hsf3).
  rewrite ?bind_bind, (bind_run _ _ _ _ _ Hrun3).
  destruct (rootp_N _ _ Hp3) as (l3 & kv3 & lv3 & rr3 & Ht3).
  cbn [on_right]. rewrite Ht3 in *. cbn [plug fill1] in Hrep3.
  erewrite bind_get_right by (by eapply Repr_cell). cbn [right rootp].
  erewrite bind_get_right by (by eapply (Repr_cell _ (FR l p kv lv :: c))). cbn [right].
  destruct rr3 as [|rrl prr krr lrr rrr]; cbn [rootp].
  { exists s3. simpl. by split_and!. }
  destruct (skew_Repr_plug (FR l3 p3 kv3 lv3 :: FR l p kv lv :: c)
              (N rrl prr krr lrr rrr) prr s3 Hrep3 eq_refl)
    as (p4 & s4 & Hrun4 & Hp4 & Hrep4 & Hsf4).
  rewrite ?bind_bind, (bind_run _ _ _ _ _ Hrun4). rewrite ?bind_ret.
  exists s4. split_and!; try done. by apply (same_fields_trans _ (self s3)).
Qed.

Lemma split_below_Repr c t p s :
  Repr s (plug c t) → rootp t = Some p →
  ∃ s', split_below p s = Some (tt, s')
    ∧ Repr s' (plug c (on_right split_t t))
    ∧ same_fields (self s) (self s').
Proof.
  intros Hrep Hp. destruct (rootp_N _ _ Hp) as (l & kv & lv & r & ->).
  unfold split_below. erewrite bind_get_right by (by eapply Repr_cell). cbn [right].
  destruct r as [|rl pr kr lr rr]; cbn [rootp].
  { exists s. simpl. by split_and!. }
  destruct (split_Repr_plug (FR l p kv lv :: c) (N rl pr kr lr rr) pr s Hrep eq_refl)
    as (p3 & s3 & Hrun3 & Hp3 & Hrep3 & Hsf3).
  rewrite ?bind_bind, (bind_run _ _ _ _ _ Hrun3). rewrite ?bind_ret.
  by exists s3.
Qed.

Lemma rootp_on_right g t : rootp (on_right g t) = rootp t.
Proof. by destruct t. Qed.

(** One round of the walk of [erase]. *)
Lemma erase_round_Repr c t p s :
  Repr s (plug c t) → rootp t = Some p →
  ∃ s', erase_round p s =
          Some ((cpar c, negb (lvl t =? lvl (dec_t t))), s')
    ∧ Repr s' (plug c (if lvl (dec_t t) =? lvl t then t else fix_t (dec_t t)))
    ∧ same_fields (self s) (self s').
Proof.
  intros Hrep Hp. destruct (rootp_N _ _ Hp) as (l & kv & lv & r & ->).
  unfold erase_round. erewrite bind_get_level by (by eapply Repr_cell). cbn [level].
  destruct (decreaseNodeLevel_Repr c _ p s Hrep Hp) as (s1 & Hrun1 & Hrep1 & Hself1 & Hsame1).
  rewrite (bind_run _ _ _ _ _ Hrun1).
  pose proof (rootp_dec (N l p kv lv r)) as Hp1.
  destruct (rootp_N _ _ Hp1) as (l1 & kv1 & lv1 & r1 & Ht1). rewrite Ht1 in *.
  erewrite bind_get_level by (by eapply Repr_cell). cbn [level lvl].
  rewrite (Z.eqb_sym lv1 lv).
  destruct (lv =? lv1) eqn:Hlv; cbn [negb].
  - apply Z.eqb_eq in Hlv. rewrite <- Hlv in Hsame1. rewrite (Hsame1 eq_refl).
    rewrite bind_ret. erewrite bind_get_parent by (by eapply Repr_cell).
    exists s. by split_and!.
  - destruct (skew_Repr_plug c _ p s1 Hrep1 eq_refl) as (p2 & s2 & Hrun2 & Hp2 & Hrep2 & Hsf2).
    rewrite !bind_bind. rewrite (bind_run _ _ _ _ _ Hrun2).
    destruct (skew_below_Repr c _ p2 s2 Hrep2 Hp2) as (s4 & Hrun4 & Hrep4 & Hsf4).
    rewrite !bind_bind. rewrite (bind_run _ _ _ _ _ Hrun4).
    assert (rootp (on_right (on_right skew_t)
              (on_right skew_t (skew_t (N l1 p kv1 lv1 r1)))) = Some p2) as Hp4
      by (by rewrite !rootp_on_right).
    destruct (split_Repr_plug c _ p2 s4 Hrep4 Hp4) as (p5 & s5 & Hrun5 & Hp5 & Hrep5 & Hsf5).
    rewrite !bind_bind. rewrite (bind_run _ _ _ _ _ Hrun5).
    destruct (split_below_Repr c _ p5 s5 Hrep5 Hp5) as (s6 & Hrun6 & Hrep6 & Hsf6).
    rewrite !bind_bind. rewrite (bind_run _ _ _ _ _ Hrun6). rewrite !bind_ret.
    fold (fix_t (N l1 p kv1 lv1 r1)) in *.
    assert (rootp (fix_t (N l1 p kv1 lv1 r1)) = Some p5) as Hp6
      by (unfold fix_t; by rewrite rootp_on_right).
    destruct (rootp_N _ _ Hp6) as (l6 & kv6 & lv6 & r6 & Ht6). rewrite Ht6 in *.
    erewrite bind_get_parent by (by eapply Repr_cell). cbn [parent].
    exists s6. split_and!; try done.
    rewrite Hself1 in Hsf2.
    eauto using same_fields_trans.
Qed.

Lemma erase_walk_None fuel b s : erase_walk fuel None b s = Some (tt, s).
Proof. by destruct fuel. Qed.

(** The walk of [erase] on the store follows [erase_up]. *)
Lemma erase_walk_Repr fuel : ∀ c u s,
  Repr s (plug c u) → (length c ≤ fuel)%nat →
  ∃ s', erase_walk fuel (cpar c) true s = Some (tt, s')
    ∧ Repr s' (erase_up c u) ∧ same_fields (self s) (self s').
Proof.
  induction fuel as [|fuel IH]; intros c u s Hrep Hf.
  { destruct c; simpl in *; [|lia]. exists s. by split_and!. }
  destruct c as [|f c].
  { exists s. by split_and!. }
  simpl in Hf. cbn [cpar erase_walk negb erase_up].
  destruct (erase_round_Repr c (fill1 f u) (fptr f) s Hrep) as (s1 & Hrun1 & Hrep1 & Hsf1).
  { by destruct f. }
  rewrite (bind_run _ _ _ _ _ Hrun1). rewrite (Z.eqb_sym (lvl (fill1 f u))).
  destruct (lvl (dec_t (fill1 f u)) =? lvl (fill1 f u)); cbn [negb].
  - exists s1. split_and!; try done. by destruct (cpar c), fuel.
  - destruct (IH c _ s1 Hrep1) as (s2 & Hrun2 & Hrep2 & Hsf2); [lia|].
    exists s2. split_and!; try done. by apply (same_fields_trans _ (self s1)).
Qed.

Lemma climb_right_None fuel h p : climb_right fuel h p None = Some None.
Proof. by destruct fuel. Qed.

Lemma climb_right_stop fuel h p fp n :
  h !! fp = Some n → right n ≠ Some p → (0 < fuel)%nat →
  climb_right fuel h p (Some fp) = Some (Some fp).
Proof.
  intros Hn Hr Hf. destruct fuel; [lia|]. simpl. rewrite Hn. simpl.
  unfold ptr_eqb. by rewrite bool_decide_eq_false_2.
Qed.

(** Erasing a node with at most one child. *)
Lemma trivialNodeErase_Repr fuel c l p kv lv r ch s :
  Repr s (plug c (N l p kv lv r)) →
  (l = E ∧ ch = r) ∨ (r = E ∧ ch = l) →
  b_iter_ (self s) = minp (plug c (N l p kv lv r)) →
  (height (plug c (N l p kv lv r)) ≤ fuel)%nat →
  ∃ s', trivialNodeErase fuel p (rootp ch) s = Some (cpar c, s')
    ∧ Repr s' (plug c ch)
    ∧ b_iter_ (self s') = minp (plug c ch)
    ∧ size_ (self s') = wrap (size_ (self s) - 1)
    ∧ e_iter_ (self s') = e_iter_ (self s).
Proof.
  intros (Hnd & HR & Hroot) Hcase Hb Hf. destruct s as [h m]. cbn [heap self] in *.
  assert (if decide (b_iter_ m = Some p)
          then cbefore c = [] ∧ l = E
          else minp (plug c ch) = b_iter_ m) as Hmin.
  { destruct (decide _) as [Hbp|Hbp].
    - apply (minp_focus c l p kv lv r); congruence.
    - rewrite Hb in Hbp. rewrite Hb. unfold minp. f_equal.
      destruct (minp_not_focus c l p kv lv r (cafter c) Hbp) as [<- Hne].
      rewrite inorder_plug.
      destruct Hcase as [[-> ->]|[-> ->]]; simpl in *; rewrite ?app_nil_r in *.
      + destruct (cbefore c); simpl; done.
      + done. }
  pose proof (length_plug_le c (N l p kv lv r)) as Hlen. simpl in Hlen.
  assert (c ≠ [] → root_ m ≠ Some p) as Hrne.
  { intros Hc. rewrite Hroot. apply rootp_plug_ne; [done|].
    rewrite ptrs_plug in Hnd. nodup_norm Hnd. nodup_split. done. }
  assert (rootp (plug c ch) = if decide (c = []) then rootp ch else root_ m) as Hroot'.
  { destruct c as [|f c]; [done|]. rewrite decide_False by done.
    by rewrite Hroot, !(rootp_plug_cons f c). }
  assert (NoDup (ptrs (plug c ch))) as Hnd'.
  { revert Hnd. rewrite !ptrs_plug. simpl.
    destruct Hcase as [[-> ->]|[-> ->]]; simpl; rewrite ?app_nil_r;
      intros Hnd; apply NoDup_cons in Hnd; tauto. }
  rewrite ptrs_plug in Hnd. apply Rep_plug in HR. destruct HR as [HRt HRc].
  cbn [Rep rootp] in HRt, HRc. destruct HRt as (Hcp & HRl & HRr).
  assert (height ch ≤ fuel)%nat as Hfch.
  { destruct Hcase as [[-> ->]|[-> ->]]; simpl in Hlen; lia. }
  assert (0 < fuel)%nat as Hfpos by lia.
  clear Hf Hlen Hb. revert Hnd'.
  destruct Hcase as [[-> ->]|[-> ->]];
    [destruct r as [|cl pc kc lc cr]|destruct l as [|cl pc kc lc cr]];
    destruct c as [|[fp fkv flv fr|fl fp fkv flv] c'];
    try specialize (Hrne ltac:(done));
    simpl in *; destruct_and?; nodup_norm Hnd; nodup_split;
    (destruct (decide (b_iter_ m = Some p)) as [Hbp|Hbp];
     [destruct Hmin as [Hcb Hl]; try done;
      try (by exfalso; clear -Hcb; destruct (cbefore c'), (inorder fl))|]).
  all: intros Hnd'.
  all: try (assert (rootp fl ≠ Some p) by (apply rootp_ne; assumption)).
  all: try (assert (rootp fr ≠ Some p) by (apply rootp_ne; assumption)).
  all: try (destruct (minp (N cl pc kc lc cr)) as [qm|] eqn:Hmn;
            [|by apply minp_None in Hmn]).
  all: eexists; split;
    [ unfold trivialNodeErase, delete_Node; munfold;
      repeat first [ mstep | decide_ptr ];
      try (erewrite bind_reading;
           [ | cbn [heap]; unfold next; rewrite ?Hbp; cbn [mbind option_bind];
               repeat first [ rewrite lookup_insert_eq
                            | rewrite lookup_insert_ne by congruence ];
               rewrite Hcp; cbn [mbind option_bind right parent];
               first [ apply climb_right_None
                     | eapply climb_right_stop;
                       [ hlookup | cbn [right]; assumption | lia ]
                     | erewrite (leftmost_Rep fuel _ _ (N cl pc kc lc cr) pc);
                       [ rewrite Hmn; reflexivity
                       | cbn [Rep rootp]; rep_solve | done | done ] ] ]);
      repeat first [ mstep | decide_ptr ]
    | ].
  all: cbn [heap self b_iter_ size_ e_iter_ root_]; split_and!; try done.
  all: try (unfold Repr; cbn [heap self root_]; split_and!;
            [ exact Hnd'
            | try apply Rep_plug; cbn [Rep RepC rootp cpar fptr fsib fcell]; rep_solve
            | first [ by rewrite Hroot' | done ] ]).
  all: try (by rewrite <- Hmin).
  all: unfold minp in *; rewrite ?inorder_plug; simpl in *; rewrite ?Hcb; simpl; try done.
  all: try (by destruct (inorder cl)).
Qed.

(** Erasing a node with two children: its successor is taken out. *)
Lemma eraseTwoChildren_Repr fuel c l p kv lv d q kq lq rq s :
  Repr s (plug c (N l p kv lv (plug d (N E q kq lq rq)))) →
  Forall is_left_frame d →
  (height (plug c (N l p kv lv (plug d (N E q kq lq rq)))) ≤ fuel)%nat →
  ∃ s', eraseTwoChildren fuel p s = Some (cpar_in (Some p) d, s')
    ∧ Repr s' (plug c (N l p (fst kq, snd kv) lv (plug d rq)))
    ∧ b_iter_ (self s') = b_iter_ (self s)
    ∧ size_ (self s') = wrap (size_ (self s) - 1)
    ∧ e_iter_ (self s') = e_iter_ (self s).
Proof.
  intros (Hnd & HR & Hroot) Hd Hf. destruct s as [h m]. cbn [heap self] in *.
  assert (next fuel h (Some p) = Some (Some q)) as Hnext.
  { apply Rep_plug in HR. destruct HR as [(Hcp & HRl & HRr) _].
    unfold next. simpl. rewrite Hcp. simpl.
    destruct (rootp (plug d (N E q kq lq rq))) as [pr0|] eqn:Hpr0.
    - rewrite (leftmost_Rep fuel h (Some p) (plug d (N E q kq lq rq)) pr0); try done.
      + by rewrite minp_left_frames.
      + pose proof (length_plug_le c (N l p kv lv (plug d (N E q kq lq rq)))) as Hle.
        simpl in Hle. lia.
    - exfalso. clear -Hpr0. destruct d as [|f d]; [done|].
      rewrite rootp_plug_cons in Hpr0.
      assert (∀ (d0 : list (frame Key T)) t0, t0 ≠ E → rootp (plug d0 t0) ≠ None) as Hne.
      { induction d0 as [|g d0 IH]; intros t0 Ht0; simpl; [by destruct t0|].
        apply IH. by destruct g. }
      apply (Hne d (fill1 f E)); [by destruct f|done]. }
  assert (rootp (plug c (N l p (fst kq, snd kv) lv (plug d rq))) = root_ m) as Hroot'.
  { rewrite Hroot. by apply rootp_plug_congr. }
  assert (NoDup (ptrs (plug c (N l p (fst kq, snd kv) lv (plug d rq))))) as Hnd'.
  { revert Hnd. rewrite !ptrs_plug. simpl. rewrite !ptrs_plug. simpl.
    intros Hnd. nodup_norm Hnd. apply NoDup_cons in Hnd. destruct Hnd as [Hp Hnd].
    apply NoDup_cons. split; [set_solver|].
    rewrite <- !app_assoc.
    apply NoDup_app in Hnd. destruct Hnd as (H1 & H2 & H3).
    apply NoDup_app. split_and!; [done|set_solver|].
    by apply NoDup_cons in H3 as [_ H3]. }
  rewrite ptrs_plug in Hnd. simpl in Hnd. rewrite (ptrs_plug d) in Hnd.
  apply Rep_plug in HR. destruct HR as [(Hcp & HRl & HRr) HRc].
  apply Rep_plug_in in HRr. destruct HRr as [(Hcq & _ & HRrq) HRd].
  cbn [rootp] in *. revert Hnd'.
  destruct rq as [|rql prq krq lrq rqr];
    destruct d as [|[g gkv glv gr|gl g gkv glv] d'];
    try (by apply Forall_cons in Hd as [[] _]);
    simpl in *; destruct_and?; nodup_norm Hnd; nodup_split; intros Hnd'.
  all: try (assert (rootp l ≠ Some q) by (apply rootp_ne; assumption)).
  all: eexists; split;
    [ unfold eraseTwoChildren, delete_Node; munfold;
      erewrite bind_reading by exact Hnext;
      repeat first [ mstep | decide_ptr ]
    | ].
  all: split_and!; cbn [self heap b_iter_ size_ e_iter_ root_]; try done.
  all: unfold Repr; cbn [self heap root_]; split_and!; [exact Hnd'| |by rewrite <- Hroot'].
  all: clear Hnd' Hroot'.
  all: apply Rep_plug; cbn [Rep rootp cpar].
  all: repeat match goal with
    | |- context [rootp (plug ?d (N (N E ?q0 ?a ?b ?c) ?g ?x ?y ?z))] =>
        rewrite (rootp_plug_congr d (N (N E q0 a b c) g x y z) (N c g x y z)) by done
    end.
  all: rep_frame.
Qed.

Lemma findNode_Repr fuel k s t :
  Repr s t → (height t < fuel)%nat →
  findNode fuel k s = Some (rootp (descend k [] t).2, s).
Proof.
  intros (Hnd & HR & Hroot) Hf. unfold findNode, get_root.
  rewrite bind_bind, bind_get_self, bind_ret. rewrite Hroot.
  unfold reading. by rewrite (findNode_loop_Rep fuel (heap s) k None t []).
Qed.

Lemma cpar_in_app d f c : cpar_in (Some (fptr f)) d = cpar (d ++ f :: c).
Proof. by destruct d as [|[] d]. Qed.

Lemma minp_erase_up c u : minp (erase_up c u) = minp (plug c u).
Proof. unfold minp. by rewrite inorder_erase_up. Qed.

(** [erase] refines [erase_t]. *)
Lemma erase_Repr fuel k s t :
  Repr s t → b_iter_ (self s) = minp t → (height t < fuel)%nat →
  ∃ s', erase fuel k s = Some (tt, s')
    ∧ Repr s' (erase_t k t)
    ∧ b_iter_ (self s') = minp (erase_t k t)
    ∧ size_ (self s') =
        match (descend k [] t).2 with
        | E => size_ (self s)
        | N _ _ _ _ _ => wrap (size_ (self s) - 1)
        end
    ∧ e_iter_ (self s') = e_iter_ (self s).
Proof.
  intros Hrep Hb Hf. unfold erase, erase_t, get_root.
  rewrite bind_bind, bind_get_self, bind_ret.
  destruct (root_ (self s)) as [rt|] eqn:Hrt.
  2: { destruct Hrep as (Hnd & HR & Hroot). rewrite Hroot in Hrt.
       destruct t; [|done]. simpl. exists s. split_and!; try done. }
  erewrite bind_run by (by apply findNode_Repr).
  destruct (descend k [] t) as [c u] eqn:Hd. cbn [fst snd].
  pose proof (descend_plug _ _ _ _ _ Hd) as Hpl. simpl in Hpl. subst t.
  destruct u as [|l p kv lv r]; cbn [rootp].
  { exists s. split_and!; try done. }
  pose proof (Repr_cell _ _ _ _ _ _ _ Hrep) as Hcp.
  erewrite bind_get_left by exact Hcp. erewrite bind_get_right by exact Hcp.
  cbn [left right].
  assert (∀ c' u' s1 rb,
    rb = cpar c' → Repr s1 (plug c' u') → (length c' ≤ fuel)%nat →
    b_iter_ (self s1) = minp (plug c' u') →
    size_ (self s1) = wrap (size_ (self s) - 1) →
    e_iter_ (self s1) = e_iter_ (self s) →
    ∃ s', erase_walk fuel rb true s1 = Some (tt, s')
      ∧ Repr s' (erase_up c' u')
      ∧ b_iter_ (self s') = minp (erase_up c' u')
      ∧ size_ (self s') = wrap (size_ (self s) - 1)
      ∧ e_iter_ (self s') = e_iter_ (self s)) as Hwalk.
  { intros c' u' s1 rb -> Hrep1 Hlen Hb1 Hs1 He1.
    destruct (erase_walk_Repr fuel c' u' s1 Hrep1 Hlen) as (s' & Hrun & Hrep' & Hsf).
    exists s'. destruct Hsf as (? & ? & ?). rewrite minp_erase_up.
    split_and!; try done; congruence. }
  pose proof (length_plug_le c (N l p kv lv r)) as Hlen.
  destruct l as [|ll pl kl lvl0 lr].
  - (* no left child *)
    destruct (trivialNodeErase_Repr fuel c E p kv lv r r s)
      as (s1 & Hrun & Hrep1 & Hb1 & Hs1 & He1); [done|by left|done|lia|].
    assert (trivialNodeErase fuel p (rootp r) s = Some (cpar c, s1)) as Hrun' by done.
    destruct r as [|rl pr kr lvr rr]; cbn [rootp] in *;
      erewrite bind_run by exact Hrun'; eapply Hwalk; eauto; lia.
  - destruct r as [|rl pr kr lvr rr]; cbn [rootp].
    + (* only a left child *)
      destruct (trivialNodeErase_Repr fuel c (N ll pl kl lvl0 lr) p kv lv E
                  (N ll pl kl lvl0 lr) s)
        as (s1 & Hrun & Hrep1 & Hb1 & Hs1 & He1); [done|by right|done|lia|].
      cbn [rootp] in Hrun. erewrite bind_run by exact Hrun.
      eapply Hwalk; eauto; lia.
    + (* two children *)
      destruct (min_split [] (N rl pr kr lvr rr)) as [cr uq] eqn:Hms.
      destruct (min_split_spec _ _ _ _ Hms ltac:(done))
        as (d & q & kq & lq & rq & -> & -> & Hpd & Hfl).
      rewrite app_nil_r. rewrite <- Hpd in Hrep, Hb, Hf, Hlen.
      destruct (eraseTwoChildren_Repr fuel c (N ll pl kl lvl0 lr) p kv lv d
                  q kq lq rq s Hrep Hfl ltac:(lia))
        as (s1 & Hrun & Hrep1 & Hb1 & Hs1 & He1).
      erewrite bind_run by exact Hrun.
      eapply Hwalk; eauto.
      * apply (cpar_in_app d (FR (N ll pl kl lvl0 lr) p (kq.1, kv.2) lv) c).
      * by rewrite plug_app.
      * rewrite length_app. simpl.
        pose proof (length_plug_le d (N E q kq lq rq)) as Hld. simpl in *. lia.
      * rewrite Hb1, Hb, plug_app. simpl.
        unfold minp. rewrite !inorder_plug. simpl.
        by destruct (cbefore c), (inorder ll).
Qed.

End EraseRefinement.

(** * Copy construction *)

Section Shape.

Context {Key T : Type} `{!MapParams Key T}.

Implicit Types (t l r : tree Key T).

Lemma shape_lvl t t' : shape t' = shape t → lvl t' = lvl t.
Proof. destruct t, t'; simpl; congruence. Qed.

Lemma shape_right_of t t' : shape t' = shape t → shape (right_of t') = shape (right_of t).
Proof. destruct t, t'; simpl; congruence. Qed.

Lemma shape_aa t : ∀ t', shape t' = shape t → aa t → aa t'.
Proof.
  induction t as [|l IHl p kv lv r IHr]; intros [|l' p' kv' lv' r']; simpl;
    try done.
  intros [= Hl -> -> Hr] (Hal & Har & Hll & Hro).
  split_and!; [by apply IHl|by apply IHr|by rewrite (shape_lvl l l')|].
  unfold right_ok in *.
  by rewrite (shape_lvl r r'), (shape_lvl _ _ (shape_right_of r r' Hr)).
Qed.

Lemma shape_pairs t : ∀ t', shape t' = shape t → pairs t' = pairs t.
Proof.
  unfold pairs.
  induction t as [|l IHl p kv lv r IHr]; intros [|l' p' kv' lv' r']; simpl;
    try done.
  intros [= Hl -> -> Hr]. rewrite !fmap_app, !fmap_cons. simpl.
  by rewrite (IHl l' Hl), (IHr r' Hr).
Qed.

Lemma bst_pairs t : bst t ↔ StronglySorted lt_pair (pairs t).
Proof.
  unfold bst, pairs. induction (inorder t) as [|x xs IH]; simpl.
  - split; constructor.
  - rewrite !StronglySorted_cons, IH, Forall_fmap. done.
Qed.

Lemma shape_bst t t' : shape t' = shape t → bst t → bst t'.
Proof. intros Hs. by rewrite !bst_pairs, (shape_pairs t t' Hs). Qed.

Lemma shape_nodes t : ∀ t', shape t' = shape t → nodes t' = nodes t.
Proof.
  induction t as [|l IHl p kv lv r IHr]; intros [|l' p' kv' lv' r']; simpl;
    try done.
  intros [= Hl -> -> Hr]. by rewrite (IHl l' Hl), (IHr r' Hr).
Qed.

Lemma shape_height t : ∀ t', shape t' = shape t → height t' = height t.
Proof.
  induction t as [|l IHl p kv lv r IHr]; intros [|l' p' kv' lv' r']; simpl;
    try done.
  intros [= Hl -> -> Hr]. by rewrite (IHl l' Hl), (IHr r' Hr).
Qed.

Lemma Rep_mono h h' par t : h ⊆ h' → Rep h par t → Rep h' par t.
Proof.
  intros Hsub. revert par.
  induction t as [|l IHl p kv lv r IHr]; intros par; simpl; [done|].
  intros (Hp & Hl & Hr). split_and!; auto.
  by eapply lookup_weaken.
Qed.

End Shape.

Section CopyRefinement.

Context {Key T : Type} `{!MapParams Key T} `{!MapParamsOk}.

Implicit Types (h : gmap ptr (@Node Key T)) (s : @State Key T).
Implicit Types (t l r : tree Key T).

Lemma Rep_agree h h' par t :
  (∀ x m, x ∈ ptrs t → h !! x = Some m → h' !! x = Some m) →
  Rep h par t → Rep h' par t.
Proof.
  revert par. induction t as [|l IHl p kv lv r IHr]; intros par Hag; simpl;
    [done|].
  intros (Hp & Hl & Hr). split_and!.
  - apply Hag; [set_solver|done].
  - apply IHl; [|done]. intros x m Hx. apply Hag. set_solver.
  - apply IHr; [|done]. intros x m Hx. apply Hag. set_solver.
Qed.

Lemma Rep_fresh h par t x : Rep h par t → h !! x = None → x ∉ ptrs t.
Proof.
  intros HR Hx Hin. destruct (Rep_lookup _ _ _ _ HR Hin) as [n Hn]. congruence.
Qed.

(** Copying the left child of [other] and linking it to the new node [q]. *)
Lemma copy_left fuel q n l par s :
  (∀ t p par s,
     Rep (heap s) par t → rootp t = Some p → (height t ≤ fuel)%nat →
     ∃ t' p' s', Node_copy fuel p s = Some (p', s')
       ∧ rootp t' = Some p' ∧ shape t' = shape t
       ∧ Rep (heap s') None t' ∧ NoDup (ptrs t')
       ∧ (∀ x, x ∈ ptrs t' → heap s !! x = None)
       ∧ heap s ⊆ heap s' ∧ self s' = self s) →
  heap s !! q = Some n → left n = None →
  Rep (heap s) par l → (height l ≤ fuel)%nat →
  ∃ l' s',
    match rootp l with
    | Some ol =>
      bind (Node_copy fuel ol)
        (λ c, bind (set_left q (Some c)) (λ _, set_parent c (Some q)))
    | None => ret tt
    end s = Some (tt, s')
    ∧ shape l' = shape l ∧ Rep (heap s') (Some q) l' ∧ NoDup (ptrs l')
    ∧ (∀ x, x ∈ ptrs l' → heap s !! x = None)
    ∧ (∀ x m, x ≠ q → heap s !! x = Some m → heap s' !! x = Some m)
    ∧ heap s' !! q
        = Some (mkNode (value n) (rootp l') (right n) (parent n) (level n))
    ∧ self s' = self s.
Proof.
  intros IH Hq Hn HR Hf. destruct l as [|a0 p0 k0 lv0 b0].
  { exists E, s. simpl. split_and!; try done; [constructor|set_solver|].
    rewrite Hq. destruct n. simpl in *. by subst. }
  destruct (IH _ p0 par s HR eq_refl Hf)
    as (l' & p' & s1 & Hrun & Hp' & Hsh & HR' & Hnd & Hfresh & Hsub & Hself).
  destruct l' as [|a p1 k1 lv1 b]; [done|]. simpl in Hp'. injection Hp' as ->.
  simpl in HR'. destruct HR' as (Hc' & Ha & Hb).
  assert (q ∉ ptrs (N a p' k1 lv1 b)) as Hqn.
  { intros Hin. apply Hfresh in Hin. congruence. }
  simpl in Hqn. apply not_elem_of_cons in Hqn as [Hqp Hqn].
  apply not_elem_of_app in Hqn as [Hqa Hqb].
  simpl in Hnd. apply NoDup_cons in Hnd as [Hpn Hnd'].
  apply not_elem_of_app in Hpn as [Hpa Hpb].
  assert (heap s1 !! q = Some n) as Hq1 by (by eapply lookup_weaken).
  destruct s1 as [h1 m1]. simpl in *.
  eexists (N a p' k1 lv1 b), _. split.
  { erewrite bind_run by exact Hrun. unfold set_left, set_parent.
    repeat mstep. }
  cbn [heap self]. split_and!; try done.
  - cbn [Rep rootp]. rep_solve.
  - simpl. apply NoDup_cons. split; [|done]. set_solver.
  - intros x m Hx Hm.
    assert (x ≠ p').
    { intros ->. rewrite (Hfresh p') in Hm; [done|set_solver]. }
    rewrite !lookup_insert_ne by done. by eapply lookup_weaken.
  - rewrite lookup_insert_ne by done. by rewrite lookup_insert_eq.
Qed.

Lemma copy_right fuel q n r par s :
  (∀ t p par s,
     Rep (heap s) par t → rootp t = Some p → (height t ≤ fuel)%nat →
     ∃ t' p' s', Node_copy fuel p s = Some (p', s')
       ∧ rootp t' = Some p' ∧ shape t' = shape t
       ∧ Rep (heap s') None t' ∧ NoDup (ptrs t')
       ∧ (∀ x, x ∈ ptrs t' → heap s !! x = None)
       ∧ heap s ⊆ heap s' ∧ self s' = self s) →
  heap s !! q = Some n → right n = None →
  Rep (heap s) par r → (height r ≤ fuel)%nat →
  ∃ r' s',
    match rootp r with
    | Some or =>
      bind (Node_copy fuel or)
        (λ c, bind (set_right q (Some c)) (λ _, set_parent c (Some q)))
    | None => ret tt
    end s = Some (tt, s')
    ∧ shape r' = shape r ∧ Rep (heap s') (Some q) r' ∧ NoDup (ptrs r')
    ∧ (∀ x, x ∈ ptrs r' → heap s !! x = None)
    ∧ (∀ x m, x ≠ q → heap s !! x = Some m → heap s' !! x = Some m)
    ∧ heap s' !! q
        = Some (mkNode (value n) (left n) (rootp r') (parent n) (level n))
    ∧ self s' = self s.
Proof.
  intros IH Hq Hn HR Hf. destruct r as [|a0 p0 k0 lv0 b0].
  { exists E, s. simpl. split_and!; try done; [constructor|set_solver|].
    rewrite Hq. destruct n. simpl in *. by subst. }
  destruct (IH _ p0 par s HR eq_refl Hf)
    as (r' & p' & s1 & Hrun & Hp' & Hsh & HR' & Hnd & Hfresh & Hsub & Hself).
  destruct r' as [|a p1 k1 lv1 b]; [done|]. simpl in Hp'. injection Hp' as ->.
  simpl in HR'. destruct HR' as (Hc' & Ha & Hb).
  assert (q ∉ ptrs (N a p' k1 lv1 b)) as Hqn.
  { intros Hin. apply Hfresh in Hin. congruence. }
  simpl in Hqn. apply not_elem_of_cons in Hqn as [Hqp Hqn].
  apply not_elem_of_app in Hqn as [Hqa Hqb].
  simpl in Hnd. apply NoDup_cons in Hnd as [Hpn Hnd'].
  apply not_elem_of_app in Hpn as [Hpa Hpb].
  assert (heap s1 !! q = Some n) as Hq1 by (by eapply lookup_weaken).
  destruct s1 as [h1 m1]. simpl in *.
  eexists (N a p' k1 lv1 b), _. split.
  { erewrite bind_run by exact Hrun. unfold set_right, set_parent.
    repeat mstep. }
  cbn [heap self]. split_and!; try done.
  - cbn [Rep rootp]. rep_solve.
  - simpl. apply NoDup_cons. split; [|done]. set_solver.
  - intros x m Hx Hm.
    assert (x ≠ p').
    { intros ->. rewrite (Hfresh p') in Hm; [done|set_solver]. }
    rewrite !lookup_insert_ne by done. by eapply lookup_weaken.
  - rewrite lookup_insert_ne by done. by rewrite lookup_insert_eq.
Qed.

(** [new Node] from a node of the tree [t] builds a copy of [t] at unused
    addresses and leaves the store of [t] as it is. *)
Lemma Node_copy_Rep fuel : ∀ t p par s,
  Rep (heap s) par t → rootp t = Some p → (height t ≤ fuel)%nat →
  ∃ t' p' s', Node_copy fuel p s = Some (p', s')
    ∧ rootp t' = Some p' ∧ shape t' = shape t
    ∧ Rep (heap s') None t' ∧ NoDup (ptrs t')
    ∧ (∀ x, x ∈ ptrs t' → heap s !! x = None)
    ∧ heap s ⊆ heap s' ∧ self s' = self s.
Proof.
  induction fuel as [|fuel IH]; intros t p par s HR Hp Hf.
  { destruct t; simpl in *; [done|lia]. }
  destruct t as [|l p0 kv lv r]; [done|]. simpl in Hp. injection Hp as ->.
  simpl in HR, Hf. destruct HR as (Hcp & HRl & HRr).
  set (q := alloc (heap s)).
  assert (heap s !! q = None) as Hq by apply alloc_fresh.
  set (n1 := mkNode kv None None None lv).
  set (s1 := mkState (<[q := n1]> (heap s)) (self s)).
  assert (heap s ⊆ heap s1) as Hsub1 by (by apply insert_subseteq).
  destruct (copy_left fuel q n1 l (Some p) s1 IH)
    as (l' & s2 & Hrun2 & Hsh2 & HR2 & Hnd2 & Hfr2 & Hpr2 & Hq2 & Hself2);
    [apply lookup_insert_eq|done|by eapply Rep_mono|lia|].
  assert (∀ x m, heap s !! x = Some m → heap s2 !! x = Some m) as Hsub2.
  { intros x m Hx. apply Hpr2; [congruence|]. by eapply lookup_weaken. }
  destruct (copy_right fuel q _ r (Some p) s2 IH Hq2)
    as (r' & s3 & Hrun3 & Hsh3 & HR3 & Hnd3 & Hfr3 & Hpr3 & Hq3 & Hself3);
    [done| |lia|].
  { eapply Rep_mono; [|exact HRr]. by apply map_subseteq_spec. }
  assert (q ∉ ptrs l') as Hql.
  { intros Hin. apply Hfr2 in Hin. simpl in Hin.
    by rewrite lookup_insert_eq in Hin. }
  assert (q ∉ ptrs r') as Hqr.
  { intros Hin. apply Hfr3 in Hin. congruence. }
  exists (N l' q kv lv r'), q, s3. split_and!.
  - cbn [Node_copy]. erewrite bind_load by exact Hcp.
    rewrite bind_new_Node. cbn [value left right level].
    erewrite bind_run by exact Hrun2.
    erewrite bind_run by exact Hrun3. done.
  - done.
  - simpl. by rewrite Hsh2, Hsh3.
  - simpl. split_and!; [done| |done].
    eapply Rep_agree; [|exact HR2]. intros x m Hx Hm.
    apply Hpr3; [|done]. by intros ->.
  - simpl. apply NoDup_cons. split; [set_solver|].
    apply NoDup_app. split_and!; [done| |done].
    intros x Hx Hx'. apply Hfr3 in Hx'.
    destruct (Rep_lookup _ _ _ _ HR2 Hx) as [m Hm]. congruence.
  - intros x. simpl. rewrite elem_of_cons, elem_of_app.
    intros [->|[Hx|Hx]]; [done| |].
    + apply Hfr2 in Hx. simpl in Hx. by apply lookup_insert_None in Hx as [? _].
    + apply Hfr3 in Hx. destruct (heap s !! x) as [m|] eqn:Hm; [|done].
      apply Hsub2 in Hm. congruence.
  - apply map_subseteq_spec. intros x m Hm. apply Hpr3.
    + congruence.
    + by apply Hsub2.
  - by rewrite Hself3, Hself2.
Qed.

(** The copy constructor. *)
Lemma Map_copy_Inv fuel s t :
  Inv s t → (height t ≤ fuel)%nat →
  ∃ s' t', Map_copy fuel (self s) s = Some (tt, s')
    ∧ Inv s' t' ∧ shape t' = shape t
    ∧ heap s ⊆ heap s'
    ∧ (∀ x, x ∈ ptrs t' → heap s !! x = None).
Proof.
  intros ((Hnd & HR & Hroot) & Hb & Haa & Hbi & Hsz & He) Hf.
  unfold Map_copy. rewrite Hroot.
  destruct t as [|l p kv lv r].
  { exists (mkState (heap s) (mkMap None None None (size_ (self s)))), E.
    simpl. split_and!; try done.
    all: try (intros x Hx; by apply elem_of_nil in Hx).
    all: unfold Inv, Repr; simpl; split_and!; try done; constructor. }
  destruct (Node_copy_Rep fuel (N l p kv lv r) p None s HR eq_refl Hf)
    as (t' & p' & s1 & Hrun & Hp' & Hsh & HR' & Hnd' & Hfr & Hsub & Hself).
  cbn [rootp]. rewrite bind_bind. erewrite bind_run by exact Hrun.
  rewrite bind_ret.
  assert (beginNode fuel (heap s1) (Some p') = Some (minp t')) as Hbn.
  { simpl. rewrite (leftmost_Rep fuel (heap s1) None t' p'); try done.
    - destruct (minp t') eqn:Hm; [done|].
      apply minp_None in Hm. by subst t'.
    - by rewrite (shape_height _ _ Hsh). }
  erewrite bind_reading by exact Hbn.
  eexists _, t'. split; [reflexivity|].
  split_and!; try done.
  unfold Inv, Repr. cbn [heap self root_ b_iter_ size_ e_iter_].
  split_and!; try done.
  - by apply (shape_bst (N l p kv lv r)).
  - by apply (shape_aa (N l p kv lv r)).
  - by rewrite (shape_nodes _ _ Hsh).
Qed.


End CopyRefinement.

(** * Iteration *)

Section Iteration.

Context {Key T : Type} `{!MapParams Key T}.

Implicit Types (h : gmap ptr (@Node Key T)) (s : @State Key T).
Implicit Types (t l r : tree Key T) (c : list (frame Key T)).

(** Every position of the in-order sequence is the node under some path. *)
Lemma focus_at t : ∀ c0 A x B,
  inorder t = A ++ x :: B →
  ∃ c l lv r,
    plug c (N l (fst x) (snd x) lv r) = plug c0 t
    ∧ cbefore c ++ inorder l = cbefore c0 ++ A
    ∧ inorder r ++ cafter c = B ++ cafter c0.
Proof.
  induction t as [|l IHl p kv lv r IHr]; intros c0 A x B Hin; simpl in Hin.
  { by destruct A. }
  apply app_eq_inv in Hin. destruct Hin as [(k & Hl & Hr)|(k & Hl & Hr)].
  - destruct k as [|y k].
    + rewrite app_nil_r in Hl. simpl in Hr. injection Hr as -> ->.
      exists c0, l, lv, r. simpl. by rewrite Hl.
    + simpl in Hr. injection Hr as <- ->.
      destruct (IHl (FL p kv lv r :: c0) A x k Hl)
        as (c & l' & lv' & r' & Hp & Hb & Ha).
      exists c, l', lv', r'. simpl in *. split_and!; try done.
      rewrite Ha. by rewrite <- !app_assoc.
  - destruct k as [|y k].
    + rewrite app_nil_r in Hl. simpl in Hr. injection Hr as <- <-.
      exists c0, l, lv, r. simpl. by rewrite Hl.
    + simpl in Hr. injection Hr as <- Hr.
      destruct (IHr (FR l p kv lv :: c0) k x B Hr)
        as (c & l' & lv' & r' & Hp & Hb & Ha).
      exists c, l', lv', r'. simpl in *. split_and!; try done.
      rewrite Hb, Hl. by rewrite <- !app_assoc.
Qed.

(** The walk from a node to the end by [next] visits the rest of the
    in-order sequence. *)
Lemma iterate_from_Rep h t :
  Rep h None t → NoDup (ptrs t) →
  ∀ B A fuel,
    inorder t = A ++ B → (length B + height t ≤ fuel)%nat →
    iterate_from fuel h (fst <$> head B) None = Some (B.*2).
Proof.
  intros HR Hnd. induction B as [|x B IH]; intros A fuel Hin Hf.
  { by destruct fuel. }
  destruct fuel as [|fuel]; [simpl in Hf; lia|].
  destruct (focus_at t [] A x B Hin) as (c & l & lv & r & Hp & _ & Ha).
  simpl in Hp, Ha. rewrite app_nil_r in Ha. subst t.
  pose proof (length_plug_le c (N l x.1 x.2 lv r)) as Hlen.
  simpl in Hlen, Hf.
  assert (next fuel h (Some x.1) = Some (fst <$> head B)) as Hnx.
  { rewrite <- Ha. apply (next_Rep fuel h c l x.1 x.2 lv r); try done; lia. }
  pose proof HR as HR0. apply Rep_plug in HR. destruct HR as [(Hc & _ & _) _].
  cbn [iterate_from head fmap option_fmap option_map].
  unfold ptr_eqb. rewrite bool_decide_eq_false_2 by done.
  cbn [mbind option_bind]. rewrite Hc. cbn [mbind option_bind].
  rewrite Hnx. cbn [mbind option_bind].
  rewrite (IH (A ++ [x]) fuel); [done| |lia].
  by rewrite <- app_assoc.
Qed.

Lemma iterate_Inv fuel s t :
  Inv s t → (nodes t + height t ≤ fuel)%nat →
  iterate fuel s = Some (pairs t, s).
Proof.
  intros ((Hnd & HR & Hroot) & Hb & Haa & Hbi & Hsz & He) Hf.
  unfold iterate, begin_, end_, get_b_iter.
  rewrite bind_bind, bind_get_self, bind_ret.
  rewrite bind_bind, bind_get_self, bind_ret.
  unfold reading. rewrite Hbi, He. unfold minp.
  rewrite (iterate_from_Rep (heap s) t HR Hnd (inorder t) [] fuel); try done.
  by rewrite <- nodes_inorder.
Qed.

End Iteration.

(** * The invariant of the map under its operations *)

Section Operations.

Context {Key T : Type} `{!MapParams Key T} `{!MapParamsOk}.

Implicit Types (h : gmap ptr (@Node Key T)) (s : @State Key T).
Implicit Types (t l r R : tree Key T) (c : list (frame Key T)).

Lemma Map_eq (m m' : Map) :
  root_ m = root_ m' → b_iter_ m = b_iter_ m' → e_iter_ m = e_iter_ m' →
  size_ m = size_ m' → m = m'.
Proof. destruct m, m'. simpl. by intros -> -> -> ->. Qed.

Lemma Inv_new h : Inv (mkState h Map_new) (E : tree Key T).
Proof. unfold Inv, Repr. simpl. split_and!; try done; constructor. Qed.

Lemma minp_inorder t t' : inorder t' = inorder t → minp t' = minp t.
Proof. unfold minp. by intros ->. Qed.

(** [insert] of a new key; the walk to the root ends with the same tree. *)
Lemma insert_new_Inv fuel (v : Key * T) s t c :
  Inv s t → descend (fst v) [] t = (c, E) →
  Z.of_nat (nodes t) + 2 < size_type_modulus →
  (3 * nodes t + 3 ≤ fuel)%nat →
  ∃ s1 s2 R,
    insert fuel v s = Some ((Some (alloc (heap s)), true), s1)
    ∧ insert_to_root fuel v s = Some ((Some (alloc (heap s)), true), s2)
    ∧ Inv s1 R ∧ Inv s2 R ∧ self s1 = self s2
    ∧ inorder R = cbefore c ++ (alloc (heap s), v) :: cafter c
    ∧ inorder t = cbefore c ++ cafter c.
Proof.
  intros (Hrep & Hb & Haa & Hbi & Hsz & He) Hd Hbound Hf.
  destruct (insert_t_new fuel (alloc (heap s)) v t c Haa Hb Hd Hbound Hf)
    as (R & Hat3 & Hat & HaaR & HbR & HinR & Hint).
  pose proof (height_le_nodes t) as Hh.
  destruct (insert_with_new (Some 3) fuel v s t c R Hrep Hb Hbi Hsz
              ltac:(lia) Hd Hat3)
    as (s1 & Hrun1 & Hnd1 & HR1 & Hroot1 & Hb1 & Hsz1 & He1).
  destruct (insert_with_new None fuel v s t c R Hrep Hb Hbi Hsz
              ltac:(lia) Hd Hat)
    as (s2 & Hrun2 & Hnd2 & HR2 & Hroot2 & Hb2 & Hsz2 & He2).
  assert (minp (plug c (N E (alloc (heap s)) v 1 E)) = minp R) as Hmin.
  { symmetry. apply minp_inorder. by rewrite HinR, inorder_plug. }
  assert (wrap (size_ (self s) + 1) = Z.of_nat (nodes R)) as HszR.
  { rewrite Hsz, wrap_small by lia.
    rewrite !nodes_inorder, HinR, Hint, !length_app. simpl. lia. }
  exists s1, s2, R. split_and!; try done.
  - unfold Inv, Repr. split_and!; try done; congruence.
  - unfold Inv, Repr. split_and!; try done; congruence.
  - apply Map_eq; congruence.
Qed.

(** [insert] of a key that is there. *)
Lemma insert_found_Inv fuel (v : Key * T) s t c l p kv lv r :
  Inv s t → descend (fst v) [] t = (c, N l p kv lv r) →
  (nodes t < fuel)%nat →
  insert fuel v s = Some ((Some p, false), s)
  ∧ insert_to_root fuel v s = Some ((Some p, false), s).
Proof.
  intros (Hrep & Hb & Haa & Hbi & Hsz & He) Hd Hf.
  pose proof (height_le_nodes t) as Hh.
  split; eapply insert_with_found; eauto; lia.
Qed.

Lemma erase_Inv fuel k s t :
  Inv s t → Z.of_nat (nodes t) + 1 < size_type_modulus →
  (nodes t < fuel)%nat →
  ∃ s', erase fuel k s = Some (tt, s') ∧ Inv s' (erase_t k t).
Proof.
  intros (Hrep & Hb & Haa & Hbi & Hsz & He) Hbound Hf.
  pose proof (height_le_nodes t) as Hh.
  destruct (erase_Repr fuel k s t Hrep Hbi ltac:(lia))
    as (s' & Hrun & Hrep' & Hb' & Hsz' & He').
  exists s'. split; [done|]. unfold Inv. split_and!; try done.
  - by apply erase_t_bst.
  - apply erase_t_aa; [done|]. by rewrite <- nodes_inorder.
  - rewrite Hsz'. rewrite (nodes_inorder (erase_t k t)), erase_t_length.
    rewrite <- nodes_inorder.
    destruct (descend k [] t) as [c u] eqn:Hd. simpl.
    destruct u as [|l p kv lv r]; [done|].
    assert (0 < nodes t)%nat.
    { pose proof (descend_plug _ _ _ _ _ Hd) as Hpl. simpl in Hpl.
      rewrite <- Hpl, nodes_inorder, inorder_plug, !length_app. simpl.
      rewrite length_app. simpl. lia. }
    rewrite Hsz, wrap_small by lia. lia.
  - congruence.
Qed.

Lemma erase_nodes k t : (nodes (erase_t k t) ≤ nodes t)%nat.
Proof.
  rewrite !nodes_inorder, erase_t_length.
  destruct (descend k [] t).2; lia.
Qed.



End Operations.

(** * The claims of the specification *)

Lemma less_int_ok : @MapParamsOk Z Z less_int.
Proof.
  split; simpl.
  - apply Z.ltb_irrefl.
  - intros a b c. rewrite !Z.ltb_lt. lia.
  - intros a b. unfold equivalent. simpl.
    destruct (Z.eqb_spec a b), (Z.ltb_spec a b), (Z.ltb_spec b a); simpl; lia.
  - intros h. apply not_elem_of_dom. unfold first_free. apply is_fresh.
Qed.

Lemma Inv_one_map : @Inv Z Z less_int one_map one_tree.
Proof.
  unfold Inv, Repr, one_map, one_tree. simpl. split_and!; try done.
  - apply NoDup_singleton.
  - unfold bst. simpl. repeat constructor.
  - unfold right_ok. simpl. lia.
Qed.

Section Claims.

Context {Key T : Type} `{!MapParams Key T} `{!MapParamsOk}.

Implicit Types (h : gmap ptr (@Node Key T)) (s : @State Key T).
Implicit Types (t l r R : tree Key T) (c : list (frame Key T)).






Lemma new_key_descend (v : Key * T) t :
  (∀ x, x ∈ pairs t → equivalent (fst x) (fst v) = false) →
  ∃ c, descend (fst v) [] t = (c, E).
Proof.
  intros Hne. pose proof (descend_absent (fst v) t []) as Hd.
  destruct (descend (fst v) [] t) as [c u]. exists c. simpl in Hd.
  rewrite Hd; [done|]. intros x Hx. apply Hne. unfold pairs.
  by apply list_elem_of_fmap_2.
Qed.

(** C6: [insert] of a key that no stored key is equivalent to returns the
    address of a node that was not in use, with [true]; after it [find]
    yields that node, which holds the pair inserted, and [getSize] is one
    more than before. *)
Theorem C6_insert_new_key fuel (v : Key * T) s t :
  Inv s t →
  (∀ x, x ∈ pairs t → equivalent (fst x) (fst v) = false) →
  Z.of_nat (nodes t) + 2 < size_type_modulus →
  (3 * nodes t + 3 ≤ fuel)%nat →
  ∃ p s' n,
    insert fuel v s = Some ((Some p, true), s')
    ∧ heap s !! p = None
    ∧ find fuel (fst v) s' = Some (Some p, s')
    ∧ deref (Some p) s' = Some (v, s')
    ∧ lookup_pair fuel (fst v) s' = Some (v, s')
    ∧ getSize s = Some (n, s) ∧ getSize s' = Some (n + 1, s').
Proof.
  intros HI Hne Hbound Hf.
  destruct (new_key_descend v t Hne) as [c Hd].
  destruct (insert_new_Inv fuel v s t c HI Hd Hbound Hf)
    as (s1 & _ & R & Hrun & _ & HI1 & _ & _ & HinR & Hint).
  destruct HI as (Hrep & Hb & Haa & Hbi & Hsz & He).
  destruct HI1 as (Hrep1 & Hb1 & Haa1 & Hbi1 & Hsz1 & He1).
  set (q := alloc (heap s)) in *.
  assert ((q, v) ∈ inorder R) as Hin by (rewrite HinR; set_solver).
  assert (nodes R = S (nodes t)) as HnR.
  { rewrite !nodes_inorder, HinR, Hint, !length_app. simpl. lia. }
  assert (find fuel (fst v) s1 = Some (Some q, s1)) as Hfind.
  { unfold find. rewrite (findNode_Repr fuel (fst v) s1 R Hrep1).
    - by destruct (descend_finds R [] q v Hb1 Hin) as (c' & l & lv & r & ->).
    - pose proof (height_le_nodes R). lia. }
  assert (deref (Some q) s1 = Some (v, s1)) as Hderef.
  { destruct Hrep1 as (_ & HR1 & _).
    destruct (Rep_value (heap s1) None R q v HR1 Hin) as (n & Hn & Hv).
    simpl. unfold get_value. erewrite bind_load by exact Hn. by rewrite Hv. }
  exists q, s1, (size_ (self s)). split_and!; try done.
  - apply alloc_fresh.
  - unfold lookup_pair. by erewrite bind_run by exact Hfind.
  - unfold getSize, get_size. rewrite bind_get_self.
    rewrite Hsz1, Hsz, HnR. unfold ret. do 3 f_equal. lia.
Qed.


(** C10: [insert] of a key that is there returns the node that holds it,
    with [false], and leaves the store and the map as they are: the pair of
    that node keeps its mapped value. *)
Theorem C10_duplicate_insert_is_ignored fuel (v : Key * T) s t p kv :
  Inv s t → (p, kv) ∈ inorder t → fst kv = fst v → (nodes t < fuel)%nat →
  insert fuel v s = Some ((Some p, false), s)
  ∧ deref (Some p) s = Some (kv, s).
Proof.
  intros HI Hin Hk Hf.
  destruct (descend_finds t [] p kv) as (c & l & lv & r & Hd); [apply HI|done|].
  rewrite Hk in Hd.
  destruct (insert_found_Inv fuel v s t c l p kv lv r HI Hd Hf) as [Hrun _].
  split; [done|].
  destruct HI as ((_ & HR & _) & _).
  destruct (Rep_value (heap s) None t p kv HR Hin) as (n & Hn & Hv).
  simpl. unfold get_value. erewrite bind_load by exact Hn. by rewrite Hv.
Qed.

(** C8: [skew] and [split] keep the in-order sequence of the pairs, hence
    BST order; [skew] returns its argument and changes nothing when the node
    has no left child on its level, [split] when the node has no right child
    whose right child is on its level; a [split] that is performed returns
    the former right child, one level higher than it was, in the place of
    the node under the same parent, or as the root. *)
Theorem C8_skew_and_split c t p s :
  Repr s (plug c t) → rootp t = Some p →
  0 ≤ lvl (right_of t) → lvl (right_of t) + 1 < size_type_modulus →
  (∃ p1 s1, skew p s = Some (p1, s1)
     ∧ Repr s1 (plug c (skew_t t)) ∧ rootp (skew_t t) = Some p1
     ∧ inorder (plug c (skew_t t)) = inorder (plug c t)
     ∧ (bst (plug c t) → bst (plug c (skew_t t)))
     ∧ (skews t = false → p1 = p ∧ s1 = s))
  ∧ (∃ p2 s2, split p s = Some (p2, s2)
     ∧ Repr s2 (plug c (split_t t)) ∧ rootp (split_t t) = Some p2
     ∧ inorder (plug c (split_t t)) = inorder (plug c t)
     ∧ (bst (plug c t) → bst (plug c (split_t t)))
     ∧ (splits t = false → p2 = p ∧ s2 = s)
     ∧ (splits t = true →
          rootp (right_of t) = Some p2
          ∧ rootp (left_of (split_t t)) = Some p
          ∧ lvl (split_t t) = lvl (right_of t) + 1
          ∧ RepC (heap s2) c (Some p2)
          ∧ (∃ n, heap s2 !! p2 = Some n ∧ parent n = cpar c
                ∧ level n = lvl (right_of t) + 1)
          ∧ (c = [] → root_ (self s2) = Some p2))).
Proof.
  intros Hrep Hp Hl0 Hl1. pose proof Hrep as (Hnd & HR & Hroot). split.
  - destruct (skew_Repr c t p s Hnd HR Hroot Hp)
      as (p1 & s1 & Hrun & Hp1 & HR1 & Hroot1 & Hsf & Hch).
    exists p1, s1. split_and!; try done.
    + split_and!; try done. revert Hnd. apply NoDup_plug_congr, ptrs_skew.
    + apply inorder_plug_congr, inorder_skew.
    + unfold bst. by rewrite (inorder_plug_congr c _ t (inorder_skew t)).
    + intros Hs. by rewrite Hs in Hch.
  - destruct (split_Repr c t p s Hnd HR Hroot Hp)
      as (p2 & s2 & Hrun & Hp2 & HR2 & Hroot2 & Hsf & Hch).
    exists p2, s2. split_and!; try done.
    + split_and!; try done. revert Hnd. apply NoDup_plug_congr, ptrs_split.
    + apply inorder_plug_congr, inorder_split.
    + unfold bst. by rewrite (inorder_plug_congr c _ t (inorder_split t)).
    + intros Hs. by rewrite Hs in Hch.
    + intros Hs.
      destruct (splits_shape t Hs) as (a & p0 & kv & lv & b & pr & kr & lr & rr & -> & Hst).
      rewrite Hst in *. simpl in *. injection Hp as ->. injection Hp2 as ->.
      rewrite wrap_small by lia.
      apply Rep_plug in HR2. destruct HR2 as [(Hc2 & _) HRc]. simpl in HRc.
      split_and!; try done.
      * exists (mkNode kr (Some p) (rootp rr) (cpar c) (wrap (lr + 1))).
        split_and!; try done. simpl. apply wrap_small. lia.
      * intros ->. by rewrite Hroot2.
Qed.

Lemma dec_t_recompute t : levels_fit t → dec_t t = recompute_level t.
Proof.
  destruct t as [|l p kv lv r]; [done|]. simpl.
  intros (Hlv & Hl & Hr). unfold recompute_level. simpl.
  assert (match l with E => lv | N _ _ _ _ _ => wrap (lv - lvl l) end
          = lv - lvl l) as ->.
  { destruct l; simpl in *; [lia|]. apply wrap_small. lia. }
  assert (match r with E => lv | N _ _ _ _ _ => wrap (lv - lvl r) end
          = lv - lvl r) as ->.
  { destruct r; simpl in *; [lia|]. apply wrap_small. lia. }
  destruct (_ || _); [|done]. rewrite wrap_small by lia.
  destruct r as [|rl pr kr lr rr]; [done|]. simpl in *.
  destruct (Z.eqb_spec lr lv); [|done]. by rewrite wrap_small by lia.
Qed.

Lemma level_drops_changed t :
  levels_fit t → negb (lvl t =? lvl (dec_t t)) = level_drops t.
Proof.
  intros Hfit. rewrite (dec_t_recompute t Hfit). unfold recompute_level.
  destruct t as [|l p kv lv r]; [done|]. simpl.
  destruct (_ || _); simpl.
  - apply negb_true_iff, Z.eqb_neq. lia.
  - by rewrite Z.eqb_refl.
Qed.

(** C4 (amended): at each node the walk of [erase] visits, the level is
    lowered by one exactly when one of the children is more than one level
    below the node, an absent child being on level 0, and then a right
    child that was on the level of the node is lowered by one too; if the
    level changed, [skew] is applied to the node, its right child and the
    right child of that, then [split] to the node and its right child, and
    the walk goes on at the parent; it stops at the first node whose level
    does not change. *)
Theorem C4_level_recomputation_of_erase c t p s fuel :
  Repr s (plug c t) → rootp t = Some p → levels_fit t →
  (∃ s1, decreaseNodeLevel p s = Some (tt, s1)
     ∧ Repr s1 (plug c (recompute_level t)))
  ∧ (∃ s', erase_round p s = Some ((cpar c, level_drops t), s')
       ∧ Repr s' (plug c (if level_drops t
                          then fix_t (recompute_level t) else t))
       ∧ erase_walk (S fuel) (Some p) true s
           = erase_walk fuel (cpar c) (level_drops t) s'
       ∧ (level_drops t = false →
            erase_walk (S fuel) (Some p) true s = Some (tt, s'))).
Proof.
  intros Hrep Hp Hfit. split.
  - destruct (decreaseNodeLevel_Repr c t p s Hrep Hp) as (s1 & Hrun & Hrep1 & _).
    exists s1. by rewrite <- (dec_t_recompute t Hfit).
  - destruct (erase_round_Repr c t p s Hrep Hp) as (s' & Hrun & Hrep' & _).
    rewrite (level_drops_changed t Hfit) in Hrun.
    assert ((lvl (dec_t t) =? lvl t) = negb (level_drops t)) as Heq.
    { rewrite <- (level_drops_changed t Hfit), negb_involutive. apply Z.eqb_sym. }
    rewrite Heq, (dec_t_recompute t Hfit) in Hrep'.
    exists s'. split_and!; try done.
    + by destruct (level_drops t).
    + cbn [erase_walk negb]. by erewrite bind_run by exact Hrun.
    + intros Hno. cbn [erase_walk negb]. erewrite bind_run by exact Hrun.
      rewrite Hno. by destruct (cpar c), fuel.
Qed.

End Claims.




Lemma C6_witness :
  @MapParamsOk Z Z less_int
  ∧ @Inv Z Z less_int one_map one_tree
  ∧ (∀ x, x ∈ pairs one_tree → @equivalent Z Z less_int (fst x) 7 = false)
  ∧ Z.of_nat (nodes one_tree) + 2 < size_type_modulus
  ∧ (3 * nodes one_tree + 3 ≤ 6)%nat
  ∧ ∃ p s' n,
      @insert Z Z less_int 6 (7, 70) one_map = Some ((Some p, true), s')
      ∧ heap one_map !! p = None
      ∧ @find Z Z less_int 6 7 s' = Some (Some p, s')
      ∧ deref (Some p) s' = Some ((7, 70), s')
      ∧ @lookup_pair Z Z less_int 6 7 s' = Some ((7, 70), s')
      ∧ getSize one_map = Some (n, one_map) ∧ getSize s' = Some (n + 1, s').
Proof.
  assert (∀ x, x ∈ pairs one_tree → @equivalent Z Z less_int (fst x) 7 = false)
    as Hne.
  { intros x Hx. apply list_elem_of_singleton in Hx. by subst x. }
  split_and!; [exact less_int_ok|exact Inv_one_map|exact Hne|by vm_compute
              |simpl; lia|].
  apply (@C6_insert_new_key Z Z less_int less_int_ok 6 (7, 70) one_map one_tree
           Inv_one_map Hne); [by vm_compute|simpl; lia].
Defined.


Lemma C10_witness :
  @MapParamsOk Z Z less_int
  ∧ @Inv Z Z less_int one_map one_tree
  ∧ (1%positive, (5, 50)) ∈ inorder one_tree
  ∧ (nodes one_tree < 4)%nat
  ∧ @insert Z Z less_int 4 (5, 99) one_map
      = Some ((Some 1%positive, false), one_map)
  ∧ deref (Some 1%positive) one_map = Some ((5, 50), one_map).
Proof.
  assert ((1%positive, (5, 50)) ∈ inorder one_tree) as Hin.
  { simpl. apply list_elem_of_singleton. reflexivity. }
  split_and!; [exact less_int_ok|exact Inv_one_map|exact Hin|simpl; lia| |];
    apply (@C10_duplicate_insert_is_ignored Z Z less_int less_int_ok 4 (5, 99)
             one_map one_tree 1%positive (5, 50) Inv_one_map Hin eq_refl);
    simpl; lia.
Defined.

Lemma Repr_chain_map : Repr chain_map chain_tree.
Proof.
  unfold Repr, chain_map, chain_tree. simpl. split_and!; try done.
  repeat (apply NoDup_cons_2; [set_solver|]). apply NoDup_nil_2.
Qed.

Lemma Repr_spliced_map : Repr spliced_map spliced_tree.
Proof.
  unfold Repr, spliced_map, spliced_tree. simpl. split_and!; try done.
  repeat (apply NoDup_cons_2; [set_solver|]). apply NoDup_nil_2.
Qed.

Lemma C8_witness :
  Repr chain_map (plug [] chain_tree)
  ∧ rootp chain_tree = Some 1%positive
  ∧ 0 ≤ lvl (right_of chain_tree)
  ∧ lvl (right_of chain_tree) + 1 < size_type_modulus
  ∧ (∃ p1 s1, @skew Z Z 1%positive chain_map = Some (p1, s1)
       ∧ Repr s1 (plug [] (skew_t chain_tree))
       ∧ rootp (skew_t chain_tree) = Some p1
       ∧ inorder (plug [] (skew_t chain_tree)) = inorder (plug [] chain_tree)
       ∧ (@bst Z Z less_int (plug [] chain_tree)
          → @bst Z Z less_int (plug [] (skew_t chain_tree)))
       ∧ (skews chain_tree = false → p1 = 1%positive ∧ s1 = chain_map))
  ∧ (∃ p2 s2, @split Z Z 1%positive chain_map = Some (p2, s2)
       ∧ Repr s2 (plug [] (split_t chain_tree))
       ∧ rootp (split_t chain_tree) = Some p2
       ∧ inorder (plug [] (split_t chain_tree)) = inorder (plug [] chain_tree)
       ∧ (@bst Z Z less_int (plug [] chain_tree)
          → @bst Z Z less_int (plug [] (split_t chain_tree)))
       ∧ (splits chain_tree = false → p2 = 1%positive ∧ s2 = chain_map)
       ∧ (splits chain_tree = true →
            rootp (right_of chain_tree) = Some p2
            ∧ rootp (left_of (split_t chain_tree)) = Some 1%positive
            ∧ lvl (split_t chain_tree) = lvl (right_of chain_tree) + 1
            ∧ RepC (heap s2) [] (Some p2)
            ∧ (∃ n, heap s2 !! p2 = Some n ∧ parent n = cpar (@nil (frame Z Z))
                  ∧ level n = lvl (right_of chain_tree) + 1)
            ∧ (@nil (frame Z Z) = [] → root_ (self s2) = Some p2))).
Proof.
  split_and!; [exact Repr_chain_map|reflexivity|by vm_compute|by vm_compute| |];
    apply (@C8_skew_and_split Z Z less_int [] chain_tree 1%positive chain_map
             Repr_chain_map eq_refl); by vm_compute.
Defined.

Lemma C4_witness :
  Repr spliced_map (plug [] spliced_tree)
  ∧ rootp spliced_tree = Some 2%positive
  ∧ levels_fit spliced_tree
  ∧ (∃ s1, @decreaseNodeLevel Z Z 2%positive spliced_map = Some (tt, s1)
       ∧ Repr s1 (plug [] (recompute_level spliced_tree)))
  ∧ (∃ s', @erase_round Z Z 2%positive spliced_map
             = Some ((cpar (@nil (frame Z Z)), level_drops spliced_tree), s')
       ∧ Repr s' (plug [] (if level_drops spliced_tree
                           then fix_t (recompute_level spliced_tree)
                           else spliced_tree))
       ∧ @erase_walk Z Z 1 (Some 2%positive) true spliced_map
           = @erase_walk Z Z 0 (cpar (@nil (frame Z Z))) (level_drops spliced_tree) s'
       ∧ (level_drops spliced_tree = false →
            @erase_walk Z Z 1 (Some 2%positive) true spliced_map
              = Some (tt, s'))).
Proof.
  assert (levels_fit spliced_tree) as Hfit by (by vm_compute).
  split_and!; [exact Repr_spliced_map|reflexivity|exact Hfit| |];
    apply (@C4_level_recomputation_of_erase Z Z [] spliced_tree
             2%positive spliced_map 0%nat Repr_spliced_map eq_refl Hfit).
Defined.

(** C4, as worded, against the code: after [erase] has taken the node of
    key 1 out of the map of the keys 1 to 5, the walk visits the node of
    key 2, on level 2, without a left child and with its right child on
    level 2.  Only one child is more than one level below, and the right
    child is not on the reduced level; [decreaseNodeLevel] lowers both
    nodes all the same. *)
Lemma C4_counterexample :
  bind (@run Z Z less_int 20 one_to_five)
       (λ _, @splice_leaf Z Z less_int 20 1) new_map
    = Some (Some 2%positive, spliced_map)
  ∧ Repr spliced_map spliced_tree
  ∧ recompute_level_both spliced_tree = spliced_tree
  ∧ ∃ s', @decreaseNodeLevel Z Z 2%positive spliced_map = Some (tt, s')
      ∧ Repr s' (recompute_level spliced_tree)
      ∧ ¬ Repr s' (recompute_level_both spliced_tree)
      ∧ ¬ Repr s' (lower_level_after spliced_tree).
Proof.
  split_and!; [by vm_compute|exact Repr_spliced_map|reflexivity|].
  destruct (decreaseNodeLevel_Repr [] spliced_tree 2%positive spliced_map
              Repr_spliced_map eq_refl) as (s1 & Hrun & Hrep & _).
  rewrite (dec_t_recompute spliced_tree) in Hrep by (by vm_compute).
  exists s1. split_and!; try done.
  - intros (_ & HR & _). destruct Hrep as (_ & HR' & _).
    simpl in HR, HR'. destruct HR as (Hc & _), HR' as (Hc' & _).
    rewrite Hc in Hc'. discriminate Hc'.
  - intros (_ & HR & _). destruct Hrep as (_ & HR' & _).
    simpl in HR, HR'. destruct HR as (_ & _ & Hc & _), HR' as (_ & _ & Hc' & _).
    rewrite Hc in Hc'. discriminate Hc'.
Qed.

(** C2, against the code: in the map of the pairs [(2, 20)], [(1, 10)] and
    [(3, 30)] the node of key 2 has two children and its successor is the
    node of key 3.  [erase(2)] keeps the node of key 2 and gives it the key
    of the successor, but the mapped value it holds afterwards is the one of
    the erased pair: the lookup of key 3 yields [(3, 20)], not [(3, 30)]. *)
Theorem C2_erase_loses_the_mapped_value_of_the_successor :
  @run Z Z less_int 20 two_one_three new_map = Some (tt, map_213)
  ∧ (∃ p l r, @find Z Z less_int 20 2 map_213 = Some (Some p, map_213)
       ∧ get_left p map_213 = Some (Some l, map_213)
       ∧ get_right p map_213 = Some (Some r, map_213)
       ∧ @find Z Z less_int 20 3 map_213 = Some (Some r, map_213)
       ∧ @find Z Z less_int 20 3 map_213_erased = Some (Some p, map_213_erased)
       ∧ heap map_213_erased !! r = None)
  ∧ @lookup_pair Z Z less_int 20 3 map_213 = Some ((3, 30), map_213)
  ∧ @erase Z Z less_int 20 2 map_213 = Some (tt, map_213_erased)
  ∧ @lookup_pair Z Z less_int 20 3 map_213_erased
      = Some ((3, 20), map_213_erased).
Proof.
  split_and!; try (by vm_compute).
  exists 1%positive, 2%positive, 3%positive. split_and!; by vm_compute.
Qed.

(** C3, against the code: under [less_tens] the keys 20 and 21 are
    equivalent, and [find(21)] yields the node of key 20.  [insert] of
    [(21, 9)] compares the keys with [==], takes 21 for a new key, creates a
    node, counts it and stores it as the right child of the node of key 20,
    in the place of the node of key 30, which is no longer found. *)
Theorem C3_insert_of_an_equivalent_key_inserts :
  @run Z Z less_tens 20 ten_twenty_thirty new_map = Some (tt, map_tens)
  ∧ @equivalent Z Z less_tens 20 21 = true
  ∧ (∃ p q, @find Z Z less_tens 20 21 map_tens = Some (Some p, map_tens)
       ∧ deref (Some p) map_tens = Some ((20, 2), map_tens)
       ∧ @insert Z Z less_tens 20 (21, 9) map_tens
           = Some ((Some q, true), map_tens_inserted)
       ∧ q ≠ p
       ∧ get_right p map_tens_inserted = Some (Some q, map_tens_inserted))
  ∧ getSize map_tens = Some (3, map_tens)
  ∧ getSize map_tens_inserted = Some (4, map_tens_inserted)
  ∧ (∃ r, @find Z Z less_tens 20 30 map_tens = Some (Some r, map_tens))
  ∧ @find Z Z less_tens 20 30 map_tens_inserted
      = Some (None, map_tens_inserted).
Proof.
  split_and!; try (by vm_compute).
  - exists 2%positive, 4%positive. split_and!; by vm_compute.
  - exists 3%positive. by vm_compute.
Qed.

(** * Further properties: balance, search, traversal, lifetime *)

Section Balance.

Context {Key T : Type} `{!MapParams Key T}.

Implicit Types (t l r : tree Key T).




End Balance.

Section Backward.

Context {Key T : Type} `{!MapParams Key T}.

Implicit Types (h : gmap ptr (@Node Key T)) (s : @State Key T).
Implicit Types (t l r : tree Key T) (c : list (frame Key T)).

Lemma last_inorder_N l p (kv : Key * T) lv r :
  last (inorder (N l p kv lv r)) = last ((p, kv) :: inorder r).
Proof. simpl. apply last_app_cons. Qed.

Lemma rightmost_Rep fuel h par t p :
  Rep h par t → rootp t = Some p → (height t ≤ fuel)%nat →
  rightmost fuel h p = fst <$> last (inorder t).
Proof.
  revert par t p. induction fuel as [|fuel IH]; intros par t p HR Hp Hf.
  { destruct t; simpl in *; [done|lia]. }
  destruct t as [|l p0 kv lv r]; [done|]. simpl in Hp. injection Hp as ->.
  pose proof HR as (Hp & Hl & Hr). rewrite last_inorder_N.
  cbn [rightmost]. rewrite Hp. cbn [mbind option_bind right].
  destruct r as [|rl pr kr lvr rr]; [done|]. simpl in Hf. cbn [rootp].
  rewrite (IH (Some p) (N rl pr kr lvr rr) pr); [|done|done|simpl; lia].
  rewrite last_cons.
  destruct (last (inorder (N rl pr kr lvr rr))) eqn:Hlast; [done|].
  apply last_None in Hlast. simpl in Hlast. by destruct (inorder rl).
Qed.

Lemma climb_left_Rep fuel h c p :
  RepC h c (Some p) → NoDup (p :: cptrs c) → (length c ≤ fuel)%nat →
  climb_left fuel h p (cpar c) = Some (fst <$> last (cbefore c)).
Proof.
  revert c p. induction fuel as [|fuel IH]; intros c p HR Hnd Hf.
  { destruct c; simpl in *; [done|lia]. }
  destruct c as [|f c]; [done|]. simpl in HR, Hf. destruct HR as (Hc & Hs & HR).
  cbn [cpar climb_left]. rewrite Hc. simpl.
  destruct f as [fp fkv flv fr|fl fp fkv flv]; simpl in *.
  - unfold ptr_eqb. rewrite bool_decide_eq_true_2 by done.
    apply IH; [done| |lia]. nodup_norm Hnd. nodup_split.
    apply NoDup_cons. split; [set_solver|done].
  - unfold ptr_eqb. rewrite bool_decide_eq_false_2.
    + by rewrite app_assoc, last_snoc.
    + apply rootp_ne. nodup_norm Hnd. nodup_split. done.
Qed.

Lemma prev_Rep fuel h c l p kv lv r :
  Rep h None (plug c (N l p kv lv r)) → NoDup (ptrs (plug c (N l p kv lv r))) →
  (height l ≤ fuel)%nat → (length c ≤ fuel)%nat →
  prev fuel h (Some p) = Some (fst <$> last (cbefore c ++ inorder l)).
Proof.
  intros HR Hnd Hf1 Hf2. apply Rep_plug in HR. destruct HR as [(Hp & Hl & Hr) HRc].
  rewrite ptrs_plug in Hnd. simpl. rewrite Hp. simpl.
  destruct l as [|ll pl kl lvl0 lr].
  - simpl. rewrite app_nil_r. apply climb_left_Rep; [done| |done].
    nodup_norm Hnd. nodup_split. apply NoDup_cons. split; [done|done].
  - cbn [rootp].
    rewrite (rightmost_Rep fuel h (Some p) (N ll pl kl lvl0 lr) pl); try done.
    rewrite last_app.
    destruct (last (inorder (N ll pl kl lvl0 lr))) eqn:Hlast; [done|].
    apply last_None in Hlast. simpl in Hlast. by destruct (inorder ll).
Qed.

End Backward.

Section Neighbours.

Context {Key T : Type} `{!MapParams Key T}.

Implicit Types (h : gmap ptr (@Node Key T)) (s : @State Key T).
Implicit Types (t l r : tree Key T) (c : list (frame Key T)).

(** [next] and [prev] at a position of the in-order sequence. *)
Lemma next_at h t A x B fuel :
  Rep h None t → NoDup (ptrs t) → inorder t = A ++ x :: B →
  (height t ≤ fuel)%nat →
  next fuel h (Some (fst x)) = Some (fst <$> head B).
Proof.
  intros HR Hnd Hin Hf.
  destruct (focus_at t [] A x B Hin) as (c & l & lv & r & Hp & _ & Ha).
  simpl in Hp, Ha. rewrite app_nil_r in Ha. subst t.
  pose proof (length_plug_le c (N l x.1 x.2 lv r)) as Hlen. simpl in Hlen.
  rewrite <- Ha. apply (next_Rep fuel h c l x.1 x.2 lv r); try done; lia.
Qed.

Lemma prev_at h t A x B fuel :
  Rep h None t → NoDup (ptrs t) → inorder t = A ++ x :: B →
  (height t ≤ fuel)%nat →
  prev fuel h (Some (fst x)) = Some (fst <$> last A).
Proof.
  intros HR Hnd Hin Hf.
  destruct (focus_at t [] A x B Hin) as (c & l & lv & r & Hp & Hb & _).
  simpl in Hp, Hb. subst t.
  pose proof (length_plug_le c (N l x.1 x.2 lv r)) as Hlen. simpl in Hlen.
  rewrite <- Hb. apply (prev_Rep fuel h c l x.1 x.2 lv r); try done; lia.
Qed.

Lemma value_at h t A x B :
  Rep h None t → inorder t = A ++ x :: B →
  ∃ n, h !! fst x = Some n ∧ value n = snd x.
Proof.
  intros HR Hin. apply (Rep_value h None t); [done|].
  rewrite Hin. destruct x. set_solver.
Qed.

(** The walk back from a node by [prev] visits the pairs up to that node in
    descending order. *)
Lemma iterate_back_Rep h t :
  Rep h None t → NoDup (ptrs t) →
  ∀ A B fuel,
    inorder t = A ++ B → (length A + height t ≤ fuel)%nat →
    iterate_back fuel h (fst <$> last A) = Some (reverse (A.*2)).
Proof.
  intros HR Hnd A. induction A as [|x A IH] using rev_ind; intros B fuel Hin Hf.
  { by destruct fuel. }
  rewrite length_app in Hf. simpl in Hf.
  destruct fuel as [|fuel]; [lia|].
  rewrite last_snoc. rewrite <- app_assoc in Hin. simpl in Hin.
  destruct (value_at h t A x B HR Hin) as (n & Hn & Hv).
  cbn [iterate_back fmap option_fmap option_map].
  rewrite Hn. cbn [mbind option_bind].
  rewrite (prev_at h t A x B fuel HR Hnd Hin) by lia. cbn [mbind option_bind].
  rewrite (IH (x :: B) fuel Hin) by lia. cbn [mbind option_bind].
  by rewrite fmap_app, reverse_app, Hv.
Qed.

End Neighbours.

Section Search.

Context {Key T : Type} `{!MapParams Key T} `{!MapParamsOk}.

Implicit Types (h : gmap ptr (@Node Key T)) (s : @State Key T).
Implicit Types (t l r : tree Key T) (c : list (frame Key T)).

(** A search that ends at an empty place has passed every key of the tree
    on the side it is on. *)
Lemma descend_E_none k t c :
  bst t → descend k [] t = (c, E) →
  ∀ x, x ∈ inorder t → equivalent (fst (snd x)) k = false.
Proof.
  intros Hb Hd x Hx.
  pose proof (descend_plug _ _ _ _ _ Hd) as Hpl. simpl in Hpl. subst t.
  pose proof (descend_path _ _ _ _ _ Hd ltac:(constructor)) as Hpath.
  rewrite inorder_plug in Hx. simpl in Hx. unfold equivalent.
  apply elem_of_app in Hx as [Hx|Hx].
  - by rewrite (path_before k c E x Hpath Hb Hx).
  - rewrite (path_after k c E x Hpath Hb Hx). apply andb_false_r.
Qed.

Lemma descend_N_in k t c l p kv lv r :
  descend k [] t = (c, N l p kv lv r) → (p, kv) ∈ inorder t.
Proof.
  intros Hd. pose proof (descend_plug _ _ _ _ _ Hd) as Hpl. simpl in Hpl.
  rewrite <- Hpl, inorder_plug. simpl. set_solver.
Qed.

(** The keys of a search tree on the two sides of one of them. *)
Lemma bst_sides t A x B :
  bst t → inorder t = A ++ x :: B →
  (∀ y, y ∈ A → equivalent (fst (snd y)) (fst (snd x)) = false)
  ∧ (∀ y, y ∈ B → equivalent (fst (snd y)) (fst (snd x)) = false).
Proof.
  unfold bst. intros Hb Hin. rewrite Hin in Hb.
  apply StronglySorted_app in Hb. destruct Hb as (H1 & H2 & H3).
  apply StronglySorted_cons in H3. destruct H3 as [H3 H4].
  rewrite Forall_forall in H3. split; intros y Hy.
  - apply lt_key_not_equiv. apply H1; [done|]. set_solver.
  - apply lt_key_not_equiv_r. by apply H3.
Qed.

Lemma erase_t_keys k t c l p kv lv r :
  descend k [] t = (c, N l p kv lv r) →
  ∃ A B, inorder t = A ++ (p, kv) :: B
    ∧ keys (erase_t k t) = A.*2.*1 ++ B.*2.*1.
Proof.
  intros Hd.
  destruct (erase_t_inorder _ _ _ _ _ _ _ _ Hd)
    as (A & B & Ht & [[He _]|(q & kq & B' & -> & _ & _ & He)]);
    exists A; eexists; (split; [exact Ht|]);
    unfold keys, pairs; rewrite He, !fmap_app; [done|].
  by rewrite !fmap_cons.
Qed.

End Search.

Section Lifetime.

Context {Key T : Type} `{!MapParams Key T}.

Implicit Types (h : gmap ptr (@Node Key T)) (s : @State Key T).
Implicit Types (t l r : tree Key T) (c : list (frame Key T)).

Lemma Rep_same h h' par t :
  (∀ x, x ∈ ptrs t → h' !! x = h !! x) → Rep h par t → Rep h' par t.
Proof.
  revert par. induction t as [|l IHl p kv lv r IHr]; intros par Hag; simpl;
    [done|].
  intros (Hp & Hl & Hr). split_and!.
  - rewrite Hag; [done|set_solver].
  - apply IHl; [|done]. intros x Hx. apply Hag. set_solver.
  - apply IHr; [|done]. intros x Hx. apply Hag. set_solver.
Qed.

(** [delete] of the root of a tree releases the nodes of the tree, each
    one once, and nothing else. *)
Lemma Node_delete_Rep fuel : ∀ t par s,
  Rep (heap s) par t → NoDup (ptrs t) → (height t ≤ fuel)%nat →
  ∃ s',
    match rootp t return @M Key T unit with
    | Some p => Node_delete fuel p
    | None => ret tt
    end s = Some (tt, s')
    ∧ (∀ x, x ∈ ptrs t → heap s' !! x = None)
    ∧ (∀ x, x ∉ ptrs t → heap s' !! x = heap s !! x)
    ∧ self s' = self s.
Proof.
  induction fuel as [|fuel IH]; intros t par s HR Hnd Hf.
  { destruct t; [|simpl in Hf; lia]. exists s. simpl.
    split_and!; try done. set_solver. }
  destruct t as [|l p kv lv r].
  { exists s. simpl. split_and!; try done. set_solver. }
  simpl in HR, Hf, Hnd. destruct HR as (Hp & HRl & HRr).
  apply NoDup_cons in Hnd as [Hpn Hnd].
  apply not_elem_of_app in Hpn as [Hpl Hpr].
  apply NoDup_app in Hnd as (Hndl & Hdisj & Hndr).
  destruct (IH l (Some p) s HRl Hndl ltac:(lia))
    as (s1 & Hrun1 & Hgone1 & Hkeep1 & Hself1).
  assert (Rep (heap s1) (Some p) r) as HRr1.
  { eapply Rep_same; [|exact HRr]. intros x Hx. apply Hkeep1.
    intros Hxl. by apply (Hdisj x). }
  destruct (IH r (Some p) s1 HRr1 Hndr ltac:(lia))
    as (s2 & Hrun2 & Hgone2 & Hkeep2 & Hself2).
  assert (heap s2 !! p = heap s !! p) as Hp2.
  { by rewrite Hkeep2, Hkeep1. }
  exists (mkState (delete p (heap s2)) (self s2)). split_and!.
  - cbn [rootp Node_delete]. erewrite bind_load by exact Hp.
    cbn [left right]. erewrite bind_run by exact Hrun1.
    erewrite bind_run by exact Hrun2. unfold release. by rewrite Hp2, Hp.
  - intros x. simpl. rewrite elem_of_cons, elem_of_app.
    intros [->|[Hx|Hx]].
    + apply lookup_delete_eq.
    + rewrite lookup_delete_ne by (by intros ->).
      rewrite Hkeep2; [by apply Hgone1|]. by apply Hdisj.
    + rewrite lookup_delete_ne by (by intros ->). by apply Hgone2.
  - intros x. simpl. rewrite not_elem_of_cons, not_elem_of_app.
    intros (Hxp & Hxl & Hxr).
    rewrite lookup_delete_ne by done. by rewrite Hkeep2, Hkeep1.
  - simpl. by rewrite Hself2.
Qed.

Lemma delete_root_Repr fuel s t :
  Repr s t → (height t ≤ fuel)%nat →
  ∃ s', delete_root fuel s = Some (tt, s')
    ∧ (∀ x, x ∈ ptrs t → heap s' !! x = None)
    ∧ (∀ x, x ∉ ptrs t → heap s' !! x = heap s !! x)
    ∧ self s' = self s.
Proof.
  intros (Hnd & HR & Hroot) Hf. unfold delete_root, get_root.
  rewrite bind_bind, bind_get_self, bind_ret, Hroot.
  by apply (Node_delete_Rep fuel t None s).
Qed.

End Lifetime.

Section Assignment.

Context {Key T : Type} `{!MapParams Key T} `{!MapParamsOk}.

Implicit Types (h : gmap ptr (@Node Key T)) (s : @State Key T).
Implicit Types (t l r : tree Key T) (c : list (frame Key T)).


End Assignment.

Section Programs.

Context {Key T : Type} `{!MapParams Key T} `{!MapParamsOk}.

Implicit Types (h : gmap ptr (@Node Key T)) (s : @State Key T).
Implicit Types (t l r : tree Key T) (c : list (frame Key T)).

Lemma run_app fuel (ops1 ops2 : list (@op Key T)) s :
  run fuel (ops1 ++ ops2) s = bind (run fuel ops1) (λ _, run fuel ops2) s.
Proof.
  revert s. induction ops1 as [|o ops1 IH]; intros s; simpl; [done|].
  rewrite bind_bind. destruct (step fuel o s) as [[[] s1]|] eqn:Hs.
  - erewrite !bind_run by exact Hs. apply IH.
  - unfold bind at 1 2. by rewrite Hs.
Qed.

Lemma equivalent_sym (a b : Key) : equivalent a b = equivalent b a.
Proof. unfold equivalent. apply andb_comm. Qed.

Lemma keys_nil t : keys t = [] → t = E.
Proof.
  unfold keys, pairs. destruct t as [|l p kv lv r]; [done|]. simpl.
  rewrite !fmap_app, !fmap_cons. by destruct ((inorder l).*2.*1).
Qed.

Lemma keys_in t k : k ∈ keys t → ∃ p kv, (p, kv) ∈ inorder t ∧ fst kv = k.
Proof.
  unfold keys, pairs. intros Hk.
  apply list_elem_of_fmap in Hk as (kv & -> & Hk).
  apply list_elem_of_fmap in Hk as ([p kv'] & -> & Hk). by exists p, kv'.
Qed.

(** Inserting pairs whose keys are new and pairwise not equivalent adds
    their keys. *)
Lemma run_inserts fuel (vs : list (Key * T)) : ∀ s t,
  Inv s t →
  (∀ v x, v ∈ vs → x ∈ keys t → equivalent x (fst v) = false) →
  distinct_keys (vs.*1) →
  Z.of_nat (nodes t + length vs) + 1 < size_type_modulus →
  (3 * (nodes t + length vs) ≤ fuel)%nat →
  ∃ s' t', run fuel (Insert <$> vs) s = Some (tt, s') ∧ Inv s' t'
    ∧ keys t' ≡ₚ vs.*1 ++ keys t.
Proof.
  induction vs as [|v vs IH]; intros s t HI Hnew Hdist Hbound Hf.
  { exists s, t. by split_and!. }
  simpl in Hdist, Hbound, Hf. destruct Hdist as [Hv Hdist].
  assert (∀ x, x ∈ pairs t → equivalent (fst x) (fst v) = false) as Hne.
  { intros x Hx. apply (Hnew v); [set_solver|].
    unfold keys. by apply list_elem_of_fmap_2. }
  assert (∀ x, x ∈ inorder t → equivalent (fst (snd x)) (fst v) = false) as Hne'.
  { intros x Hx. apply Hne. unfold pairs. by apply list_elem_of_fmap_2. }
  pose proof (descend_absent (fst v) t [] Hne') as Hd.
  destruct (descend (fst v) [] t) as [c u] eqn:Hdc. simpl in Hd. subst u.
  destruct (insert_new_Inv fuel v s t c HI Hdc ltac:(lia) ltac:(lia))
    as (s1 & _ & R & Hrun & _ & HI1 & _ & _ & HinR & Hint).
  assert (keys R ≡ₚ fst v :: keys t) as HkR.
  { unfold keys, pairs. rewrite HinR, Hint, !fmap_app, !fmap_cons. simpl.
    by rewrite Permutation_middle. }
  assert (nodes R = S (nodes t)) as HnR.
  { rewrite !nodes_inorder, HinR, Hint, !length_app. simpl. lia. }
  destruct (IH s1 R HI1) as (s' & t' & Hrun' & HI' & Hk'); try done; try lia.
  { intros v' x Hv' Hx. rewrite HkR in Hx. apply elem_of_cons in Hx as [->|Hx].
    - rewrite Forall_forall in Hv. rewrite equivalent_sym. apply Hv.
      by apply list_elem_of_fmap_2.
    - apply (Hnew v'); [set_solver|done]. }
  exists s', t'. split_and!; try done.
  - simpl. rewrite bind_bind. erewrite bind_run by exact Hrun.
    by rewrite bind_ret.
  - rewrite Hk', HkR. simpl. by rewrite Permutation_middle.
Qed.

(** Erasing the keys of a map, in any order, empties it. *)
Lemma run_erases fuel (ks : list Key) : ∀ s t,
  Inv s t → keys t ≡ₚ ks →
  Z.of_nat (nodes t) + 1 < size_type_modulus →
  (nodes t < fuel ∨ ks = [])%nat →
  ∃ s', run fuel (Erase <$> ks) s = Some (tt, s') ∧ Inv s' (E : tree Key T).
Proof.
  induction ks as [|k ks IH]; intros s t HI Hk Hbound Hf.
  { apply Permutation_nil_r in Hk. apply keys_nil in Hk. subst t. by exists s. }
  destruct Hf as [Hf|Hf]; [|done].
  destruct (keys_in t k) as (p & kv & Hin & <-); [rewrite Hk; set_solver|].
  destruct (descend_finds t [] p kv) as (c & l & lv & r & Hd); [apply HI|done|].
  destruct (erase_Inv fuel (fst kv) s t HI Hbound Hf) as (s1 & Hrun & HI1).
  destruct (erase_t_keys _ _ _ _ _ _ _ _ Hd) as (A & B & Ht & Hk1).
  assert (keys t = A.*2.*1 ++ fst kv :: B.*2.*1) as Hkt.
  { unfold keys, pairs. by rewrite Ht, !fmap_app, !fmap_cons. }
  pose proof (erase_nodes (fst kv) t) as Hn1.
  destruct (IH s1 (erase_t (fst kv) t) HI1) as (s' & Hrun' & HI'); try lia.
  { rewrite Hk1. rewrite Hkt in Hk. rewrite <- Permutation_middle in Hk.
    by apply Permutation_cons_inv in Hk. }
  exists s'. split; [|done]. simpl. by erewrite bind_run by exact Hrun.
Qed.

End Programs.

(** * Further properties of the map *)

Section Extras.

Context {Key T : Type} `{!MapParams Key T} `{!MapParamsOk}.

Implicit Types (h : gmap ptr (@Node Key T)) (s : @State Key T).
Implicit Types (t l r R : tree Key T) (c : list (frame Key T)).

Lemma find_descend fuel k s t :
  Inv s t → (nodes t < fuel)%nat →
  find fuel k s = Some (rootp (descend k [] t).2, s).
Proof.
  intros HI Hf. apply findNode_Repr; [apply HI|].
  pose proof (height_le_nodes t). lia.
Qed.

Lemma deref_in s t p kv :
  Repr s t → (p, kv) ∈ inorder t → deref (Some p) s = Some (kv, s).
Proof.
  intros (_ & HR & _) Hin.
  destruct (Rep_value (heap s) None t p kv HR Hin) as (n & Hn & Hv).
  simpl. unfold get_value. erewrite bind_load by exact Hn. by rewrite Hv.
Qed.

Lemma pairs_none_inorder k t :
  (∀ x, x ∈ pairs t → equivalent (fst x) k = false) →
  ∀ x, x ∈ inorder t → equivalent (fst (snd x)) k = false.
Proof. intros Hne x Hx. apply Hne. by apply list_elem_of_fmap_2. Qed.

Lemma inorder_none_pairs k t :
  (∀ x, x ∈ inorder t → equivalent (fst (snd x)) k = false) →
  ∀ x, x ∈ pairs t → equivalent (fst x) k = false.
Proof.
  intros Hne x Hx. apply list_elem_of_fmap in Hx as (y & -> & Hy). by apply Hne.
Qed.

(** X1: [erase] of a key that no stored key is equivalent to, in
    particular on the empty map, changes nothing. *)
Theorem X1_erase_of_an_absent_key fuel k s t :
  Inv s t →
  (∀ x, x ∈ pairs t → equivalent (fst x) k = false) →
  (nodes t < fuel)%nat →
  erase fuel k s = Some (tt, s).
Proof.
  intros HI Hne Hf. unfold erase, get_root.
  rewrite bind_bind, bind_get_self, bind_ret.
  destruct (root_ (self s)) as [rt|]; [|done].
  fold (find fuel k). erewrite bind_run by (by apply (find_descend fuel k s t)).
  by rewrite (descend_absent k t [] (pairs_none_inorder k t Hne)).
Qed.

(** X2: [erase] of a stored key removes that key and no other: the keys in
    order are the former ones without it, [find] of the key yields [end()],
    [contains] is false and [getSize] is one less. *)
Theorem X2_erase_of_a_stored_key fuel s t p kv :
  Inv s t → (p, kv) ∈ inorder t →
  Z.of_nat (nodes t) + 1 < size_type_modulus →
  (nodes t < fuel)%nat →
  ∃ s' t' A B,
    erase fuel (fst kv) s = Some (tt, s') ∧ Inv s' t'
    ∧ keys t = A ++ fst kv :: B ∧ keys t' = A ++ B
    ∧ find fuel (fst kv) s' = Some (None, s')
    ∧ contains fuel (fst kv) s' = Some (false, s')
    ∧ getSize s' = Some (size_ (self s) - 1, s').
Proof.
  intros HI Hin Hbound Hf.
  destruct (descend_finds t [] p kv) as (c & l & lv & r & Hd); [apply HI|done|].
  destruct (erase_Inv fuel (fst kv) s t HI Hbound Hf) as (s' & Hrun & HI').
  destruct (erase_t_keys _ _ _ _ _ _ _ _ Hd) as (A & B & Ht & Hk).
  assert (Hbst : bst t) by apply HI.
  destruct (bst_sides t A (p, kv) B Hbst Ht) as [HA HB].
  assert ((nodes (erase_t (fst kv) t) < fuel)%nat) as Hf'.
  { pose proof (erase_nodes (fst kv) t). lia. }
  assert (find fuel (fst kv) s' = Some (None, s')) as Hfind.
  { rewrite (find_descend fuel (fst kv) s' _ HI' Hf').
    rewrite descend_absent; [done|]. intros x Hx.
    assert (fst (snd x) ∈ keys (erase_t (fst kv) t)) as Hxk.
    { unfold keys, pairs. by do 2 apply list_elem_of_fmap_2. }
    rewrite Hk in Hxk. apply elem_of_app in Hxk as [Hxk|Hxk];
      apply list_elem_of_fmap in Hxk as (y & -> & Hy);
      apply list_elem_of_fmap in Hy as (z & -> & Hz); simpl.
    - by apply HA.
    - by apply HB. }
  exists s', (erase_t (fst kv) t), (A.*2.*1), (B.*2.*1).
  split_and!; try done.
  - unfold keys, pairs. by rewrite Ht, !fmap_app, !fmap_cons.
  - unfold contains. fold (find fuel (fst kv)).
    by erewrite bind_run by exact Hfind.
  - unfold getSize, get_size. rewrite bind_get_self. unfold ret. do 2 f_equal.
    destruct HI as (_ & _ & _ & _ & Hsz & _).
    destruct HI' as (_ & _ & _ & _ & Hsz' & _).
    rewrite Hsz', Hsz, (nodes_inorder (erase_t _ _)), erase_t_length, Hd.
    simpl. rewrite (nodes_inorder t), Ht, length_app. simpl. lia.
Qed.

(** X3: [erase] of the key of a node that has at most one child releases
    that node and keeps every other pair at its node, in the same order:
    the iteration afterwards visits the former pairs without the erased
    one. *)
Theorem X3_erase_keeps_the_other_pairs fuel s t p kv n :
  Inv s t → (p, kv) ∈ inorder t →
  heap s !! p = Some n → left n = None ∨ right n = None →
  Z.of_nat (nodes t) + 1 < size_type_modulus →
  (2 * nodes t < fuel)%nat →
  ∃ s' t' A B,
    erase fuel (fst kv) s = Some (tt, s') ∧ Inv s' t'
    ∧ inorder t = A ++ (p, kv) :: B ∧ inorder t' = A ++ B
    ∧ iterate fuel s = Some (A.*2 ++ kv :: B.*2, s)
    ∧ iterate fuel s' = Some (A.*2 ++ B.*2, s').
Proof.
  intros HI Hin Hn Hchild Hbound Hf.
  destruct (descend_finds t [] p kv) as (c & l & lv & r & Hd); [apply HI|done|].
  destruct (erase_Inv fuel (fst kv) s t HI Hbound ltac:(lia)) as (s' & Hrun & HI').
  pose proof (descend_plug _ _ _ _ _ Hd) as Hpl. simpl in Hpl.
  assert (l = E ∨ r = E) as Hlr.
  { assert (Repr s (plug c (N l p kv lv r))) as Hrep by (rewrite Hpl; apply HI).
    rewrite (Repr_cell _ _ _ _ _ _ _ Hrep) in Hn. injection Hn as <-.
    simpl in Hchild. destruct Hchild; [left; by destruct l|right; by destruct r]. }
  destruct (erase_t_inorder _ _ _ _ _ _ _ _ Hd)
    as (A & B & Ht & [[He _]|(q & kq & B' & _ & Hl & Hr & _)]);
    [|by destruct Hlr].
  pose proof (height_le_nodes t) as Hh.
  pose proof (height_le_nodes (erase_t (fst kv) t)) as Hh'.
  pose proof (erase_nodes (fst kv) t) as Hn'.
  exists s', (erase_t (fst kv) t), A, B. split_and!; try done.
  - rewrite (iterate_Inv fuel s t HI) by lia. unfold pairs.
    by rewrite Ht, fmap_app, fmap_cons.
  - rewrite (iterate_Inv fuel s' _ HI') by lia. unfold pairs.
    by rewrite He, fmap_app.
Qed.

(** X4: [erase] of the key of a node with two children keeps that node and
    releases the place of its successor in the order: the node gets the key
    of the successor and keeps its own mapped value; every other pair stays
    at its node. *)
Theorem X4_erase_of_a_node_with_two_children fuel s t p kv n lp rp :
  Inv s t → (p, kv) ∈ inorder t →
  heap s !! p = Some n → left n = Some lp → right n = Some rp →
  Z.of_nat (nodes t) + 1 < size_type_modulus →
  (2 * nodes t < fuel)%nat →
  ∃ s' t' A q kq B,
    erase fuel (fst kv) s = Some (tt, s') ∧ Inv s' t'
    ∧ inorder t = A ++ (p, kv) :: (q, kq) :: B
    ∧ inorder t' = A ++ (p, (fst kq, snd kv)) :: B
    ∧ next fuel (heap s) (Some p) = Some (Some q)
    ∧ deref (Some p) s' = Some ((fst kq, snd kv), s')
    ∧ iterate fuel s' = Some (A.*2 ++ (fst kq, snd kv) :: B.*2, s').
Proof.
  intros HI Hin Hn Hl Hr Hbound Hf.
  destruct (descend_finds t [] p kv) as (c & l & lv & r & Hd); [apply HI|done|].
  destruct (erase_Inv fuel (fst kv) s t HI Hbound ltac:(lia)) as (s' & Hrun & HI').
  pose proof (descend_plug _ _ _ _ _ Hd) as Hpl. simpl in Hpl.
  assert (l ≠ E ∧ r ≠ E) as [Hl' Hr'].
  { assert (Repr s (plug c (N l p kv lv r))) as Hrep by (rewrite Hpl; apply HI).
    rewrite (Repr_cell _ _ _ _ _ _ _ Hrep) in Hn. injection Hn as <-.
    simpl in Hl, Hr. split; intros ->; done. }
  destruct (erase_t_inorder _ _ _ _ _ _ _ _ Hd)
    as (A & B & Ht & [[_ [->| ->]]|(q & kq & B' & -> & _ & _ & He)]);
    try done.
  pose proof (height_le_nodes t) as Hh.
  pose proof (height_le_nodes (erase_t (fst kv) t)) as Hh'.
  pose proof (erase_nodes (fst kv) t) as Hn'.
  exists s', (erase_t (fst kv) t), A, q, kq, B'. split_and!; try done.
  - destruct HI as ((Hnd & HR & _) & _).
    by apply (next_at (heap s) t A (p, kv) ((q, kq) :: B') fuel HR Hnd Ht);
      lia.
  - apply (deref_in s' (erase_t (fst kv) t)); [apply HI'|].
    rewrite He. set_solver.
  - rewrite (iterate_Inv fuel s' _ HI') by lia. unfold pairs.
    by rewrite He, fmap_app, fmap_cons.
Qed.

(** X5: [find] yields a node whose key is equivalent to the key looked up,
    or [end()] when no stored key is equivalent to it; [contains] tells
    which. *)
Theorem X5_find_and_contains fuel k s t :
  Inv s t → (nodes t < fuel)%nat →
  ∃ res, find fuel k s = Some (res, s)
    ∧ contains fuel k s = Some (bool_decide (res ≠ None), s)
    ∧ match res with
      | Some p =>
        ∃ kv, (p, kv) ∈ inorder t ∧ equivalent (fst kv) k = true
          ∧ deref (Some p) s = Some (kv, s)
      | None => ∀ x, x ∈ pairs t → equivalent (fst x) k = false
      end.
Proof.
  intros HI Hf. pose proof (find_descend fuel k s t HI Hf) as Hfind.
  exists (rootp (descend k [] t).2). split_and!; try done.
  - unfold contains. fold (find fuel k). by erewrite bind_run by exact Hfind.
  - destruct (descend k [] t) as [c u] eqn:Hd. simpl.
    destruct u as [|l p kv lv r]; simpl.
    + apply inorder_none_pairs. apply (descend_E_none k t c); [apply HI|done].
    + exists kv. pose proof (descend_N_in _ _ _ _ _ _ _ _ Hd) as Hin.
      split_and!; try done.
      * by apply (descend_found _ _ _ _ _ _ _ _ _ Hd).
      * apply (deref_in s t); [apply HI|done].
Qed.

(** X6: [insert] of a new key keeps every stored pair at its node and in
    its place in the order; the iteration afterwards visits the former
    pairs and the new one among them. *)
Theorem X6_insert_keeps_the_other_pairs fuel (v : Key * T) s t :
  Inv s t →
  (∀ x, x ∈ pairs t → equivalent (fst x) (fst v) = false) →
  Z.of_nat (nodes t) + 2 < size_type_modulus →
  (3 * nodes t + 3 ≤ fuel)%nat →
  ∃ p s' t' A B,
    insert fuel v s = Some ((Some p, true), s') ∧ Inv s' t'
    ∧ inorder t = A ++ B ∧ inorder t' = A ++ (p, v) :: B
    ∧ iterate fuel s = Some (A.*2 ++ B.*2, s)
    ∧ iterate fuel s' = Some (A.*2 ++ v :: B.*2, s').
Proof.
  intros HI Hne Hbound Hf.
  pose proof (descend_absent (fst v) t [] (pairs_none_inorder _ t Hne)) as Hd.
  destruct (descend (fst v) [] t) as [c u] eqn:Hdc. simpl in Hd. subst u.
  destruct (insert_new_Inv fuel v s t c HI Hdc Hbound Hf)
    as (s1 & _ & R & Hrun & _ & HI1 & _ & _ & HinR & Hint).
  pose proof (height_le_nodes t) as Hh.
  pose proof (height_le_nodes R) as Hh'.
  assert (nodes R = S (nodes t)) as HnR.
  { rewrite !nodes_inorder, HinR, Hint, !length_app. simpl. lia. }
  exists (alloc (heap s)), s1, R, (cbefore c), (cafter c).
  split_and!; try done.
  - rewrite (iterate_Inv fuel s t HI) by lia. unfold pairs.
    by rewrite Hint, fmap_app.
  - rewrite (iterate_Inv fuel s1 R HI1) by lia. unfold pairs.
    by rewrite HinR, fmap_app, fmap_cons.
Qed.

(** X7: [next] yields the node that follows in the order, or null after
    the last one; [prev] yields the node that precedes, or null before the
    first one; so [prev] undoes [next] and [next] undoes [prev]. *)
Theorem X7_next_and_prev_are_inverse fuel s t A x B :
  Inv s t → inorder t = A ++ x :: B → (nodes t ≤ fuel)%nat →
  next fuel (heap s) (Some (fst x)) = Some (fst <$> head B)
  ∧ prev fuel (heap s) (Some (fst x)) = Some (fst <$> last A)
  ∧ (∀ q, next fuel (heap s) (Some (fst x)) = Some (Some q) →
          prev fuel (heap s) (Some q) = Some (Some (fst x)))
  ∧ (∀ q, prev fuel (heap s) (Some (fst x)) = Some (Some q) →
          next fuel (heap s) (Some q) = Some (Some (fst x))).
Proof.
  intros ((Hnd & HR & _) & _) Hin Hf.
  pose proof (height_le_nodes t) as Hh.
  pose proof (next_at (heap s) t A x B fuel HR Hnd Hin ltac:(lia)) as Hnx.
  pose proof (prev_at (heap s) t A x B fuel HR Hnd Hin ltac:(lia)) as Hpv.
  split_and!; try done.
  - intros q. rewrite Hnx. destruct B as [|y B]; [done|].
    intros [= <-].
    assert (inorder t = (A ++ [x]) ++ y :: B) as Hin' by (by rewrite <- app_assoc).
    pose proof (prev_at (heap s) t (A ++ [x]) y B fuel HR Hnd Hin' ltac:(lia))
      as Hp2.
    by rewrite last_snoc in Hp2.
  - intros q. rewrite Hpv. destruct A as [|y A _] using rev_ind; [done|].
    rewrite last_snoc. intros [= <-]. rewrite <- app_assoc in Hin.
    apply (next_at (heap s) t A y (x :: B) fuel HR Hnd Hin). lia.
Qed.

(** X8: the walk back from a node by [prev] visits the pairs up to that
    node in descending order: from the last node, the pairs of the forward
    iteration in reverse. *)
Theorem X8_backward_iteration fuel s t A B :
  Inv s t → inorder t = A ++ B → (2 * nodes t ≤ fuel)%nat →
  iterate_back fuel (heap s) (fst <$> last A) = Some (reverse (A.*2))
  ∧ (B = [] → ∃ kvs, iterate fuel s = Some (kvs, s)
        ∧ iterate_back fuel (heap s) (fst <$> last A) = Some (reverse kvs)).
Proof.
  intros HI Hin Hf. pose proof HI as ((Hnd & HR & _) & _).
  pose proof (height_le_nodes t) as Hh.
  assert (length A ≤ nodes t)%nat as Hlen.
  { rewrite nodes_inorder, Hin, length_app. lia. }
  pose proof (iterate_back_Rep (heap s) t HR Hnd A B fuel Hin ltac:(lia)) as Hb.
  split; [done|]. intros ->. rewrite app_nil_r in Hin.
  exists (pairs t). split.
  - apply iterate_Inv; [done|lia].
  - rewrite Hb. unfold pairs. by rewrite Hin.
Qed.

(** X9: the copy constructor builds a tree of the same shape, pairs and
    levels at addresses that were not in use, so the copy shares no node
    with its source; the source is untouched, and both maps iterate over
    the same pairs and have the same size. *)
Theorem X9_copy_constructor_is_a_deep_copy fuel s t :
  Inv s t → (2 * nodes t ≤ fuel)%nat →
  ∃ s' t',
    Map_copy fuel (self s) s = Some (tt, s') ∧ Inv s' t'
    ∧ shape t' = shape t
    ∧ (∀ x, x ∈ ptrs t' → heap s !! x = None ∧ x ∉ ptrs t)
    ∧ heap s ⊆ heap s'
    ∧ Inv (mkState (heap s') (self s)) t
    ∧ iterate fuel s' = Some (pairs t, s')
    ∧ iterate fuel s = Some (pairs t, s)
    ∧ size_ (self s') = size_ (self s).
Proof.
  intros HI Hf. pose proof (height_le_nodes t) as Hh.
  destruct (Map_copy_Inv fuel s t HI ltac:(lia))
    as (s' & t' & Hrun & HI' & Hsh & Hsub & Hfr).
  exists s', t'. split_and!; try done.
  - intros x Hx. split; [by apply Hfr|].
    intros Hxt. destruct HI as ((_ & HR & _) & _).
    destruct (Rep_lookup _ _ _ _ HR Hxt) as [n Hn].
    rewrite (Hfr x Hx) in Hn. done.
  - destruct HI as ((Hnd & HR & Hroot) & Hrest).
    unfold Inv, Repr. simpl. split_and!; try done; try apply Hrest.
    by eapply Rep_mono.
  - rewrite <- (shape_pairs t t' Hsh). apply iterate_Inv; [done|].
    rewrite (shape_nodes t t' Hsh).
    pose proof (height_le_nodes t'). rewrite (shape_nodes t t' Hsh) in *. lia.
  - apply iterate_Inv; [done|lia].
  - destruct HI as (_ & _ & _ & _ & Hsz & _).
    destruct HI' as (_ & _ & _ & _ & Hsz' & _).
    by rewrite Hsz, Hsz', (shape_nodes t t' Hsh).
Qed.

(** X10: the destructor releases every node of the tree, each one once,
    touches no other cell of the store, and leaves the map without root,
    first node and elements. *)
Theorem X10_destructor_releases_the_tree fuel s t :
  Inv s t → (nodes t ≤ fuel)%nat →
  ∃ s', Map_destroy fuel s = Some (tt, s')
    ∧ (∀ x, x ∈ ptrs t → is_Some (heap s !! x) ∧ heap s' !! x = None)
    ∧ (∀ x, x ∉ ptrs t → heap s' !! x = heap s !! x)
    ∧ self s' = mkMap None None None 0.
Proof.
  intros HI Hf. pose proof (height_le_nodes t) as Hh.
  destruct HI as (Hrep & _ & _ & _ & _ & He).
  destruct (delete_root_Repr fuel s t Hrep ltac:(lia))
    as (s1 & Hrun & Hgone & Hkeep & Hself).
  destruct s1 as [h1 m1]. simpl in *. subst m1.
  eexists. split.
  { unfold Map_destroy. erewrite bind_run by exact Hrun.
    munfold. repeat mstep. }
  simpl. rewrite He. split_and!; try done.
  intros x Hx. split; [|by apply Hgone].
  destruct Hrep as (_ & HR & _). by apply (Rep_lookup _ _ _ _ HR).
Qed.


(** X12: move assignment takes over the tree of the other map and leaves
    that map empty, but it never releases a node: the nodes the map held
    before are still in the store, and no longer part of any map. *)
Theorem X12_move_assignment_keeps_the_old_nodes s t other t2 :
  Inv s t → Inv (mkState (heap s) other) t2 →
  (∀ x, x ∈ ptrs t → x ∉ ptrs t2) →
  ∃ s' other',
    Map_move_assign other s = Some (other', s')
    ∧ Inv s' t2
    ∧ Inv (mkState (heap s') other') E
    ∧ heap s' = heap s
    ∧ (∀ x, x ∈ ptrs t → is_Some (heap s' !! x) ∧ x ∉ ptrs t2).
Proof.
  intros (Hrep & _ & _ & _ & _ & He)
         ((Hnd2 & HR2 & Hroot2) & Hb2 & Haa2 & Hbi2 & Hsz2 & He2) Hdisj.
  simpl in *. eexists _, _. split.
  { unfold Map_move_assign. munfold. repeat mstep. }
  unfold Inv, Repr. simpl. split_and!; try done; try (by constructor).
  intros x Hx. split; [|by apply Hdisj].
  destruct Hrep as (_ & HR & _). by apply (Rep_lookup _ _ _ _ HR).
Qed.



(** X15: inserting pairs whose keys are pairwise not equivalent into an
    empty map stores all of them, and erasing their keys afterwards, in any
    order, leaves the map empty: no root, no first node, size 0. *)
Theorem X15_insert_all_then_erase_all fuel (vs : list (Key * T)) ks h0 :
  distinct_keys (vs.*1) → ks ≡ₚ vs.*1 →
  Z.of_nat (length vs) + 1 < size_type_modulus →
  (3 * length vs ≤ fuel)%nat →
  ∃ s1 s',
    run fuel (Insert <$> vs) (mkState h0 Map_new) = Some (tt, s1)
    ∧ getSize s1 = Some (Z.of_nat (length vs), s1)
    ∧ run fuel ((Insert <$> vs) ++ (Erase <$> ks)) (mkState h0 Map_new)
        = Some (tt, s')
    ∧ self s' = Map_new
    ∧ begin_ s' = Some (None, s') ∧ end_ s' = Some (None, s')
    ∧ empty s' = Some (true, s').
Proof.
  intros Hdist Hperm Hbound Hf.
  destruct (run_inserts fuel vs (mkState h0 Map_new) E (Inv_new h0))
    as (s1 & t1 & Hrun1 & HI1 & Hk1); simpl; try done.
  { intros v x _ Hx. by apply elem_of_nil in Hx. }
  rewrite app_nil_r in Hk1.
  assert (nodes t1 = length vs) as Hn1.
  { rewrite nodes_inorder.
    rewrite <- (length_fmap fst vs), <- Hk1. unfold keys, pairs.
    by rewrite !length_fmap. }
  destruct (run_erases fuel ks s1 t1 HI1) as (s' & Hrun' & HI').
  { by rewrite Hk1, Hperm. }
  { lia. }
  { destruct vs as [|v vs].
    - right. simpl in Hperm. by apply Permutation_nil_r in Hperm.
    - left. simpl in *. lia. }
  pose proof HI1 as (_ & _ & _ & _ & Hsz1 & _).
  destruct HI' as ((_ & _ & Hroot) & _ & _ & Hbi & Hsz & He).
  simpl in Hroot, Hbi, Hsz.
  assert (self s' = Map_new) as Hself by (by apply Map_eq).
  exists s1, s'. split_and!; try done.
  - unfold getSize, get_size. by rewrite bind_get_self, Hsz1, Hn1.
  - rewrite run_app. by erewrite bind_run by exact Hrun1.
  - unfold begin_, get_b_iter. by rewrite bind_get_self, Hself.
  - unfold end_. by rewrite bind_get_self, Hself.
  - unfold empty, get_size. by rewrite bind_bind, bind_get_self, bind_ret, Hself.
Qed.

End Extras.

Lemma Inv_map_213 : @Inv Z Z less_int map_213 tree_213.
Proof.
  unfold Inv, Repr, tree_213. simpl. split_and!; try (by vm_compute).
  - repeat (apply NoDup_cons_2; [set_solver|]). apply NoDup_nil_2.
  - unfold bst. simpl. repeat constructor.
  - unfold right_ok. simpl. lia.
  - unfold right_ok. simpl. lia.
  - unfold right_ok. simpl. lia.
Qed.

Lemma Inv_pair_map : @Inv Z Z less_int pair_map seven_tree.
Proof.
  unfold Inv, Repr, pair_map, seven_tree. simpl.
  split_and!; try (by vm_compute).
  - apply NoDup_singleton.
  - unfold bst. simpl. repeat constructor.
  - unfold right_ok. simpl. lia.
Qed.

Lemma Inv_pair_other :
  @Inv Z Z less_int (mkState (heap pair_map) (self one_map)) one_tree.
Proof.
  unfold Inv, Repr, pair_map, one_map, one_tree. simpl.
  split_and!; try (by vm_compute).
  - apply NoDup_singleton.
  - unfold bst. simpl. repeat constructor.
  - unfold right_ok. simpl. lia.
Qed.

Lemma pair_disjoint : ∀ x, x ∈ ptrs seven_tree → x ∉ ptrs one_tree.
Proof. intros x Hx. simpl in *. set_solver. Qed.

Lemma one_tree_no_seven :
  ∀ x, x ∈ pairs one_tree → @equivalent Z Z less_int (fst x) 7 = false.
Proof. intros x Hx. apply list_elem_of_singleton in Hx. by subst x. Qed.

Lemma one_tree_has_five : (1%positive, (5, 50)) ∈ inorder one_tree.
Proof. simpl. apply list_elem_of_singleton. reflexivity. Qed.

Lemma tree_213_has_two : (1%positive, (2, 20)) ∈ inorder tree_213.
Proof. simpl. set_solver. Qed.

Lemma X1_witness :
  @MapParamsOk Z Z less_int
  ∧ @Inv Z Z less_int one_map one_tree
  ∧ (∀ x, x ∈ pairs one_tree → @equivalent Z Z less_int (fst x) 7 = false)
  ∧ (nodes one_tree < 4)%nat
  ∧ @erase Z Z less_int 4 7 one_map = Some (tt, one_map).
Proof.
  split_and!; [exact less_int_ok|exact Inv_one_map|exact one_tree_no_seven
              |simpl; lia|].
  apply (@X1_erase_of_an_absent_key Z Z less_int less_int_ok 4 7 one_map
           one_tree Inv_one_map one_tree_no_seven). simpl; lia.
Defined.

Lemma X2_witness :
  @MapParamsOk Z Z less_int
  ∧ @Inv Z Z less_int one_map one_tree
  ∧ (1%positive, (5, 50)) ∈ inorder one_tree
  ∧ Z.of_nat (nodes one_tree) + 1 < size_type_modulus
  ∧ (nodes one_tree < 4)%nat
  ∧ ∃ s' t' A B,
      @erase Z Z less_int 4 5 one_map = Some (tt, s')
      ∧ @Inv Z Z less_int s' t'
      ∧ keys one_tree = A ++ 5 :: B ∧ keys t' = A ++ B
      ∧ @find Z Z less_int 4 5 s' = Some (None, s')
      ∧ @contains Z Z less_int 4 5 s' = Some (false, s')
      ∧ getSize s' = Some (size_ (self one_map) - 1, s').
Proof.
  split_and!; [exact less_int_ok|exact Inv_one_map|exact one_tree_has_five
              |by vm_compute|simpl; lia|].
  apply (@X2_erase_of_a_stored_key Z Z less_int less_int_ok 4 one_map one_tree
           1%positive (5, 50) Inv_one_map one_tree_has_five);
    [by vm_compute|simpl; lia].
Defined.

Lemma X3_witness :
  @MapParamsOk Z Z less_int
  ∧ @Inv Z Z less_int one_map one_tree
  ∧ (1%positive, (5, 50)) ∈ inorder one_tree
  ∧ heap one_map !! 1%positive = Some (mkNode (5, 50) None None None 1)
  ∧ (left (mkNode (5, 50) None None None 1) = None
     ∨ right (mkNode (5, 50) None None None 1) = None)
  ∧ Z.of_nat (nodes one_tree) + 1 < size_type_modulus
  ∧ (2 * nodes one_tree < 4)%nat
  ∧ ∃ s' t' A B,
      @erase Z Z less_int 4 5 one_map = Some (tt, s')
      ∧ @Inv Z Z less_int s' t'
      ∧ inorder one_tree = A ++ (1%positive, (5, 50)) :: B
      ∧ inorder t' = A ++ B
      ∧ iterate 4 one_map = Some (A.*2 ++ (5, 50) :: B.*2, one_map)
      ∧ iterate 4 s' = Some (A.*2 ++ B.*2, s').
Proof.
  split_and!; [exact less_int_ok|exact Inv_one_map|exact one_tree_has_five
              |reflexivity|by left|by vm_compute|simpl; lia|].
  apply (@X3_erase_keeps_the_other_pairs Z Z less_int less_int_ok 4 one_map
           one_tree 1%positive (5, 50) (mkNode (5, 50) None None None 1)
           Inv_one_map one_tree_has_five eq_refl (or_introl eq_refl));
    [by vm_compute|simpl; lia].
Defined.

Lemma X4_witness :
  @MapParamsOk Z Z less_int
  ∧ @Inv Z Z less_int map_213 tree_213
  ∧ (1%positive, (2, 20)) ∈ inorder tree_213
  ∧ heap map_213 !! 1%positive
      = Some (mkNode (2, 20) (Some 2%positive) (Some 3%positive) None 2)
  ∧ Z.of_nat (nodes tree_213) + 1 < size_type_modulus
  ∧ (2 * nodes tree_213 < 8)%nat
  ∧ ∃ s' t' A q kq B,
      @erase Z Z less_int 8 2 map_213 = Some (tt, s')
      ∧ @Inv Z Z less_int s' t'
      ∧ inorder tree_213 = A ++ (1%positive, (2, 20)) :: (q, kq) :: B
      ∧ inorder t' = A ++ (1%positive, (fst kq, 20)) :: B
      ∧ next 8 (heap map_213) (Some 1%positive) = Some (Some q)
      ∧ deref (Some 1%positive) s' = Some ((fst kq, 20), s')
      ∧ iterate 8 s' = Some (A.*2 ++ (fst kq, 20) :: B.*2, s').
Proof.
  split_and!; [exact less_int_ok|exact Inv_map_213|exact tree_213_has_two
              |by vm_compute|by vm_compute|simpl; lia|].
  apply (@X4_erase_of_a_node_with_two_children Z Z less_int less_int_ok 8
           map_213 tree_213 1%positive (2, 20)
           (mkNode (2, 20) (Some 2%positive) (Some 3%positive) None 2)
           2%positive 3%positive Inv_map_213 tree_213_has_two);
    [by vm_compute|reflexivity|reflexivity|by vm_compute|simpl; lia].
Defined.

Lemma X5_witness :
  @MapParamsOk Z Z less_int
  ∧ @Inv Z Z less_int one_map one_tree
  ∧ (nodes one_tree < 4)%nat
  ∧ ∃ res, @find Z Z less_int 4 5 one_map = Some (res, one_map)
      ∧ @contains Z Z less_int 4 5 one_map
          = Some (bool_decide (res ≠ None), one_map)
      ∧ match res with
        | Some p =>
          ∃ kv, (p, kv) ∈ inorder one_tree
            ∧ @equivalent Z Z less_int (fst kv) 5 = true
            ∧ deref (Some p) one_map = Some (kv, one_map)
        | None =>
          ∀ x, x ∈ pairs one_tree → @equivalent Z Z less_int (fst x) 5 = false
        end.
Proof.
  split_and!; [exact less_int_ok|exact Inv_one_map|simpl; lia|].
  apply (@X5_find_and_contains Z Z less_int less_int_ok 4 5 one_map one_tree
           Inv_one_map). simpl; lia.
Defined.

Lemma X6_witness :
  @MapParamsOk Z Z less_int
  ∧ @Inv Z Z less_int one_map one_tree
  ∧ (∀ x, x ∈ pairs one_tree → @equivalent Z Z less_int (fst x) 7 = false)
  ∧ Z.of_nat (nodes one_tree) + 2 < size_type_modulus
  ∧ (3 * nodes one_tree + 3 ≤ 6)%nat
  ∧ ∃ p s' t' A B,
      @insert Z Z less_int 6 (7, 70) one_map = Some ((Some p, true), s')
      ∧ @Inv Z Z less_int s' t'
      ∧ inorder one_tree = A ++ B ∧ inorder t' = A ++ (p, (7, 70)) :: B
      ∧ iterate 6 one_map = Some (A.*2 ++ B.*2, one_map)
      ∧ iterate 6 s' = Some (A.*2 ++ (7, 70) :: B.*2, s').
Proof.
  split_and!; [exact less_int_ok|exact Inv_one_map|exact one_tree_no_seven
              |by vm_compute|simpl; lia|].
  apply (@X6_insert_keeps_the_other_pairs Z Z less_int less_int_ok 6 (7, 70)
           one_map one_tree Inv_one_map one_tree_no_seven);
    [by vm_compute|simpl; lia].
Defined.

Lemma X7_witness :
  @Inv Z Z less_int map_213 tree_213
  ∧ inorder tree_213
      = [(2%positive, (1, 10))] ++ (1%positive, (2, 20))
          :: [(3%positive, (3, 30))]
  ∧ (nodes tree_213 ≤ 3)%nat
  ∧ next 3 (heap map_213) (Some 1%positive) = Some (Some 3%positive)
  ∧ prev 3 (heap map_213) (Some 1%positive) = Some (Some 2%positive)
  ∧ (∀ q, next 3 (heap map_213) (Some 1%positive) = Some (Some q) →
          prev 3 (heap map_213) (Some q) = Some (Some 1%positive))
  ∧ (∀ q, prev 3 (heap map_213) (Some 1%positive) = Some (Some q) →
          next 3 (heap map_213) (Some q) = Some (Some 1%positive)).
Proof.
  split_and!; [exact Inv_map_213|reflexivity|simpl; lia|..];
    apply (@X7_next_and_prev_are_inverse Z Z less_int 3 map_213 tree_213
             [(2%positive, (1, 10))] (1%positive, (2, 20))
             [(3%positive, (3, 30))] Inv_map_213 eq_refl);
    simpl; lia.
Defined.

Lemma X8_witness :
  @Inv Z Z less_int map_213 tree_213
  ∧ inorder tree_213 = inorder tree_213 ++ []
  ∧ (2 * nodes tree_213 ≤ 6)%nat
  ∧ iterate_back 6 (heap map_213) (Some 3%positive)
      = Some [(3, 30); (2, 20); (1, 10)]
  ∧ (@nil (positive * (Z * Z)) = [] →
     ∃ kvs, iterate 6 map_213 = Some (kvs, map_213)
       ∧ iterate_back 6 (heap map_213) (Some 3%positive)
           = Some (reverse kvs)).
Proof.
  split_and!; [exact Inv_map_213|reflexivity|simpl; lia|..];
    apply (@X8_backward_iteration Z Z less_int 6 map_213 tree_213
             (inorder tree_213) [] Inv_map_213 eq_refl);
    simpl; lia.
Defined.

Lemma X9_witness :
  @MapParamsOk Z Z less_int
  ∧ @Inv Z Z less_int one_map one_tree
  ∧ (2 * nodes one_tree ≤ 2)%nat
  ∧ ∃ s' t',
      @Map_copy Z Z less_int 2 (self one_map) one_map = Some (tt, s')
      ∧ @Inv Z Z less_int s' t'
      ∧ shape t' = shape one_tree
      ∧ (∀ x, x ∈ ptrs t' → heap one_map !! x = None ∧ x ∉ ptrs one_tree)
      ∧ heap one_map ⊆ heap s'
      ∧ @Inv Z Z less_int (mkState (heap s') (self one_map)) one_tree
      ∧ iterate 2 s' = Some (pairs one_tree, s')
      ∧ iterate 2 one_map = Some (pairs one_tree, one_map)
      ∧ size_ (self s') = size_ (self one_map).
Proof.
  split_and!; [exact less_int_ok|exact Inv_one_map|simpl; lia|].
  apply (@X9_copy_constructor_is_a_deep_copy Z Z less_int less_int_ok 2
           one_map one_tree Inv_one_map). simpl; lia.
Defined.

Lemma X10_witness :
  @Inv Z Z less_int map_213 tree_213
  ∧ (nodes tree_213 ≤ 3)%nat
  ∧ ∃ s', @Map_destroy Z Z 3 map_213 = Some (tt, s')
      ∧ (∀ x, x ∈ ptrs tree_213 →
           is_Some (heap map_213 !! x) ∧ heap s' !! x = None)
      ∧ (∀ x, x ∉ ptrs tree_213 → heap s' !! x = heap map_213 !! x)
      ∧ self s' = mkMap None None None 0.
Proof.
  split_and!; [exact Inv_map_213|simpl; lia|].
  apply (@X10_destructor_releases_the_tree Z Z less_int 3 map_213 tree_213
           Inv_map_213). simpl; lia.
Defined.


Lemma X12_witness :
  @Inv Z Z less_int pair_map seven_tree
  ∧ @Inv Z Z less_int (mkState (heap pair_map) (self one_map)) one_tree
  ∧ (∀ x, x ∈ ptrs seven_tree → x ∉ ptrs one_tree)
  ∧ ∃ s' other',
      @Map_move_assign Z Z (self one_map) pair_map = Some (other', s')
      ∧ @Inv Z Z less_int s' one_tree
      ∧ @Inv Z Z less_int (mkState (heap s') other') E
      ∧ heap s' = heap pair_map
      ∧ (∀ x, x ∈ ptrs seven_tree →
           is_Some (heap s' !! x) ∧ x ∉ ptrs one_tree).
Proof.
  split_and!; [exact Inv_pair_map|exact Inv_pair_other|exact pair_disjoint|].
  exact (@X12_move_assignment_keeps_the_old_nodes Z Z less_int pair_map
           seven_tree (self one_map) one_tree Inv_pair_map Inv_pair_other
           pair_disjoint).
Defined.



Lemma X15_witness :
  @MapParamsOk Z Z less_int
  ∧ @distinct_keys Z Z less_int [2; 1; 3]
  ∧ [1; 3; 2] ≡ₚ [2; 1; 3]
  ∧ ∃ s1 s',
      @run Z Z less_int 9 (Insert <$> [(2, 20); (1, 10); (3, 30)]) new_map
        = Some (tt, s1)
      ∧ getSize s1 = Some (3, s1)
      ∧ @run Z Z less_int 9
          ((Insert <$> [(2, 20); (1, 10); (3, 30)]) ++ (Erase <$> [1; 3; 2]))
          new_map = Some (tt, s')
      ∧ self s' = Map_new
      ∧ begin_ s' = Some (None, s') ∧ end_ s' = Some (None, s')
      ∧ empty s' = Some (true, s').
Proof.
  assert (@distinct_keys Z Z less_int [2; 1; 3]) as Hd.
  { simpl. repeat constructor. }
  assert ([1; 3; 2] ≡ₚ [2; 1; 3]) as Hp.
  { etrans; [apply perm_skip, perm_swap|]. apply perm_swap. }
  split_and!; [exact less_int_ok|exact Hd|exact Hp|].
  apply (@X15_insert_all_then_erase_all Z Z less_int less_int_ok 9
           [(2, 20); (1, 10); (3, 30)] [1; 3; 2] ∅ Hd Hp);
    [by vm_compute|simpl; lia].
Defined.
